(** * Bottom-up traversal of the static call graph (cmd/compile/internal/gc/scc.go)

    A shallow embedding of [visitBottomUp] and [bottomUpVisitor.visit], the
    variant of Tarjan's strongly-connected-components algorithm that the Go
    compiler uses to hand functions to escape analysis and to the inliner,
    together with the properties of the traversal. *)

From Stdlib Require Import ZArith Lia Relations.
From stdpp Require Import gmap list.

Local Open Scope Z_scope.

(** ** The intermediate representation, as far as scc.go looks at it *)

(** A [*ir.Func] is a pointer; only its identity matters to the traversal. *)
Definition Func := positive.

Inductive Op :=
  | ONAME | ONONAME | OTYPE | OLITERAL
  | OMETHEXPR | ODOTMETH | OCALLPART | OCLOSURE | ODCLFUNC | OXXX.

Inductive Class := Pxxx | PEXTERN | PAUTO | PAUTOHEAP | PPARAM | PPARAMOUT | PFUNC.

#[global] Instance Op_eq_dec : EqDecision Op.
Proof. solve_decision. Defined.
#[global] Instance Class_eq_dec : EqDecision Class.
Proof. solve_decision. Defined.

(** An [*ir.Name]: its operation, its storage class and [Name().Defn], which
    for a function name is the declaration of the function, or nil. *)
Record Name := mkName {
  name_Op : Op;
  name_Class : Class;
  name_Defn : option Func
}.

(** The nodes [ir.Visit] hands to the callback of [visit]. Each constructor
    carries what the callback reads from a node of that operation:
    [methodExprName(n)] for OMETHEXPR and ODOTMETH,
    [ir.AsNode(callpartMethod(n).Nname)] for OCALLPART, [n.Func()] for
    OCLOSURE, the declaration itself for ODCLFUNC. *)
Inductive Node :=
  | NameNode (nm : Name)
  | MethExpr (fn : option Name)
  | DotMeth (fn : option Name)
  | CallPart (fn : option Name)
  | ClosureExpr (fn : Func)
  | DclFunc (fn : Func)
  | OtherNode.

#[global] Instance Name_eq_dec : EqDecision Name.
Proof. solve_decision. Defined.
#[global] Instance Node_eq_dec : EqDecision Node.
Proof. solve_decision. Defined.

Definition node_Op (n : Node) : Op :=
  match n with
  | NameNode nm => name_Op nm
  | MethExpr _ => OMETHEXPR
  | DotMeth _ => ODOTMETH
  | CallPart _ => OCALLPART
  | ClosureExpr _ => OCLOSURE
  | DclFunc _ => ODCLFUNC
  | OtherNode => OXXX
  end.

(** What the traversal reads of a function declaration: the hidden-closure
    flag and the nodes that [ir.Visit] reaches from it, in visiting order. *)
Record FuncDecl := mkFunc {
  IsHiddenClosure : bool;
  Body : list Node
}.

(** The heap of declarations: dereferencing a [*ir.Func]. *)
Definition Program := Func → FuncDecl.

(** ** Machine integers *)

(** [uint32] arithmetic: a value is a [Z] in [0, 2^32), [++] wraps around. *)
Definition u32 (z : Z) : Z := z mod 2 ^ 32.

(** [^uint32(0)], the ordinal of a function whose component was reported. *)
Definition sentinel : Z := 2 ^ 32 - 1.

(** ** The visitor *)

(** [analyze] is a callback; its effect is the sequence of its invocations,
    kept here oldest first in [analyzed]. *)
Record bottomUpVisitor := mkVisitor {
  visitgen : Z;
  nodeID : gmap Func Z;
  stack : list Func;
  analyzed : list (list Func * bool)
}.

(** [v.nodeID[n]]: a Go map yields the zero value for a missing key. *)
Definition lookupID (v : bottomUpVisitor) (n : Func) : Z :=
  default 0 (nodeID v !! n).

Inductive outcome (A : Type) :=
  | Done (a : A)
  | Panic
  | OutOfFuel.
Arguments Done {A} a.
Arguments Panic {A}.
Arguments OutOfFuel {A}.

(** The target the callback of [visit] resolves a node to (lines 82-119):
    the function it then visits, if any. *)
Definition callee (n : Node) : option Func :=
  match n with
  | NameNode nm =>
      if decide (name_Op nm = ONAME) then
        if decide (name_Class nm = PFUNC) then name_Defn nm else None
      else None
  | MethExpr fn =>
      match fn with
      | Some fn => name_Defn fn
      | None => None
      end
  | DotMeth fn =>
      match fn with
      | Some fn =>
          if decide (name_Op fn = ONAME) then
            if decide (name_Class fn = PFUNC) then name_Defn fn else None
          else None
      | None => None
      end
  | CallPart fn =>
      match fn with
      | Some fn =>
          if decide (name_Op fn = ONAME) then
            if decide (name_Class fn = PFUNC) then name_Defn fn else None
          else None
      | None => None
      end
  | ClosureExpr fn => Some fn
  | DclFunc _ => None
  | OtherNode => None
  end.

(** Lines 135-142: walk down the stack from index [k - 1], marking every
    entry above [n]; the result is the index of [n], if it was found. *)
Fixpoint scanStack (n : Func) (s : list Func) (k : nat) (ids : gmap Func Z)
  : option nat * gmap Func Z :=
  match k with
  | O => (None, ids)
  | S i =>
      match s !! i with
      | Some x =>
          if decide (x = n) then (Some i, ids)
          else scanStack n s i (<[x := sentinel]> ids)
      | None => (None, ids)
      end
  end.

(** The test of line 122: is this node the root of a component? *)
Definition isRoot (hidden : bool) (id min : Z) : bool :=
  (bool_decide (min = id) || bool_decide (min = u32 (id + 1))) && negb hidden.

(** Lines 122-148. Slicing the stack at index -1 panics. *)
Definition closeComponent (hidden : bool) (n : Func) (id min : Z) (v : bottomUpVisitor)
  : outcome bottomUpVisitor :=
  if isRoot hidden id min then
    let recursive := bool_decide (min = id) in
    match scanStack n (stack v) (length (stack v)) (nodeID v) with
    | (Some i, ids) =>
        let block := drop i (stack v) in
        Done {| visitgen := visitgen v;
                nodeID := <[n := sentinel]> ids;
                stack := take i (stack v);
                analyzed := analyzed v ++ [(block, recursive)] |}
    | (None, _) => Panic
    end
  else Done v.

(** The traversal of a body: [ir.Visit] calls the callback on each node in
    turn; [min] is the variable the callback captures. *)
Fixpoint visitNodes (vis : Func → bottomUpVisitor → outcome (Z * bottomUpVisitor))
    (body : list Node) (min : Z) (v : bottomUpVisitor) : outcome (Z * bottomUpVisitor) :=
  match body with
  | [] => Done (min, v)
  | n :: rest =>
      match callee n with
      | Some fn =>
          match vis fn v with
          | Done (m, v') => visitNodes vis rest (if bool_decide (m < min) then m else min) v'
          | Panic => Panic
          | OutOfFuel => OutOfFuel
          end
      | None => visitNodes vis rest min v
      end
  end.

(** Lines 74-79: number the function and push it. *)
Definition enter (n : Func) (v : bottomUpVisitor) : Z * Z * bottomUpVisitor :=
  let id := u32 (visitgen v + 1) in
  let min := u32 (id + 1) in
  (id, min, {| visitgen := min;
               nodeID := <[n := id]> (nodeID v);
               stack := stack v ++ [n];
               analyzed := analyzed v |}).

Section Traversal.

Variable prog : Program.

(** [visit]; the recursion of the source is bounded here by [fuel], the depth
    of nested calls. *)
Fixpoint visit (fuel : nat) (n : Func) (v : bottomUpVisitor)
  : outcome (Z * bottomUpVisitor) :=
  match fuel with
  | O => OutOfFuel
  | S fuel' =>
      if bool_decide (0 < lookupID v n) then Done (lookupID v n, v)
      else
        let '(id, min, v1) := enter n v in
        match visitNodes (visit fuel') (Body (prog n)) min v1 with
        | Done (min', v2) =>
            match closeComponent (IsHiddenClosure (prog n)) n id min' v2 with
            | Done v3 => Done (min', v3)
            | Panic => Panic
            | OutOfFuel => OutOfFuel
            end
        | Panic => Panic
        | OutOfFuel => OutOfFuel
        end
  end.

(** The loop of [visitBottomUp] over the listed declarations. *)
Fixpoint visitList (fuel : nat) (list : list Node) (v : bottomUpVisitor)
  : outcome bottomUpVisitor :=
  match list with
  | [] => Done v
  | n :: rest =>
      match n with
      | DclFunc fn =>
          if IsHiddenClosure (prog fn) then visitList fuel rest v
          else
            match visit fuel fn v with
            | Done (_, v') => visitList fuel rest v'
            | Panic => Panic
            | OutOfFuel => OutOfFuel
            end
      | _ => visitList fuel rest v
      end
  end.

Definition newVisitor : bottomUpVisitor :=
  {| visitgen := 0; nodeID := ∅; stack := []; analyzed := [] |}.

(** [visitBottomUp]: the visitor it leaves behind, whose [analyzed] is the
    sequence of calls of [analyze]. *)
Definition visitBottomUp (fuel : nat) (list : list Node) : outcome bottomUpVisitor :=
  visitList fuel list newVisitor.

End Traversal.

(** ** Small programs *)

Definition call (f : Func) : Node := NameNode (mkName ONAME PFUNC (Some f)).

Definition funcs (l : list (Func * FuncDecl)) : Program :=
  fun f => default (mkFunc false []) (list_to_map (M := gmap Func FuncDecl) l !! f).

Definition calls_of (o : outcome bottomUpVisitor) : option (list (list Func * bool)) :=
  match o with Done v => Some (analyzed v) | _ => None end.

(** A program with a cycle, a closure that calls back into the function
    that encloses it, and a leaf:
    function 1 calls 2 and holds the closure 4, which calls 1;
    2 calls 3; 3 calls 2 and, through a method expression, 5. *)
Definition demo : Program := funcs
  [(1%positive, mkFunc false [call 2%positive; OtherNode; ClosureExpr 4%positive]);
   (2%positive, mkFunc false [call 3%positive]);
   (3%positive, mkFunc false [call 2%positive;
                              MethExpr (Some (mkName ONAME PFUNC (Some 5%positive)))]);
   (4%positive, mkFunc true [call 1%positive]);
   (5%positive, mkFunc false [NameNode (mkName ONAME PAUTO None)])].

Definition demo_univ : list Func := [1%positive; 2%positive; 3%positive; 4%positive; 5%positive].

Definition demo_list : list Node :=
  [DclFunc 1%positive; OtherNode; DclFunc 4%positive; DclFunc 2%positive; DclFunc 5%positive].

(** The program [demo] with the nodes of two bodies in another order, and
    its list of declarations in another order. *)
Definition demo_reordered : Program := funcs
  [(1%positive, mkFunc false [ClosureExpr 4%positive; call 2%positive]);
   (2%positive, mkFunc false [call 3%positive]);
   (3%positive, mkFunc false [MethExpr (Some (mkName ONAME PFUNC (Some 5%positive)));
                              call 2%positive]);
   (4%positive, mkFunc true [call 1%positive]);
   (5%positive, mkFunc false [])].

Definition demo_list_reordered : list Node :=
  [DclFunc 5%positive; DclFunc 2%positive; OtherNode; DclFunc 1%positive; DclFunc 4%positive].

(** The same program without the closure. *)
Definition plain : Program := funcs
  [(1%positive, mkFunc false [call 2%positive]);
   (2%positive, mkFunc false [call 3%positive]);
   (3%positive, mkFunc false [call 2%positive; call 5%positive]);
   (5%positive, mkFunc false [])].

Definition plain_univ : list Func := [1%positive; 2%positive; 3%positive; 5%positive].

Definition plain_list : list Node := [DclFunc 1%positive; DclFunc 5%positive].

(** A function that holds the literal of a hidden closure that calls
    nothing. *)
Definition holder : Program := funcs
  [(1%positive, mkFunc false [ClosureExpr 2%positive]);
   (2%positive, mkFunc true [])].

(** A hidden closure that a second function refers to by name: function 1
    holds the literal of the hidden closure 2; the closure calls function 3,
    and function 3 refers to the closure through an ONAME node. *)
Definition shared_closure : Program := funcs
  [(1%positive, mkFunc false [ClosureExpr 2%positive]);
   (2%positive, mkFunc true [call 3%positive]);
   (3%positive, mkFunc false [call 2%positive])].

Definition shared_closure_univ : list Func := [1%positive; 2%positive; 3%positive].

(** ** The call graph and the traversal as a relation *)

Section Graph.

Variable prog : Program.

(** The functions [visit] descends into from [n], in the order of the body. *)
Definition callees (n : Func) : list Func := omap callee (Body (prog n)).

Definition edge (a b : Func) : Prop := b ∈ callees a.


Definition hidden (n : Func) : bool := IsHiddenClosure (prog n).

(** The functions reported so far, in the order of the reports. *)
Definition emitted (v : bottomUpVisitor) : list Func := concat (analyzed v).*1.

(** One call of [visit], and the loop over the targets of the function
    [x] being visited, as input-output relations. *)
Inductive Visit : Func → bottomUpVisitor → Z → bottomUpVisitor → Prop :=
  | Visit_seen n v :
      0 < lookupID v n →
      Visit n v (lookupID v n) v
  | Visit_new n v min' v2 v3 :
      ¬ 0 < lookupID v n →
      Loop n (callees n) (enter n v).1.2 (enter n v).2 min' v2 →
      closeComponent (hidden n) n (enter n v).1.1 min' v2 = Done v3 →
      Visit n v min' v3
with Loop : Func → list Func → Z → bottomUpVisitor → Z → bottomUpVisitor → Prop :=
  | Loop_nil x min v :
      Loop x [] min v min v
  | Loop_cons x f l min v m v1 min' v2 :
      Visit f v m v1 →
      Loop x l (if bool_decide (m < min) then m else min) v1 min' v2 →
      Loop x (f :: l) min v min' v2.

Scheme Visit_Loop_ind := Minimality for Visit Sort Prop
  with Loop_Visit_ind := Minimality for Loop Sort Prop.
Combined Scheme Visit_Loop_mutind from Visit_Loop_ind, Loop_Visit_ind.

Inductive VisitList : list Node → bottomUpVisitor → bottomUpVisitor → Prop :=
  | VisitList_nil v : VisitList [] v v
  | VisitList_skip n rest v v' :
      (∀ fn, n = DclFunc fn → hidden fn = true) →
      VisitList rest v v' →
      VisitList (n :: rest) v v'
  | VisitList_visit fn rest v m v1 v' :
      hidden fn = false →
      Visit fn v m v1 →
      VisitList rest v1 v' →
      VisitList (DclFunc fn :: rest) v v'.

(** The first visits of a traversal: [Enters n v k w] says that the call of
    [visit] on [n] from the visitor [v] comes, itself or through the calls
    nested in it, to execute lines 74-79 for the function [k], and that the
    visitor is [w] when it does. *)
Inductive Enters : Func → bottomUpVisitor → Func → bottomUpVisitor → Prop :=
  | Enters_here n v :
      ¬ 0 < lookupID v n →
      Enters n v n v
  | Enters_body n v k w :
      ¬ 0 < lookupID v n →
      EntersLoop (callees n) (enter n v).1.2 (enter n v).2 k w →
      Enters n v k w
with EntersLoop : list Func → Z → bottomUpVisitor → Func → bottomUpVisitor → Prop :=
  | EntersLoop_head f l min v k w :
      Enters f v k w →
      EntersLoop (f :: l) min v k w
  | EntersLoop_tail f l min v m v1 k w :
      Visit f v m v1 →
      EntersLoop l (if bool_decide (m < min) then m else min) v1 k w →
      EntersLoop (f :: l) min v k w.

Scheme Enters_Loop_ind := Minimality for Enters Sort Prop
  with EntersLoop_Enters_ind := Minimality for EntersLoop Sort Prop.
Combined Scheme Enters_mutind from Enters_Loop_ind, EntersLoop_Enters_ind.

(** The first visits of a whole run. *)
Inductive EntersList : list Node → bottomUpVisitor → Func → bottomUpVisitor → Prop :=
  | EntersList_here fn rest v k w :
      hidden fn = false →
      Enters fn v k w →
      EntersList (DclFunc fn :: rest) v k w
  | EntersList_skip n rest v k w :
      (∀ fn, n = DclFunc fn → hidden fn = true) →
      EntersList rest v k w →
      EntersList (n :: rest) v k w
  | EntersList_next fn rest v m v1 k w :
      hidden fn = false →
      Visit fn v m v1 →
      EntersList rest v1 k w →
      EntersList (DclFunc fn :: rest) v k w.

Lemma visitNodes_Loop x (vis : Func → bottomUpVisitor → outcome (Z * bottomUpVisitor)) :
  (∀ f v m v', vis f v = Done (m, v') → Visit f v m v') →
  ∀ body min v min' v',
    visitNodes vis body min v = Done (min', v') →
    Loop x (omap callee body) min v min' v'.
Proof.
  intros Hvis body. induction body as [|nd body IH]; intros min v min' v' H; simpl in H.
  - inversion H; subst. constructor.
  - simpl. destruct (callee nd) as [f|] eqn:Hc.
    + destruct (vis f v) as [[m v1]| |] eqn:Hf; try discriminate.
      econstructor; eauto.
    + eauto.
Qed.

Lemma visit_sound fuel : ∀ n v m v',
  visit prog fuel n v = Done (m, v') → Visit n v m v'.
Proof.
  induction fuel as [|fuel IH]; intros n v m v' H; simpl in H; [discriminate|].
  case_bool_decide as Hid.
  - inversion H; subst. by constructor.
  - destruct (visitNodes (visit prog fuel) (Body (prog n)) _ _) as [[min2 v2]| |] eqn:Hl;
      try discriminate.
    destruct (closeComponent _ n _ min2 v2) as [v3| |] eqn:Hcl; try discriminate.
    inversion H; subst.
    eapply Visit_new; eauto.
    eapply visitNodes_Loop; eauto.
Qed.

Lemma visitList_sound fuel : ∀ l v v',
  visitList prog fuel l v = Done v' → VisitList l v v'.
Proof.
  induction l as [|n rest IH]; intros v v' H; simpl in H.
  - inversion H; subst. constructor.
  - destruct n; try (apply VisitList_skip; [discriminate|by auto]).
    destruct (IsHiddenClosure (prog fn)) eqn:Hh.
    + apply VisitList_skip; auto. intros ? [= <-]. exact Hh.
    + destruct (visit prog fuel fn v) as [[m v1]| |] eqn:Hv; try discriminate.
      eapply VisitList_visit; eauto. eapply visit_sound; eauto.
Qed.

End Graph.

(** ** Elementary facts about the visitor's operations *)

Ltac pow_lia :=
  unfold sentinel in *; change (2 ^ 32) with 4294967296 in *;
  change (2 ^ 31) with 2147483648 in *; lia.

(** Case analysis on the comparison [m < min] of the callback. *)
Ltac case_min H :=
  match goal with
  | |- context [bool_decide (?m < ?min)] =>
      destruct (decide (m < min)) as [H|H];
      [rewrite (bool_decide_eq_true_2 (m < min)) by exact H
      |rewrite (bool_decide_eq_false_2 (m < min)) by exact H]
  end.

Ltac u32_lia :=
  unfold u32, sentinel in *; change (2 ^ 32) with 4294967296 in *;
  change (2 ^ 31) with 2147483648 in *;
  Z.div_mod_to_equations; lia.

Lemma u32_range z : 0 ≤ u32 z < 2 ^ 32.
Proof. u32_lia. Qed.

Lemma u32_small z : 0 ≤ z < 2 ^ 32 → u32 z = z.
Proof. intros. u32_lia. Qed.

Lemma u32_succ_odd g : 0 ≤ g < 2 ^ 32 → g mod 2 = 0 → u32 (g + 1) = g + 1.
Proof. intros. u32_lia. Qed.

Lemma u32_succ_succ_even g : 0 ≤ g < 2 ^ 32 → g mod 2 = 0 → u32 (u32 (g + 1) + 1) mod 2 = 0.
Proof. intros. u32_lia. Qed.

Lemma lookupID_insert v n id u g s a :
  lookupID {| visitgen := g; nodeID := <[n := id]> (nodeID v); stack := s; analyzed := a |} u
  = if decide (u = n) then id else lookupID v u.
Proof.
  unfold lookupID; simpl. destruct (decide (u = n)) as [->|Hne].
  - by rewrite lookup_insert_eq.
  - by rewrite lookup_insert_ne.
Qed.

Lemma scanStack_found n s0 t : ∀ rest ids, n ∉ t →
  ∃ ids', scanStack n (s0 ++ n :: t ++ rest) (length s0 + 1 + length t)%nat ids
          = (Some (length s0), ids')
    ∧ ∀ u, ids' !! u = if decide (u ∈ t) then Some sentinel else ids !! u.
Proof.
  induction t as [|x t IH] using rev_ind; intros rest ids Hn.
  - exists ids. split.
    + replace (length s0 + 1 + length (@nil Func))%nat with (S (length s0)) by (simpl; lia).
      simpl. rewrite lookup_app_r by lia. rewrite Nat.sub_diag. simpl.
      by rewrite decide_True.
    + intros u. rewrite decide_False; [done|]. by intros ?%elem_of_nil.
  - rewrite not_elem_of_app in Hn. destruct Hn as [Hn Hx].
    assert (x ≠ n) as Hxn by (intros ->; apply Hx; by left).
    destruct (IH (x :: rest) (<[x := sentinel]> ids) Hn) as (ids' & Hscan & Hlk).
    exists ids'. split.
    + rewrite length_app. simpl.
      replace (length s0 + 1 + (length t + 1))%nat with (S (length s0 + 1 + length t)) by lia.
      simpl.
      replace (s0 ++ n :: (t ++ [x]) ++ rest) with ((s0 ++ n :: t) ++ x :: rest)
        by (rewrite <- ?app_assoc; simpl; rewrite <- ?app_assoc; reflexivity).
      rewrite lookup_app_r by (rewrite length_app; simpl; lia).
      replace (length s0 + 1 + length t - length (s0 ++ n :: t))%nat with 0%nat
        by (rewrite length_app; simpl; lia).
      simpl. rewrite decide_False by done.
      rewrite <- Hscan. f_equal. by rewrite <- app_assoc.
    + intros u. rewrite Hlk. destruct (decide (u ∈ t)) as [Hu|Hu].
      * rewrite decide_True; [done|]. apply elem_of_app. by left.
      * destruct (decide (u = x)) as [->|Hux].
        -- rewrite lookup_insert_eq. rewrite decide_True; [done|].
           apply elem_of_app. right. by left.
        -- rewrite lookup_insert_ne by done. rewrite decide_False; [done|].
           intros [?|?%list_elem_of_singleton]%elem_of_app; done.
Qed.

(** What [closeComponent] does when [n] is on the stack: nothing, or it pops
    the stack down to and including [n] and reports what it popped. *)
Lemma closeComponent_spec h n id m v s0 t :
  stack v = s0 ++ n :: t → n ∉ t →
  (isRoot h id m = false ∧ closeComponent h n id m v = Done v) ∨
  (isRoot h id m = true ∧ ∃ v',
     closeComponent h n id m v = Done v' ∧
     visitgen v' = visitgen v ∧ stack v' = s0 ∧
     analyzed v' = analyzed v ++ [(n :: t, bool_decide (m = id))] ∧
     ∀ u, lookupID v' u = if decide (u ∈ n :: t) then sentinel else lookupID v u).
Proof.
  intros Hs Hn. unfold closeComponent. destruct (isRoot h id m); [right|left; done].
  split; [done|].
  destruct (scanStack_found n s0 t [] (nodeID v) Hn) as (ids' & Hscan & Hlk).
  rewrite app_nil_r in Hscan.
  replace (length (stack v)) with (length s0 + 1 + length t)%nat
    by (rewrite Hs, length_app; simpl; lia).
  rewrite Hs, Hscan. eexists. split; [reflexivity|]. simpl.
  split; [done|]. split; [by rewrite take_app_length|].
  split; [by rewrite drop_app_length|].
  intros u. unfold lookupID at 1. simpl.
  destruct (decide (u = n)) as [->|Hne].
  - rewrite lookup_insert_eq. simpl. rewrite decide_True; [done|by left].
  - rewrite lookup_insert_ne by done. rewrite Hlk.
    destruct (decide (u ∈ t)).
    + rewrite decide_True; [done|by right].
    + rewrite decide_False; [done|]. by intros [?|?]%elem_of_cons.
Qed.

(** ** Structural invariant of the visitor

    These facts hold whatever the counter does, wrap-around included: the
    ordinal a function receives is odd, hence never the zero that marks an
    unvisited function. *)

Section Structure.

Variable prog : Program.
Variable univ : list Func.

(** The declarations the traversal can reach all lie in the finite [univ]. *)
Definition closed_universe : Prop :=
  Forall (λ a, Forall (λ b, b ∈ univ) (callees prog a)) univ.

Hypothesis univ_closed : closed_universe.

Lemma univ_edge a b : a ∈ univ → edge prog a b → b ∈ univ.
Proof.
  intros Ha Hb. unfold closed_universe in univ_closed.
  rewrite Forall_forall in univ_closed. specialize (univ_closed a Ha).
  rewrite Forall_forall in univ_closed. by apply univ_closed.
Qed.

Record wf_visitor (v : bottomUpVisitor) : Prop := {
  wf_gen_range : 0 ≤ visitgen v < 2 ^ 32;
  wf_gen_even : visitgen v mod 2 = 0;
  wf_ids_range : ∀ n, 0 ≤ lookupID v n < 2 ^ 32;
  wf_visited : ∀ n, lookupID v n ≠ 0 ↔ n ∈ stack v ++ emitted v;
  wf_nodup : NoDup (stack v ++ emitted v);
  wf_emitted : ∀ n, n ∈ emitted v → lookupID v n = sentinel;
  wf_heads : ∀ B r, (B, r) ∈ analyzed v → ∃ h t, B = h :: t ∧ hidden prog h = false;
  wf_univ : ∀ n, n ∈ stack v ++ emitted v → n ∈ univ
}.

(** [v'] continues [v]: the stack and the reports only grow at their ends
    and the ordinals of the functions on the old stack are kept. *)
Definition extends (v v' : bottomUpVisitor) : Prop :=
  (∃ seg, stack v' = stack v ++ seg) ∧
  (∃ news, analyzed v' = analyzed v ++ news) ∧
  (∀ u, u ∈ stack v → lookupID v' u = lookupID v u).

Lemma extends_refl v : extends v v.
Proof.
  split; [exists []; by rewrite app_nil_r|].
  split; [exists []; by rewrite app_nil_r|done].
Qed.

Lemma extends_trans v1 v2 v3 : extends v1 v2 → extends v2 v3 → extends v1 v3.
Proof.
  intros ([s1 H1] & [a1 A1] & L1) ([s2 H2] & [a2 A2] & L2).
  split; [exists (s1 ++ s2); by rewrite H2, H1, app_assoc|].
  split; [exists (a1 ++ a2); by rewrite A2, A1, app_assoc|].
  intros u Hu. rewrite L2; [by apply L1|]. rewrite H1. apply elem_of_app. by left.
Qed.

Lemma emitted_app (a b : list (list Func * bool)) :
  concat (a ++ b).*1 = concat a.*1 ++ concat b.*1.
Proof. by rewrite fmap_app, concat_app. Qed.

Lemma emitted_extends v v' : extends v v' → ∀ u, u ∈ emitted v → u ∈ emitted v'.
Proof.
  intros (_ & [a A] & _) u Hu. unfold emitted in *. rewrite A, emitted_app.
  apply elem_of_app. by left.
Qed.

Lemma wf_newVisitor : wf_visitor newVisitor.
Proof.
  split; simpl.
  - pow_lia.
  - done.
  - intros n. unfold lookupID. simpl. rewrite lookup_empty. simpl. pow_lia.
  - intros n. unfold lookupID, emitted. simpl. rewrite lookup_empty. simpl.
    split; [done|]. by intros ?%elem_of_nil.
  - constructor.
  - by intros n ?%elem_of_nil.
  - by intros B r ?%elem_of_nil.
  - by intros n ?%elem_of_nil.
Qed.

Lemma wf_unvisited v n : wf_visitor v → ¬ 0 < lookupID v n → lookupID v n = 0.
Proof. intros Hw Hn. pose proof (wf_ids_range v Hw n). pow_lia. Qed.

Lemma wf_enter v n :
  wf_visitor v → lookupID v n = 0 → n ∈ univ → wf_visitor (enter n v).2.
Proof.
  intros Hw Hn Hu. pose proof (wf_gen_range v Hw) as Hr. pose proof (wf_gen_even v Hw) as He.
  assert (n ∉ stack v ++ emitted v) as Hfresh.
  { intros Hin. apply (wf_visited v Hw) in Hin. done. }
  split; simpl.
  - apply u32_range.
  - by apply u32_succ_succ_even.
  - intros u. rewrite lookupID_insert. case_decide; [apply u32_range|apply (wf_ids_range v Hw)].
  - intros u. rewrite lookupID_insert. unfold emitted; simpl. fold (emitted v).
    case_decide as Hun.
    + subst u. split; [intros _|intros _].
      * rewrite elem_of_app. left. rewrite elem_of_app. right. by left.
      * rewrite u32_succ_odd by done. pow_lia.
    + rewrite (wf_visited v Hw u). rewrite !elem_of_app, list_elem_of_singleton. tauto.
  - unfold emitted; simpl. fold (emitted v).
    rewrite <- app_assoc. simpl.
    apply NoDup_app. pose proof (wf_nodup v Hw) as Hnd. apply NoDup_app in Hnd.
    destruct Hnd as (Hs & Hdisj & Hem).
    split; [done|]. split.
    + intros u Hus [->|Hue]%elem_of_cons.
      * apply Hfresh. apply elem_of_app. by left.
      * by apply (Hdisj u).
    + constructor; [|done]. intros Hin. apply Hfresh. apply elem_of_app. by right.
  - intros u Hue. unfold emitted in Hue; simpl in Hue. rewrite lookupID_insert.
    case_decide as Hun.
    + subst u. exfalso. apply Hfresh. apply elem_of_app. by right.
    + by apply (wf_emitted v Hw).
  - apply (wf_heads v Hw).
  - intros u. unfold emitted; simpl. fold (emitted v).
    rewrite !elem_of_app, list_elem_of_singleton. intros [[?|Heq]|?]; [|by subst|].
    + apply (wf_univ v Hw). apply elem_of_app. by left.
    + apply (wf_univ v Hw). apply elem_of_app. by right.
Qed.

(** The two ways [closeComponent] can leave a visitor that has [n] on its stack. *)
Definition closed_as (n : Func) (id m : Z) (s0 t : list Func) (v2 v3 : bottomUpVisitor) : Prop :=
  (isRoot (hidden prog n) id m = false ∧ v3 = v2) ∨
  (isRoot (hidden prog n) id m = true ∧
   visitgen v3 = visitgen v2 ∧ stack v3 = s0 ∧
   analyzed v3 = analyzed v2 ++ [(n :: t, bool_decide (m = id))] ∧
   ∀ u, lookupID v3 u = if decide (u ∈ n :: t) then sentinel else lookupID v2 u).

Lemma close_cases v2 v3 n id m s0 t :
  NoDup (stack v2) → stack v2 = s0 ++ n :: t →
  closeComponent (hidden prog n) n id m v2 = Done v3 →
  closed_as n id m s0 t v2 v3.
Proof.
  intros Hnd Hs Hc.
  assert (n ∉ t) as Hnt.
  { rewrite Hs in Hnd. apply NoDup_app in Hnd. destruct Hnd as (_ & _ & Hnd).
    by apply NoDup_cons in Hnd as [? _]. }
  destruct (closeComponent_spec (hidden prog n) n id m v2 s0 t Hs Hnt)
    as [[Hr Hd]|[Hr (v' & Hd & Hg & Hst & Han & Hlk)]].
  - left. split; [done|]. congruence.
  - right. rewrite Hd in Hc. inversion Hc; subst v'. done.
Qed.

Lemma wf_close v2 v3 n id m s0 t :
  wf_visitor v2 → stack v2 = s0 ++ n :: t →
  closed_as n id m s0 t v2 v3 → wf_visitor v3.
Proof.
  intros Hw Hs [[_ ->]|(Hr & Hg & Hst & Han & Hlk)]; [done|].
  assert (emitted v3 = emitted v2 ++ n :: t) as Hem.
  { unfold emitted. rewrite Han, emitted_app. simpl. by rewrite app_nil_r. }
  assert (stack v3 ++ emitted v3 ≡ₚ stack v2 ++ emitted v2) as Hperm.
  { rewrite Hem, Hst, Hs. rewrite <- !app_assoc.
    apply Permutation_app_head. apply Permutation_app_comm. }
  split.
  - rewrite Hg. apply (wf_gen_range v2 Hw).
  - rewrite Hg. apply (wf_gen_even v2 Hw).
  - intros u. rewrite Hlk. destruct (decide (u ∈ n :: t)); [pow_lia|apply (wf_ids_range v2 Hw)].
  - intros u. rewrite Hperm, <- (wf_visited v2 Hw u), Hlk.
    destruct (decide (u ∈ n :: t)) as [Hu|Hu]; [|done].
    split; [intros _|intros _; pow_lia].
    apply (wf_visited v2 Hw). rewrite Hs. apply elem_of_app. left. apply elem_of_app. by right.
  - rewrite Hperm. apply (wf_nodup v2 Hw).
  - intros u. rewrite Hem, Hlk. intros [Hu|Hu]%elem_of_app.
    + destruct (decide (u ∈ n :: t)); [done|]. by apply (wf_emitted v2 Hw).
    + by rewrite decide_True.
  - intros B r. rewrite Han. intros [HB|HB%list_elem_of_singleton]%elem_of_app.
    + by apply (wf_heads v2 Hw B r).
    + inversion HB; subst. exists n, t. split; [done|].
      unfold isRoot in Hr. apply andb_true_iff in Hr as [_ Hr].
      by apply negb_true_iff in Hr.
  - intros u. rewrite Hperm. apply (wf_univ v2 Hw).
Qed.

(** Pass 1 of the induction over a traversal: the structural invariant is
    preserved, the new state continues the old one, and a visit leaves
    either nothing of its own on the stack or a segment that starts with
    the visited function. *)
Lemma structure_mutual :
  (∀ n v m v', Visit prog n v m v' →
     wf_visitor v → n ∈ univ →
     wf_visitor v' ∧ extends v v' ∧ lookupID v' n ≠ 0 ∧ 0 ≤ m < 2 ^ 32 ∧
     (stack v' = stack v ∨ ∃ t, stack v' = stack v ++ n :: t)) ∧
  (∀ x l min v min' v', Loop prog x l min v min' v' →
     wf_visitor v → (∀ f, f ∈ l → f ∈ univ) → 0 ≤ min < 2 ^ 32 →
     wf_visitor v' ∧ extends v v' ∧ 0 ≤ min' < 2 ^ 32 ∧ min' ≤ min ∧
     (∀ f, f ∈ l → lookupID v' f ≠ 0)).
Proof.
  apply Visit_Loop_mutind.
  - (* already visited *)
    intros n v Hpos Hw Hu. split; [done|]. split; [apply extends_refl|].
    split; [lia|]. split; [apply (wf_ids_range v Hw)|by left].
  - (* first visit *)
    intros n v min' v2 v3 Hz _ IH Hc Hw Hu.
    apply (wf_unvisited v n Hw) in Hz.
    pose proof (wf_enter v n Hw Hz Hu) as Hw1.
    destruct IH as (Hw2 & Hext & Hmin & Hle & _); [done| |simpl; apply u32_range|].
    { intros f Hf. by apply (univ_edge n). }
    destruct Hext as ([seg Hseg] & [news Hnews] & Hkeep). simpl in Hseg, Hnews, Hkeep.
    rewrite <- app_assoc in Hseg. simpl in Hseg.
    assert (NoDup (stack v2)) as Hnd2.
    { pose proof (wf_nodup v2 Hw2) as Hnd. by apply NoDup_app in Hnd as [? _]. }
    pose proof (close_cases v2 v3 n _ min' (stack v) seg Hnd2 Hseg Hc) as Hcl.
    pose proof (wf_close v2 v3 n _ min' (stack v) seg Hw2 Hseg Hcl) as Hw3.
    split; [done|].
    assert (∀ u, u ∈ stack v → lookupID v2 u = lookupID v u) as Hkeep2.
    { intros u Hu'. rewrite Hkeep by (apply elem_of_app; by left).
      rewrite lookupID_insert. case_decide as Hun; [|done]. subst u.
      exfalso. apply (wf_visited v Hw n) in Hz; [done|]. apply elem_of_app. by left. }
    destruct Hcl as [[_ ->]|(Hr & Hg & Hst & Han & Hlk)].
    + split; [|split; [|split; [done|]]].
      * split; [by exists (n :: seg)|]. split; [by exists news|done].
      * apply (wf_visited v2 Hw2). rewrite Hseg. apply elem_of_app. left.
        apply elem_of_app. right. by left.
      * right. by exists seg.
    + split; [|split; [|split; [done|]]].
      * split; [exists []; by rewrite app_nil_r|].
        split; [exists (news ++ [(n :: seg, bool_decide (min' = (enter n v).1.1))]);
                by rewrite Han, Hnews, app_assoc|].
        intros u Hu'. rewrite Hlk. rewrite decide_False; [by apply Hkeep2|].
        intros Hin. pose proof Hnd2 as Hnd. rewrite Hseg in Hnd.
        apply NoDup_app in Hnd as (_ & Hd & _). by apply (Hd u).
      * rewrite Hlk. rewrite decide_True by (by left). pow_lia.
      * by left.
  - (* end of the loop *)
    intros x min v Hw _ Hmin. split; [done|]. split; [apply extends_refl|].
    split; [done|]. split; [lia|]. by intros f ?%elem_of_nil.
  - (* one target, then the rest *)
    intros x f l min v m v1 min' v2 _ IHv _ IHl Hw Hl Hmin.
    destruct IHv as (Hw1 & Hext1 & Hf & Hm & _); [done|apply Hl; by left|].
    destruct IHl as (Hw2 & Hext2 & Hmin' & Hle & Hvis); [done| | |].
    { intros g Hg. apply Hl. by right. }
    { case_bool_decide; lia. }
    split; [done|]. split; [by eapply extends_trans|]. split; [done|].
    split; [case_bool_decide; lia|].
    intros g [->|Hg]%elem_of_cons; [|by apply Hvis].
    apply (wf_visited v2 Hw2). apply (wf_visited v1 Hw1) in Hf.
    apply elem_of_app in Hf as [Hf|Hf].
    + destruct Hext2 as ([seg ->] & _). apply elem_of_app. left. apply elem_of_app. by left.
    + apply elem_of_app. right. by apply (emitted_extends v1 v2).
Qed.

Lemma structure_visit n v m v' :
  Visit prog n v m v' → wf_visitor v → n ∈ univ →
  wf_visitor v' ∧ extends v v' ∧ lookupID v' n ≠ 0 ∧ 0 ≤ m < 2 ^ 32 ∧
  (stack v' = stack v ∨ ∃ t, stack v' = stack v ++ n :: t).
Proof. apply structure_mutual. Qed.

Lemma structure_loop x l min v min' v' :
  Loop prog x l min v min' v' →
  wf_visitor v → (∀ f, f ∈ l → f ∈ univ) → 0 ≤ min < 2 ^ 32 →
  wf_visitor v' ∧ extends v v' ∧ 0 ≤ min' < 2 ^ 32 ∧ min' ≤ min ∧
  (∀ f, f ∈ l → lookupID v' f ≠ 0).
Proof. apply structure_mutual. Qed.

(** A visited function stays visited. *)
Lemma visited_extends v v' u :
  wf_visitor v → wf_visitor v' → extends v v' → lookupID v u ≠ 0 → lookupID v' u ≠ 0.
Proof.
  intros Hw Hw' Hext Hu. apply (wf_visited v' Hw'). apply (wf_visited v Hw) in Hu.
  apply elem_of_app in Hu as [Hu|Hu].
  - destruct Hext as ([seg ->] & _). apply elem_of_app. left. apply elem_of_app. by left.
  - apply elem_of_app. right. by apply (emitted_extends v v').
Qed.

(** ** Termination *)

(** The number of declarations of the universe not yet visited. *)
Definition remaining (v : bottomUpVisitor) : nat :=
  length (filter (λ u, lookupID v u = 0) univ).

Lemma filter_length_mono (P Q : Func → Prop) `{∀ x, Decision (P x)} `{∀ x, Decision (Q x)}
    (l : list Func) :
  (∀ x, x ∈ l → Q x → P x) → (length (filter Q l) ≤ length (filter P l))%nat.
Proof.
  induction l as [|a l IH]; intros Himp; [done|].
  rewrite !filter_cons.
  assert (length (filter Q l) ≤ length (filter P l))%nat as Hle.
  { apply IH. intros x Hx. apply Himp. by right. }
  destruct (decide (Q a)) as [Hq|Hq].
  - rewrite decide_True by (apply Himp; [by left|done]). simpl. lia.
  - destruct (decide (P a)); simpl; lia.
Qed.

Lemma filter_length_strict (P Q : Func → Prop) `{∀ x, Decision (P x)} `{∀ x, Decision (Q x)}
    (l : list Func) n :
  (∀ x, x ∈ l → Q x → P x) → n ∈ l → P n → ¬ Q n →
  (length (filter Q l) < length (filter P l))%nat.
Proof.
  induction l as [|a l IH]; intros Himp Hn Hp Hq; [by apply elem_of_nil in Hn|].
  rewrite !filter_cons.
  assert (length (filter Q l) ≤ length (filter P l))%nat as Hle.
  { apply filter_length_mono. intros x Hx. apply Himp. by right. }
  apply elem_of_cons in Hn as [<-|Hn].
  - destruct (decide (Q n)); [done|]. destruct (decide (P n)); [|done]. simpl. lia.
  - assert (length (filter Q l) < length (filter P l))%nat as Hlt.
    { apply IH; try done. intros x Hx. apply Himp. by right. }
    destruct (decide (Q a)) as [Hqa|Hqa].
    + rewrite decide_True by (apply Himp; [by left|done]). simpl. lia.
    + destruct (decide (P a)); simpl; lia.
Qed.

Lemma remaining_mono v v' :
  wf_visitor v → wf_visitor v' → extends v v' → (remaining v' ≤ remaining v)%nat.
Proof.
  intros Hw Hw' Hext. apply filter_length_mono. intros x _ Hx.
  destruct (decide (lookupID v x = 0)) as [|Hne]; [done|].
  by apply (visited_extends v v' x Hw Hw' Hext) in Hne.
Qed.

Lemma remaining_enter v n :
  wf_visitor v → lookupID v n = 0 → n ∈ univ →
  (remaining (enter n v).2 < remaining v)%nat.
Proof.
  intros Hw Hz Hu. apply (filter_length_strict _ _ univ n); try done.
  - intros x _. simpl. rewrite lookupID_insert. case_decide; [|done].
    intros Hx. exfalso. pose proof (wf_gen_range v Hw). pose proof (wf_gen_even v Hw).
    rewrite u32_succ_odd in Hx by done. lia.
  - simpl. rewrite lookupID_insert. rewrite decide_True by done.
    pose proof (wf_gen_range v Hw). pose proof (wf_gen_even v Hw).
    rewrite u32_succ_odd by done. lia.
Qed.

Lemma visitNodes_terminates fuel :
  (∀ n v, wf_visitor v → n ∈ univ → (remaining v < fuel)%nat →
     ∃ m v', visit prog fuel n v = Done (m, v')) →
  ∀ body min v,
    wf_visitor v → (∀ f, f ∈ omap callee body → f ∈ univ) → 0 ≤ min < 2 ^ 32 →
    (remaining v < fuel)%nat →
    ∃ min' v', visitNodes (visit prog fuel) body min v = Done (min', v').
Proof.
  intros IH body. induction body as [|nd body IHb]; intros min v Hw Hin Hmin Hrem.
  - simpl. eauto.
  - simpl. simpl in Hin. destruct (callee nd) as [f|] eqn:Hc; [|by apply IHb].
    destruct (IH f v Hw) as (m & v1 & Hv); [apply Hin; by left|done|].
    rewrite Hv.
    destruct (structure_visit f v m v1) as (Hw1 & Hext & _ & Hm & _);
      [by eapply visit_sound|done|apply Hin; by left|].
    apply IHb; [done| | |].
    + intros g Hg. apply Hin. by right.
    + case_bool_decide; lia.
    + pose proof (remaining_mono v v1 Hw Hw1 Hext). lia.
Qed.

Lemma visit_terminates fuel : ∀ n v,
  wf_visitor v → n ∈ univ → (remaining v < fuel)%nat →
  ∃ m v', visit prog fuel n v = Done (m, v').
Proof.
  induction fuel as [|fuel IH]; intros n v Hw Hu Hrem; [lia|].
  simpl. case_bool_decide as Hseen; [eauto|].
  apply (wf_unvisited v n Hw) in Hseen.
  pose proof (wf_enter v n Hw Hseen Hu) as Hw1.
  pose proof (remaining_enter v n Hw Hseen Hu) as Hlt.
  destruct (visitNodes_terminates fuel IH (Body (prog n)) (enter n v).1.2 (enter n v).2)
    as (min' & v2 & Hl); [done| |simpl; apply u32_range|lia|].
  { intros f Hf. by apply (univ_edge n). }
  destruct (structure_loop n (callees prog n) (enter n v).1.2 (enter n v).2 min' v2)
    as (Hw2 & Hext & _);
    [eapply visitNodes_Loop; [apply visit_sound|exact Hl]|done| |simpl; apply u32_range|].
  { intros f Hf. by apply (univ_edge n). }
  simpl in Hl. rewrite Hl.
  destruct Hext as ([seg Hseg] & _). simpl in Hseg. rewrite <- app_assoc in Hseg.
  assert (n ∉ seg) as Hnseg.
  { pose proof (wf_nodup v2 Hw2) as Hnd. apply NoDup_app in Hnd as [Hnd _].
    rewrite Hseg in Hnd. apply NoDup_app in Hnd as (_ & _ & Hnd).
    by apply NoDup_cons in Hnd as [? _]. }
  destruct (closeComponent_spec (IsHiddenClosure (prog n)) n (u32 (visitgen v + 1))
              min' v2 (stack v) seg Hseg Hnseg) as [[_ ->]|[_ (v3 & -> & _)]]; eauto.
Qed.

(** Every declaration listed for [visitBottomUp] lies in the universe. *)
Definition listed_in (nd : Node) : Prop :=
  match nd with DclFunc fn => fn ∈ univ | _ => True end.

#[global] Instance listed_in_dec nd : Decision (listed_in nd).
Proof. destruct nd; simpl; apply _. Defined.

Definition roots_in (list : list Node) : Prop := Forall listed_in list.

Lemma structure_list l : ∀ v v',
  VisitList prog l v v' → wf_visitor v → roots_in l → wf_visitor v' ∧ extends v v'.
Proof.
  intros v v' H. induction H as [v|n rest v v' Hskip _ IH|fn rest v m v1 v' Hh Hv _ IH];
    intros Hw Hr.
  - split; [done|apply extends_refl].
  - apply IH; [done|]. by apply Forall_inv_tail in Hr.
  - pose proof (Forall_inv Hr) as Hfn. simpl in Hfn. apply Forall_inv_tail in Hr.
    destruct (structure_visit fn v m v1 Hv Hw Hfn) as (Hw1 & Hext & _).
    destruct (IH Hw1 Hr) as [Hw' Hext']. split; [done|by eapply extends_trans].
Qed.

(** A function is entered only while it is unvisited: neither on the stack
    nor reported. *)
Lemma entered_mutual :
  (∀ n v k w, Enters prog n v k w →
     wf_visitor v → n ∈ univ → wf_visitor w ∧ lookupID w k = 0 ∧ k ∈ univ) ∧
  (∀ l min v k w, EntersLoop prog l min v k w →
     wf_visitor v → (∀ f, f ∈ l → f ∈ univ) → wf_visitor w ∧ lookupID w k = 0 ∧ k ∈ univ).
Proof.
  apply Enters_mutind.
  - intros n v Hz Hw Hu. split; [done|]. split; [|done]. by apply wf_unvisited.
  - intros n v k w Hz _ IH Hw Hu. apply (wf_unvisited v n Hw) in Hz.
    apply IH; [by apply wf_enter|].
    intros f Hf. by apply (univ_edge n).
  - intros f l min v k w _ IH Hw Hl. apply IH; [done|]. apply Hl. by left.
  - intros f l min v m v1 k w Hvis _ IH Hw Hl.
    destruct (structure_visit f v m v1 Hvis Hw) as (Hw1 & _); [apply Hl; by left|].
    apply IH; [done|]. intros g Hg. apply Hl. by right.
Qed.

Lemma entered_list l : ∀ v k w,
  EntersList prog l v k w → wf_visitor v → roots_in l →
  wf_visitor w ∧ lookupID w k = 0 ∧ k ∈ univ.
Proof.
  intros v k w H. induction H as [fn rest v k w Hh He|n rest v k w Hskip _ IH
                                  |fn rest v m v1 k w Hh Hv _ IH]; intros Hw Hr.
  - pose proof (Forall_inv Hr) as Hfn. simpl in Hfn.
    by apply (proj1 entered_mutual fn v k w).
  - apply IH; [done|]. by apply Forall_inv_tail in Hr.
  - pose proof (Forall_inv Hr) as Hfn. simpl in Hfn. apply Forall_inv_tail in Hr.
    destruct (structure_visit fn v m v1 Hv Hw Hfn) as (Hw1 & _). by apply IH.
Qed.

Lemma visitList_terminates fuel l : ∀ v,
  wf_visitor v → roots_in l → (remaining v < fuel)%nat →
  ∃ v', visitList prog fuel l v = Done v'.
Proof.
  induction l as [|n rest IH]; intros v Hw Hr Hrem; simpl; [eauto|].
  pose proof (Forall_inv Hr) as Hn. pose proof (Forall_inv_tail Hr) as Hr'.
  destruct n; try by apply IH.
  destruct (IsHiddenClosure (prog fn)); [by apply IH|].
  simpl in Hn. destruct (visit_terminates fuel fn v Hw Hn Hrem) as (m & v1 & Hv).
  rewrite Hv.
  destruct (structure_visit fn v m v1) as (Hw1 & Hext & _);
    [by eapply visit_sound|done|done|].
  apply IH; [done|done|]. pose proof (remaining_mono v v1 Hw Hw1 Hext). lia.
Qed.

Lemma remaining_le v : (remaining v ≤ length univ)%nat.
Proof. unfold remaining. apply length_filter. Qed.

(** ** What a traversal visits, and where hidden closures end up *)

(** A traversal visits only what its starting points reach. *)
Lemma reached_mutual :
  (∀ n v m v', Visit prog n v m v' →
     wf_visitor v → n ∈ univ →
     ∀ u, lookupID v' u ≠ 0 → lookupID v u ≠ 0 ∨ rtc (edge prog) n u) ∧
  (∀ x l min v min' v', Loop prog x l min v min' v' →
     wf_visitor v → (∀ f, f ∈ l → f ∈ univ) → 0 ≤ min < 2 ^ 32 →
     ∀ u, lookupID v' u ≠ 0 → lookupID v u ≠ 0 ∨ ∃ f, f ∈ l ∧ rtc (edge prog) f u).
Proof.
  apply Visit_Loop_mutind.
  - intros n v Hpos Hw Hu u Hv. by left.
  - intros n v min' v2 v3 Hz Hloop IH Hc Hw Hu u Hv.
    apply (wf_unvisited v n Hw) in Hz.
    pose proof (wf_enter v n Hw Hz Hu) as Hw1.
    assert (∀ f, f ∈ callees prog n → f ∈ univ) as Hcs.
    { intros f Hf. by apply (univ_edge n). }
    destruct (structure_loop n _ _ _ _ _ Hloop Hw1 Hcs) as (Hw2 & Hext & _);
      [apply u32_range|].
    destruct Hext as ([seg Hseg] & _). simpl in Hseg.
    rewrite <- app_assoc in Hseg. simpl in Hseg.
    assert (NoDup (stack v2)) as Hnd2.
    { pose proof (wf_nodup v2 Hw2) as Hnd. by apply NoDup_app in Hnd as [? _]. }
    pose proof (close_cases v2 v3 n _ min' (stack v) seg Hnd2 Hseg Hc) as Hcl.
    assert (lookupID v2 u ≠ 0) as Hv2.
    { destruct Hcl as [[_ ->]|(_ & _ & _ & _ & Hlk)]; [done|].
      rewrite Hlk in Hv. destruct (decide (u ∈ n :: seg)) as [Hin|]; [|done].
      apply (wf_visited v2 Hw2). rewrite Hseg. apply elem_of_app. left.
      apply elem_of_app. by right. }
    destruct (IH Hw1 Hcs) with (u := u) as [Hv1|(f & Hf & Hp)]; [apply u32_range|done| |].
    + simpl in Hv1. rewrite lookupID_insert in Hv1.
      destruct (decide (u = n)) as [->|]; [right; apply rtc_refl|by left].
    + right. by eapply rtc_l.
  - intros x min v Hw _ _ u Hv. by left.
  - intros x f l min v m v1 min' v2 Hvis IHv Hloop IHl Hw Hl Hmin u Hv.
    assert (f ∈ univ) as Hfu by (apply Hl; by left).
    destruct (structure_visit f v m v1 Hvis Hw Hfu) as (Hw1 & _ & _ & Hm & _).
    destruct (IHl Hw1) with (u := u) as [Hv1|(g & Hg & Hp)]; try done.
    + intros g Hg. apply Hl. by right.
    + case_min Hlt; lia.
    + destruct (IHv Hw Hfu u Hv1) as [?|Hp]; [by left|].
      right. exists f. split; [by left|done].
    + right. exists g. split; [by right|done].
Qed.

(** A hidden closure on the stack comes with a function of the stack that
    refers to it; a reported one, with such a function in its report. *)
Definition stack_held (v : bottomUpVisitor) : Prop :=
  ∀ c, c ∈ stack v → hidden prog c = true → ∃ a, a ∈ stack v ∧ edge prog a c.

Definition reports_held (v : bottomUpVisitor) : Prop :=
  ∀ B r, (B, r) ∈ analyzed v →
    ∀ c, c ∈ B → hidden prog c = true → ∃ a, a ∈ B ∧ edge prog a c.

Definition seg_held (x : Func) (segs : list Func) : Prop :=
  ∀ c, c ∈ segs → hidden prog c = true → ∃ a, a ∈ x :: segs ∧ edge prog a c.

Lemma held_mutual :
  (∀ n v m v', Visit prog n v m v' →
     wf_visitor v → n ∈ univ → stack_held v → reports_held v →
     (hidden prog n = true → ∃ a, a ∈ stack v ∧ edge prog a n) →
     stack_held v' ∧ reports_held v' ∧
     ∀ t, stack v' = stack v ++ n :: t → seg_held n t) ∧
  (∀ x l min v min' v', Loop prog x l min v min' v' →
     wf_visitor v → (∀ f, f ∈ l → edge prog x f) → 0 ≤ min < 2 ^ 32 →
     ∀ s0 segs, stack v = s0 ++ x :: segs →
     stack_held v → reports_held v → seg_held x segs →
     stack_held v' ∧ reports_held v' ∧
     ∀ segs', stack v' = s0 ++ x :: segs' → seg_held x segs').
Proof.
  apply Visit_Loop_mutind.
  - intros n v Hpos Hw Hu Hsh Hrh Hh. split; [done|]. split; [done|].
    intros t Ht. exfalso. apply (f_equal length) in Ht.
    rewrite length_app in Ht. simpl in Ht. lia.
  - intros n v min' v2 v3 Hz Hloop IH Hc Hw Hu Hsh Hrh Hh.
    apply (wf_unvisited v n Hw) in Hz.
    pose proof (wf_enter v n Hw Hz Hu) as Hw1.
    assert (∀ f, f ∈ callees prog n → f ∈ univ) as Hcs.
    { intros f Hf. by apply (univ_edge n). }
    destruct (structure_loop n _ _ _ _ _ Hloop Hw1 Hcs) as (Hw2 & Hext & _);
      [apply u32_range|].
    destruct Hext as ([seg Hseg] & _). simpl in Hseg.
    rewrite <- app_assoc in Hseg. simpl in Hseg.
    destruct (IH Hw1) with (s0 := stack v) (segs := @nil Func)
      as (Hsh2 & Hrh2 & Hfin); try done.
    { apply u32_range. }
    { intros c. simpl. intros [Hcs'|Hcn%list_elem_of_singleton]%elem_of_app Hhc.
      - destruct (Hsh c Hcs' Hhc) as (a & Ha & Hac).
        exists a. split; [apply elem_of_app; by left|done].
      - subst c. destruct (Hh Hhc) as (a & Ha & Hac).
        exists a. split; [apply elem_of_app; by left|done]. }
    { by intros c ?%elem_of_nil. }
    specialize (Hfin seg Hseg).
    assert (NoDup (stack v2)) as Hnd2.
    { pose proof (wf_nodup v2 Hw2) as Hnd. by apply NoDup_app in Hnd as [? _]. }
    pose proof (close_cases v2 v3 n _ min' (stack v) seg Hnd2 Hseg Hc) as Hcl.
    destruct Hcl as [[_ ->]|(Hr & _ & Hst & Han & _)].
    + split; [done|]. split; [done|]. intros t Ht. rewrite Hseg in Ht.
      apply app_inv_head in Ht. by inversion Ht; subst.
    + split; [unfold stack_held; by rewrite Hst|]. split.
      * intros B r. rewrite Han. intros [HB|HB%list_elem_of_singleton]%elem_of_app.
        -- exact (Hrh2 B r HB).
        -- inversion HB; subst B r. clear HB.
           unfold isRoot in Hr. apply andb_true_iff in Hr as [_ Hr].
           apply negb_true_iff in Hr.
           intros c [->|Hcseg]%elem_of_cons Hhc; [congruence|].
           by apply Hfin.
      * intros t Ht. exfalso. rewrite Hst in Ht. apply (f_equal length) in Ht.
        rewrite length_app in Ht. simpl in Ht. lia.
  - intros x min v Hw _ _ s0 segs Hs Hsh Hrh Hseg. split; [done|]. split; [done|].
    intros segs' Hs'. rewrite Hs in Hs'. apply app_inv_head in Hs'. by inversion Hs'; subst.
  - intros x f l min v m v1 min' v2 Hvis IHv Hloop IHl Hw Hl Hmin s0 segs Hs Hsh Hrh Hsegs.
    assert (x ∈ stack v) as Hxs by (rewrite Hs; apply elem_of_app; right; by left).
    assert (x ∈ univ) as Hxu.
    { apply (wf_univ v Hw). apply elem_of_app. by left. }
    assert (edge prog x f) as Hxf by (apply Hl; by left).
    assert (f ∈ univ) as Hfu by (by apply (univ_edge x)).
    destruct (structure_visit f v m v1 Hvis Hw Hfu) as (Hw1 & Hext & _ & Hm & Hshape).
    destruct (IHv Hw Hfu Hsh Hrh) as (Hsh1 & Hrh1 & Hsegf).
    { intros _. by exists x. }
    destruct Hext as ([seg Hseg] & _).
    destruct (IHl Hw1) with (s0 := s0) (segs := segs ++ seg) as (Hsh2 & Hrh2 & Hfin);
      try done.
    + intros g Hg. apply Hl. by right.
    + case_min Hlt; lia.
    + rewrite Hseg, Hs. by rewrite <- app_assoc.
    + intros c [Hc|Hc]%elem_of_app Hhc.
      * destruct (Hsegs c Hc Hhc) as (a & Ha & Hac). exists a. split; [|done].
        apply elem_of_cons in Ha as [->|Ha]; [by left|right]. apply elem_of_app. by left.
      * destruct Hshape as [Hst|(t & Hst)].
        -- rewrite Hseg in Hst. rewrite <- (app_nil_r (stack v)) in Hst at 2.
           apply app_inv_head in Hst. subst seg. by apply elem_of_nil in Hc.
        -- pose proof (Hsegf t Hst) as Hheld. rewrite Hseg in Hst.
           apply app_inv_head in Hst. subst seg.
           apply elem_of_cons in Hc as [->|Hct].
           ++ exists x. split; [by left|done].
           ++ destruct (Hheld c Hct Hhc) as (a & Ha & Hac). exists a. split; [|done].
              right. apply elem_of_app. by right.
Qed.


(** The targets of a function that is reported, or that has returned and is
    still on the stack, have all been visited. *)
Definition explored (v : bottomUpVisitor) : Prop :=
  ∀ y, y ∈ emitted v → ∀ z, edge prog y z → lookupID v z ≠ 0.

Definition seg_explored (v : bottomUpVisitor) (segs : list Func) : Prop :=
  ∀ y, y ∈ segs → ∀ z, edge prog y z → lookupID v z ≠ 0.

Lemma seg_explored_extends v v' segs :
  wf_visitor v → wf_visitor v' → extends v v' → seg_explored v segs → seg_explored v' segs.
Proof.
  intros Hw Hw' Hext He y Hy z Hz. apply (visited_extends v v' z Hw Hw' Hext). by apply (He y).
Qed.

Lemma explored_mutual :
  (∀ n v m v', Visit prog n v m v' →
     wf_visitor v → n ∈ univ → explored v →
     explored v' ∧ ∀ t, stack v' = stack v ++ n :: t → seg_explored v' (n :: t)) ∧
  (∀ x l min v min' v', Loop prog x l min v min' v' →
     wf_visitor v → (∀ f, f ∈ l → edge prog x f) → 0 ≤ min < 2 ^ 32 →
     ∀ s0 segs, stack v = s0 ++ x :: segs →
     explored v → seg_explored v segs →
     (∀ z, edge prog x z → z ∈ l ∨ lookupID v z ≠ 0) →
     explored v' ∧ ∀ segs', stack v' = s0 ++ x :: segs' → seg_explored v' (x :: segs')).
Proof.
  apply Visit_Loop_mutind.
  - intros n v Hpos Hw Hu He. split; [done|].
    intros t Ht. exfalso. apply (f_equal length) in Ht.
    rewrite length_app in Ht. simpl in Ht. lia.
  - intros n v min' v2 v3 Hz Hloop IH Hc Hw Hu He.
    apply (wf_unvisited v n Hw) in Hz.
    pose proof (wf_enter v n Hw Hz Hu) as Hw1.
    assert (∀ f, f ∈ callees prog n → f ∈ univ) as Hcs.
    { intros f Hf. by apply (univ_edge n). }
    destruct (structure_loop n _ _ _ _ _ Hloop Hw1 Hcs) as (Hw2 & Hext & _);
      [apply u32_range|].
    destruct Hext as ([seg Hseg] & _). simpl in Hseg.
    rewrite <- app_assoc in Hseg. simpl in Hseg.
    destruct (IH Hw1) with (s0 := stack v) (segs := @nil Func) as (He2 & Hfin); try done.
    { apply u32_range. }
    { intros y Hy z Hyz. simpl. rewrite lookupID_insert. case_decide as Hzn.
      - pose proof (wf_gen_range v Hw). pose proof (wf_gen_even v Hw).
        rewrite u32_succ_odd by done. lia.
      - by apply (He y). }
    { by intros y ?%elem_of_nil. }
    { intros z Hzn. by left. }
    specialize (Hfin seg Hseg).
    assert (NoDup (stack v2)) as Hnd2.
    { pose proof (wf_nodup v2 Hw2) as Hnd. by apply NoDup_app in Hnd as [? _]. }
    pose proof (close_cases v2 v3 n _ min' (stack v) seg Hnd2 Hseg Hc) as Hcl.
    pose proof (wf_close v2 v3 n _ min' (stack v) seg Hw2 Hseg Hcl) as Hw3.
    destruct Hcl as [[_ ->]|(Hr & _ & Hst & Han & Hlk)].
    + split; [done|]. intros t Ht. rewrite Hseg in Ht.
      apply app_inv_head in Ht. by inversion Ht; subst.
    + assert (∀ z, lookupID v2 z ≠ 0 → lookupID v3 z ≠ 0) as Hmono.
      { intros z Hz2. rewrite Hlk. destruct (decide (z ∈ n :: seg)); [pow_lia|done]. }
      split.
      * intros y. unfold emitted. rewrite Han, emitted_app. simpl. rewrite app_nil_r.
        intros [Hy|Hy]%elem_of_app z Hyz; apply Hmono.
        -- by apply (He2 y).
        -- by apply (Hfin y).
      * intros t Ht. exfalso. rewrite Hst in Ht. apply (f_equal length) in Ht.
        rewrite length_app in Ht. simpl in Ht. lia.
  - intros x min v Hw _ _ s0 segs Hs He Hsegs Hx. split; [done|].
    intros segs' Hs'. rewrite Hs in Hs'. apply app_inv_head in Hs'. inversion Hs'; subst segs'.
    intros y [->|Hy]%elem_of_cons z Hyz; [|by apply (Hsegs y)].
    destruct (Hx z Hyz) as [?%elem_of_nil|]; done.
  - intros x f l min v m v1 min' v2 Hvis IHv Hloop IHl Hw Hl Hmin s0 segs Hs He Hsegs Hx.
    assert (x ∈ stack v) as Hxs by (rewrite Hs; apply elem_of_app; right; by left).
    assert (x ∈ univ) as Hxu.
    { apply (wf_univ v Hw). apply elem_of_app. by left. }
    assert (edge prog x f) as Hxf by (apply Hl; by left).
    assert (f ∈ univ) as Hfu by (by apply (univ_edge x)).
    destruct (structure_visit f v m v1 Hvis Hw Hfu) as (Hw1 & Hext & Hfv & Hm & Hshape).
    destruct (IHv Hw Hfu He) as (He1 & Hsegf).
    pose proof Hext as ([seg Hseg] & _).
    destruct (IHl Hw1) with (s0 := s0) (segs := segs ++ seg) as (He2 & Hfin); try done.
    + intros g Hg. apply Hl. by right.
    + case_min Hlt; lia.
    + rewrite Hseg, Hs. by rewrite <- app_assoc.
    + intros y [Hy|Hy]%elem_of_app.
      * by apply (seg_explored_extends v v1 segs Hw Hw1 Hext Hsegs).
      * destruct Hshape as [Hst|(t & Hst)].
        -- rewrite Hseg in Hst. rewrite <- (app_nil_r (stack v)) in Hst at 2.
           apply app_inv_head in Hst. subst seg. by apply elem_of_nil in Hy.
        -- pose proof (Hsegf t Hst) as Hex. rewrite Hseg in Hst.
           apply app_inv_head in Hst. subst seg. by apply Hex.
    + intros z Hz. destruct (Hx z Hz) as [[->|Hzl]%elem_of_cons|Hz0].
      * by right.
      * by left.
      * right. by apply (visited_extends v v1 z Hw Hw1 Hext).
Qed.

(** ** A whole run *)

(** The starting points of the traversal: the listed declarations that are
    not hidden closures. *)
Definition root (list : list Node) (r : Func) : Prop :=
  DclFunc r ∈ list ∧ hidden prog r = false.

Lemma roots_in_lookup l fn : roots_in l → DclFunc fn ∈ l → fn ∈ univ.
Proof.
  intros Hr Hin. unfold roots_in in Hr. rewrite Forall_forall in Hr. by apply (Hr _ Hin).
Qed.

Lemma list_structure l : ∀ v v',
  VisitList prog l v v' → wf_visitor v → roots_in l →
  stack_held v → reports_held v → explored v →
  wf_visitor v' ∧ extends v v' ∧ stack_held v' ∧ reports_held v' ∧ explored v' ∧
  (∀ r, root l r → lookupID v' r ≠ 0) ∧
  (∀ u, lookupID v' u ≠ 0 → lookupID v u ≠ 0 ∨ ∃ r, root l r ∧ rtc (edge prog) r u).
Proof.
  intros v v' H. induction H as [v|n rest v v' Hskip _ IH|fn rest v m v1 v' Hh Hv Hrest IH];
    intros Hw Hr Hsh Hrh He.
  - split; [done|]. split; [apply extends_refl|]. do 3 (split; [done|]). split.
    + by intros r [?%elem_of_nil _].
    + intros u Hu. by left.
  - destruct IH as (Hw' & Hext & Hsh' & Hrh' & He' & Hvis & Hreach); try done.
    { by apply Forall_inv_tail in Hr. }
    do 5 (split; [done|]). split.
    + intros r [[Heq|Hin]%elem_of_cons Hhr]; [|by apply Hvis].
      symmetry in Heq. specialize (Hskip r Heq). congruence.
    + intros u Hu. destruct (Hreach u Hu) as [?|(r & [Hin Hhr] & Hp)]; [by left|right].
      exists r. split; [|done]. split; [by right|done].
  - pose proof (Forall_inv Hr) as Hfn. simpl in Hfn. pose proof (Forall_inv_tail Hr) as Hr'.
    destruct (structure_visit fn v m v1 Hv Hw Hfn) as (Hw1 & Hext & Hfv & _).
    destruct (proj1 held_mutual fn v m v1 Hv Hw Hfn Hsh Hrh) as (Hsh1 & Hrh1 & _);
      [congruence|].
    destruct (proj1 explored_mutual fn v m v1 Hv Hw Hfn He) as (He1 & _).
    destruct (IH Hw1 Hr' Hsh1 Hrh1 He1) as (Hw' & Hext' & Hsh' & Hrh' & He' & Hvis & Hreach).
    split; [done|]. split; [by eapply extends_trans|]. do 3 (split; [done|]). split.
    + intros r [[Heq|Hin]%elem_of_cons Hhr]; [|by apply Hvis].
      inversion Heq; subst r. by apply (visited_extends v1 v').
    + intros u Hu. destruct (Hreach u Hu) as [Hu1|(r & [Hin Hhr] & Hp)].
      * destruct (proj1 reached_mutual fn v m v1 Hv Hw Hfn u Hu1) as [?|Hp]; [by left|].
        right. exists fn. split; [|done]. split; [by left|done].
      * right. exists r. split; [|done]. split; [by right|done].
Qed.


End Structure.

(** ** Ordinals on the stack *)

(** The ordinals of the functions on a stack grow from its bottom to its top. *)
Definition increasing (f : Func → Z) (s : list Func) : Prop :=
  ∀ s1 a s2, s = s1 ++ a :: s2 → ∀ b, b ∈ s2 → f a < f b.

Lemma increasing_nil f : increasing f [].
Proof. intros s1 a s2 H. by destruct s1. Qed.

Lemma increasing_ext f g s :
  (∀ u, u ∈ s → f u = g u) → increasing f s → increasing g s.
Proof.
  intros Heq Hinc s1 a s2 -> b Hb.
  rewrite <- !Heq; [by eapply Hinc| |].
  - apply elem_of_app. right. by right.
  - apply elem_of_app. right. by left.
Qed.

Lemma increasing_app_l f s t : increasing f (s ++ t) → increasing f s.
Proof.
  intros Hinc s1 a s2 -> b Hb.
  apply (Hinc s1 a (s2 ++ t)); [by rewrite <- app_assoc|].
  apply elem_of_app. by left.
Qed.

Lemma increasing_snoc f s b :
  increasing f s → (∀ a, a ∈ s → f a < f b) → increasing f (s ++ [b]).
Proof.
  intros Hinc Hb s1 a s2 Heq c Hc.
  destruct s2 as [|d s2 _] using rev_ind; [by apply elem_of_nil in Hc|].
  rewrite app_comm_cons, app_assoc in Heq.
  apply app_inj_tail in Heq as [-> ->].
  apply elem_of_app in Hc as [Hc|Hc%list_elem_of_singleton].
  - by apply (Hinc s1 a s2).
  - subst c. apply Hb. apply elem_of_app. right. by left.
Qed.

Lemma increasing_below f s0 x t z :
  increasing f (s0 ++ x :: t) → z ∈ s0 → f z < f x.
Proof.
  intros Hinc Hz. apply list_elem_of_split in Hz as (s1 & s2 & ->).
  apply (Hinc s1 z (s2 ++ x :: t)); [by rewrite <- app_assoc|].
  apply elem_of_app. right. by left.
Qed.

Lemma increasing_above f s0 x t z :
  increasing f (s0 ++ x :: t) → z ∈ t → f x < f z.
Proof. intros Hinc Hz. by apply (Hinc s0 x t). Qed.

(** On a stack [s0 ++ x :: t], an ordinal not above that of [x] belongs to
    [x] or to an entry below it. *)
Lemma increasing_not_above f s0 x t z :
  increasing f (s0 ++ x :: t) → z ∈ s0 ++ x :: t → f z ≤ f x → z = x ∨ z ∈ s0.
Proof.
  intros Hinc [Hz|[->|Hz]%elem_of_cons]%elem_of_app Hle; [by right|by left|].
  pose proof (increasing_above f s0 x t z Hinc Hz). lia.
Qed.

Lemma increasing_inj f s a b :
  increasing f s → a ∈ s → b ∈ s → f a = f b → a = b.
Proof.
  intros Hinc Ha Hb Heq. apply list_elem_of_split in Ha as (s1 & s2 & ->).
  destruct (increasing_not_above f s1 a s2 b Hinc Hb) as [->|Hb1]; [lia|done|].
  pose proof (increasing_below f s1 a s2 b Hinc Hb1). lia.
Qed.

(** ** The traversal while the counter does not wrap around

    With fewer than [2^31] declarations the counter stays below [2^32 - 2]:
    ordinals are issued in increasing order and lie below the sentinel. *)

Section Bounded.

Variable prog : Program.
Variable univ : list Func.
Hypothesis univ_closed : closed_universe prog univ.
Hypothesis univ_small : Z.of_nat (length univ) < 2 ^ 31.

Record ok_visitor (v : bottomUpVisitor) : Prop := {
  ok_wf : wf_visitor prog univ v;
  ok_gen : visitgen v = 2 * Z.of_nat (length (stack v ++ emitted v));
  ok_stack : ∀ n, n ∈ stack v → 0 < lookupID v n < visitgen v;
  ok_sorted : increasing (lookupID v) (stack v)
}.

Lemma visited_count v :
  wf_visitor prog univ v → (length (stack v ++ emitted v) ≤ length univ)%nat.
Proof.
  intros Hw. apply submseteq_length. apply NoDup_submseteq; [apply (wf_nodup _ _ v Hw)|].
  apply (wf_univ _ _ v Hw).
Qed.

Lemma visited_count_fresh v n :
  wf_visitor prog univ v → lookupID v n = 0 → n ∈ univ →
  (length (stack v ++ emitted v) < length univ)%nat.
Proof.
  intros Hw Hz Hu.
  assert (length (n :: stack v ++ emitted v) ≤ length univ)%nat as Hle; [|simpl in Hle; lia].
  apply submseteq_length. apply NoDup_submseteq.
  - constructor; [|apply (wf_nodup _ _ v Hw)].
    intros Hin. by apply (wf_visited _ _ v Hw) in Hin.
  - intros u [->|Hin]%elem_of_cons; [done|]. by apply (wf_univ _ _ v Hw).
Qed.

Lemma ok_gen_bound v : ok_visitor v → 0 ≤ visitgen v < sentinel.
Proof.
  intros Hok. rewrite (ok_gen v Hok).
  pose proof (visited_count v (ok_wf v Hok)). pow_lia.
Qed.

Lemma enter_small v n :
  ok_visitor v → lookupID v n = 0 → n ∈ univ →
  visitgen v + 2 < sentinel ∧
  enter n v = (visitgen v + 1, visitgen v + 2,
               {| visitgen := visitgen v + 2;
                  nodeID := <[n := visitgen v + 1]> (nodeID v);
                  stack := stack v ++ [n];
                  analyzed := analyzed v |}).
Proof.
  intros Hok Hz Hu.
  pose proof (visited_count_fresh v n (ok_wf v Hok) Hz Hu) as Hc.
  pose proof (ok_gen v Hok) as Hg.
  assert (0 ≤ visitgen v ∧ visitgen v + 2 < sentinel) as [H0 Hlt] by pow_lia.
  split; [done|]. unfold enter.
  rewrite (u32_small (visitgen v + 1)) by pow_lia.
  rewrite (u32_small (visitgen v + 1 + 1)) by pow_lia.
  by replace (visitgen v + 1 + 1) with (visitgen v + 2) by lia.
Qed.

Lemma ok_enter v n :
  ok_visitor v → lookupID v n = 0 → n ∈ univ → ok_visitor (enter n v).2.
Proof.
  intros Hok Hz Hu. pose proof (wf_enter prog univ v n (ok_wf v Hok) Hz Hu) as Hw1.
  destruct (enter_small v n Hok Hz Hu) as [Hlt He]. rewrite He in *. simpl in *.
  split; simpl.
  - done.
  - unfold emitted; simpl. fold (emitted v). rewrite (ok_gen v Hok).
    rewrite !length_app. simpl. lia.
  - intros u [Hus|Heq%list_elem_of_singleton]%elem_of_app; rewrite lookupID_insert.
    + case_decide; [pose proof (ok_gen_bound v Hok); lia|].
      pose proof (ok_stack v Hok u Hus). lia.
    + rewrite decide_True by done. pose proof (ok_gen_bound v Hok). lia.
  - apply increasing_snoc.
    + apply (increasing_ext (lookupID v)); [|apply (ok_sorted v Hok)].
      intros u Hus. rewrite lookupID_insert. case_decide; [|done]. subst u.
      pose proof (ok_stack v Hok n Hus). lia.
    + intros a Ha. rewrite !lookupID_insert. rewrite (decide_True (P := n = n)) by done.
      pose proof (ok_stack v Hok a Ha). case_decide; [subst a|]; lia.
Qed.

Lemma ok_close v2 v3 n id m s0 t :
  ok_visitor v2 → stack v2 = s0 ++ n :: t →
  closed_as prog n id m s0 t v2 v3 → ok_visitor v3.
Proof.
  intros Hok Hs Hcl.
  pose proof (wf_close prog univ v2 v3 n id m s0 t (ok_wf v2 Hok) Hs Hcl) as Hw3.
  destruct Hcl as [[_ ->]|(Hr & Hg & Hst & Han & Hlk)]; [done|].
  assert (emitted v3 = emitted v2 ++ n :: t) as Hem.
  { unfold emitted. rewrite Han, emitted_app. simpl. by rewrite app_nil_r. }
  assert (∀ u, u ∈ s0 → lookupID v3 u = lookupID v2 u) as Hkeep.
  { intros u Hu. rewrite Hlk. rewrite decide_False; [done|].
    intros Hin. pose proof (wf_nodup _ _ v2 (ok_wf v2 Hok)) as Hnd.
    apply NoDup_app in Hnd as [Hnd _]. rewrite Hs in Hnd.
    apply NoDup_app in Hnd as (_ & Hd & _). by apply (Hd u). }
  split.
  - done.
  - rewrite Hg, (ok_gen v2 Hok), Hem, Hst, Hs. rewrite !length_app. simpl.
    rewrite ?length_app. simpl. lia.
  - intros u Hu. rewrite Hst in Hu. rewrite Hg, Hkeep by done.
    apply (ok_stack v2 Hok). rewrite Hs. apply elem_of_app. by left.
  - rewrite Hst. apply (increasing_ext (lookupID v2)); [intros u Hu; by rewrite Hkeep|].
    apply (increasing_app_l _ s0 (n :: t)). rewrite <- Hs. apply (ok_sorted v2 Hok).
Qed.

(** The ordinals of the functions visited before a traversal are kept by it. *)
Lemma ids_kept v v' u :
  wf_visitor prog univ v → wf_visitor prog univ v' → extends v v' →
  lookupID v u ≠ 0 → lookupID v' u = lookupID v u.
Proof.
  intros Hw Hw' Hext Hu. apply (wf_visited _ _ v Hw) in Hu.
  apply elem_of_app in Hu as [Hu|Hu].
  - destruct Hext as (_ & _ & Hk). by apply Hk.
  - rewrite (wf_emitted _ _ v Hw u Hu).
    apply (wf_emitted _ _ v' Hw'). by apply (emitted_extends v v').
Qed.

(** The test of line 122, without wrap-around. *)
Lemma isRoot_small h id m :
  0 ≤ id → id + 1 < 2 ^ 32 →
  isRoot h id m = true ↔ (m = id ∨ m = id + 1) ∧ h = false.
Proof.
  intros H0 H1. unfold isRoot. rewrite (u32_small (id + 1)) by lia.
  rewrite andb_true_iff, orb_true_iff, !bool_decide_eq_true, negb_true_iff. done.
Qed.

(** What the value returned for a function with ordinal [id] can be: the
    seed [id + 1], [id] itself, or the ordinal of an entry of the stack [s0]
    below the function. *)
Definition low_link (id : Z) (s0 : list Func) (v : bottomUpVisitor) (m : Z) : Prop :=
  m = id + 1 ∨ m = id ∨ ∃ z, z ∈ s0 ∧ m = lookupID v z.

Lemma low_link_ext id s0 v v' m :
  (∀ z, z ∈ s0 → lookupID v' z = lookupID v z) → low_link id s0 v m → low_link id s0 v' m.
Proof.
  intros Heq [?|[?|(z & Hz & ?)]]; [by left|by right; left|].
  right; right. exists z. split; [done|]. by rewrite Heq.
Qed.

Lemma low_link_bounds x s0 segs v m :
  ok_visitor v → stack v = s0 ++ x :: segs → low_link (lookupID v x) s0 v m →
  0 < m ≤ lookupID v x + 1.
Proof.
  intros Hok Hs Hl.
  assert (0 < lookupID v x) as Hx.
  { apply (ok_stack v Hok). rewrite Hs. apply elem_of_app. right. by left. }
  destruct Hl as [->|[->|(z & Hz & ->)]]; [lia|lia|].
  pose proof (ok_sorted v Hok) as Hinc. rewrite Hs in Hinc.
  pose proof (increasing_below _ s0 x segs z Hinc Hz).
  assert (0 < lookupID v z); [|lia].
  apply (ok_stack v Hok). rewrite Hs. apply elem_of_app. by left.
Qed.

(** Pass 2: the shape of the values [visit] returns. *)
Definition visit_numeric (n : Func) (v : bottomUpVisitor) (m : Z) (v' : bottomUpVisitor) : Prop :=
  ok_visitor v' ∧
  (0 < lookupID v n → m = lookupID v n ∧ v' = v) ∧
  (lookupID v n = 0 →
     low_link (visitgen v + 1) (stack v) v m ∧
     ((stack v' = stack v ∧ hidden prog n = false ∧ visitgen v + 1 ≤ m ∧
       lookupID v' n = sentinel ∧
       ∃ a t, analyzed v' = a ++ [(n :: t, bool_decide (m = visitgen v + 1))]) ∨
      (∃ t, stack v' = stack v ++ n :: t ∧ lookupID v' n = visitgen v + 1 ∧
            (hidden prog n = true ∨ m < visitgen v + 1)))).

Lemma numeric_mutual :
  (∀ n v m v', Visit prog n v m v' →
     ok_visitor v → n ∈ univ → visit_numeric n v m v') ∧
  (∀ x l min v min' v', Loop prog x l min v min' v' →
     ok_visitor v → (∀ f, f ∈ l → f ∈ univ) →
     ∀ s0 segs, stack v = s0 ++ x :: segs → low_link (lookupID v x) s0 v min →
     ok_visitor v' ∧ low_link (lookupID v x) s0 v min').
Proof.
  apply Visit_Loop_mutind.
  - (* already visited *)
    intros n v Hpos Hok Hu. split; [done|]. split; [done|]. lia.
  - (* first visit *)
    intros n v min' v2 v3 Hz Hloop IH Hc Hok Hu.
    pose proof (ok_wf v Hok) as Hw.
    apply (wf_unvisited prog univ v n Hw) in Hz.
    pose proof (ok_enter v n Hok Hz Hu) as Hok1.
    destruct (enter_small v n Hok Hz Hu) as [Hlt He].
    pose proof (ok_gen_bound v Hok) as Hgb.
    assert (∀ f, f ∈ callees prog n → f ∈ univ) as Hcs.
    { intros f Hf. by apply (univ_edge prog univ univ_closed n). }
    destruct (structure_loop prog univ univ_closed n _ _ _ _ _ Hloop) as (Hw2 & Hext & _);
      [apply (ok_wf _ Hok1)|done|apply u32_range|].
    rewrite He in *. simpl in *.
    assert (∀ z, z ∈ stack v → z ≠ n) as Hne.
    { intros z Hzs ->. pose proof (ok_stack v Hok n Hzs). lia. }
    destruct (IH Hok1 Hcs (stack v) []) as [Hok2 Hlow]; [done| |].
    { rewrite lookupID_insert, decide_True by done. left. lia. }
    rewrite lookupID_insert, decide_True in Hlow by done.
    assert (low_link (visitgen v + 1) (stack v) v min') as Hlow'.
    { eapply low_link_ext; [|exact Hlow]. intros z Hzs. simpl.
      rewrite lookupID_insert. rewrite decide_False; [done|by apply Hne]. }
    destruct Hext as ([seg Hseg] & _ & Hkeep). simpl in Hseg, Hkeep.
    rewrite <- app_assoc in Hseg. simpl in Hseg.
    assert (lookupID v2 n = visitgen v + 1) as Hidn.
    { rewrite Hkeep by (apply elem_of_app; right; by left).
      by rewrite lookupID_insert, decide_True. }
    assert (0 < min' ≤ visitgen v + 2) as Hmb.
    { destruct Hlow' as [->|[->|(z & Hzs & ->)]]; [lia|lia|].
      pose proof (ok_stack v Hok z Hzs). lia. }
    assert (NoDup (stack v2)) as Hnd2.
    { pose proof (wf_nodup _ _ v2 Hw2) as Hnd. by apply NoDup_app in Hnd as [? _]. }
    pose proof (close_cases prog v2 v3 n _ min' (stack v) seg Hnd2 Hseg Hc) as Hcl.
    pose proof (ok_close v2 v3 n _ min' (stack v) seg Hok2 Hseg Hcl) as Hok3.
    split; [done|]. split; [lia|]. intros _. split; [done|].
    destruct Hcl as [[Hr ->]|(Hr & Hg & Hst & Han & Hlk)].
    + right. exists seg. split; [done|]. split; [done|].
      destruct (hidden prog n) eqn:Hh; [by left|right].
      destruct (decide (min' < visitgen v + 1)) as [|Hge]; [done|].
      assert (isRoot false (visitgen v + 1) min' = true) as Hr'; [|congruence].
      apply isRoot_small; [lia|pow_lia|]. split; [lia|done].
    + left. apply isRoot_small in Hr as [Hm Hh]; [|lia|pow_lia].
      split; [done|]. split; [done|]. split; [lia|]. split.
      * rewrite Hlk. by rewrite decide_True by (by left).
      * by exists (analyzed v2), seg.
  - (* end of the loop *)
    intros x min v Hok _ s0 segs Hs Hlow. done.
  - (* one target, then the rest *)
    intros x f l min v m v1 min' v2 Hvis IHv Hloop IHl Hok Hl s0 segs Hs Hlow.
    pose proof (ok_wf v Hok) as Hw.
    assert (f ∈ univ) as Hfu by (apply Hl; by left).
    destruct (IHv Hok Hfu) as (Hok1 & Hseen & Hnew).
    destruct (structure_visit prog univ univ_closed f v m v1 Hvis Hw Hfu)
      as (Hw1 & Hext & Hfv & Hm & _).
    pose proof (low_link_bounds x s0 segs v min Hok Hs Hlow) as Hminb.
    pose proof (ok_gen_bound v Hok) as Hgb.
    assert (x ∈ stack v) as Hxs by (rewrite Hs; apply elem_of_app; right; by left).
    pose proof (ok_stack v Hok x Hxs) as Hxb.
    assert (∀ z, z ∈ stack v → lookupID v1 z = lookupID v z) as Hkeep.
    { by destruct Hext as (_ & _ & Hk). }
    assert (∀ z, z ∈ s0 → lookupID v1 z = lookupID v z) as Hkeep0.
    { intros z Hz0. apply Hkeep. rewrite Hs. apply elem_of_app. by left. }
    assert (low_link (lookupID v x) s0 v (if bool_decide (m < min) then m else min)) as Hlow1.
    { case_min Hlt; [|done].
      assert (∀ z, z ∈ stack v → m = lookupID v z → low_link (lookupID v x) s0 v m) as Hstk.
      { intros z Hzs Hmz. pose proof (ok_sorted v Hok) as Hinc. rewrite Hs in Hinc, Hzs.
        destruct (increasing_not_above _ s0 x segs z Hinc Hzs) as [->|Hz0]; [lia| |].
        - right; by left.
        - right; right. by exists z. }
      destruct (decide (lookupID v f = 0)) as [Hf0|Hf0].
      - destruct (Hnew Hf0) as [[?|[?|(z & Hzs & Hmz)]] _]; [lia|lia|].
        by apply (Hstk z).
      - pose proof (wf_ids_range _ _ v Hw f) as Hfr.
        destruct Hseen as [Hmf _]; [lia|].
        apply (Hstk f); [|done].
        apply (wf_visited _ _ v Hw) in Hf0. apply elem_of_app in Hf0 as [|Hfe]; [done|].
        apply (wf_emitted _ _ v Hw) in Hfe. lia. }
    destruct Hext as ([seg Hseg] & _).
    destruct (IHl Hok1) with (s0 := s0) (segs := segs ++ seg) as [Hok2 Hlow2].
    + intros g Hg. apply Hl. by right.
    + rewrite Hseg, Hs. rewrite <- app_assoc. done.
    + rewrite Hkeep by done. by apply (low_link_ext _ _ v).
    + split; [done|]. rewrite Hkeep in Hlow2 by done.
      apply (low_link_ext _ _ v1); [|done]. intros z Hz0. symmetry. by apply Hkeep0.
Qed.

Lemma numeric_visit n v m v' :
  Visit prog n v m v' → ok_visitor v → n ∈ univ → visit_numeric n v m v'.
Proof. apply numeric_mutual. Qed.

Lemma numeric_loop x l min v min' v' s0 segs :
  Loop prog x l min v min' v' →
  ok_visitor v → (∀ f, f ∈ l → f ∈ univ) →
  stack v = s0 ++ x :: segs → low_link (lookupID v x) s0 v min →
  ok_visitor v' ∧ low_link (lookupID v x) s0 v min'.
Proof. intros H ? ? ? ?. by eapply (proj2 numeric_mutual). Qed.

(** ** Pass 3: where the calls of reported functions lead *)

(** Every call of a reported function leads into its own component or into
    one reported earlier. *)
Definition reports_closed (v : bottomUpVisitor) : Prop :=
  ∀ i B r, analyzed v !! i = Some (B, r) →
    ∀ y, y ∈ B → ∀ z, edge prog y z →
      ∃ j B' r', (j ≤ i)%nat ∧ analyzed v !! j = Some (B', r') ∧ z ∈ B'.

(** Every target of [y] has been visited and has an ordinal of at least [m]. *)
Definition targets_ge (v : bottomUpVisitor) (y : Func) (m : Z) : Prop :=
  ∀ z, edge prog y z → lookupID v z ≠ 0 ∧ m ≤ lookupID v z.

Lemma elem_of_emitted v z :
  z ∈ emitted v ↔ ∃ j B r, analyzed v !! j = Some (B, r) ∧ z ∈ B.
Proof.
  unfold emitted. rewrite list_elem_of_In, in_concat. split.
  - intros (B & HB & Hz). apply list_elem_of_In in HB, Hz.
    apply list_elem_of_fmap in HB as ([B' r] & -> & HB).
    apply list_elem_of_lookup in HB as [j Hj]. by exists j, B', r.
  - intros (j & B & r & Hj & Hz). exists B. rewrite <- !list_elem_of_In. split; [|done].
    apply list_elem_of_fmap. exists (B, r). split; [done|].
    apply list_elem_of_lookup. by exists j.
Qed.

Lemma targets_ge_kept v v' y m m' :
  wf_visitor prog univ v → wf_visitor prog univ v' → extends v v' → m' ≤ m →
  targets_ge v y m → targets_ge v' y m'.
Proof.
  intros Hw Hw' Hext Hle Ht z Hz. destruct (Ht z Hz) as [Hz0 Hzm].
  rewrite (ids_kept v v' z Hw Hw' Hext Hz0). split; [done|lia].
Qed.

Lemma edges_mutual :
  (∀ n v m v', Visit prog n v m v' →
     ok_visitor v → n ∈ univ → reports_closed v →
     reports_closed v' ∧
     (lookupID v n = 0 → ∀ t, stack v' = stack v ++ n :: t →
        ∀ y, y ∈ n :: t → targets_ge v' y m)) ∧
  (∀ x l min v min' v', Loop prog x l min v min' v' →
     ok_visitor v → (∀ f, f ∈ l → edge prog x f) →
     ∀ s0 segs, stack v = s0 ++ x :: segs → low_link (lookupID v x) s0 v min →
     reports_closed v →
     (∀ y, y ∈ segs → targets_ge v y min) →
     (∀ z, edge prog x z → z ∈ l ∨ (lookupID v z ≠ 0 ∧ min ≤ lookupID v z)) →
     reports_closed v' ∧
     ∀ segs', stack v' = s0 ++ x :: segs' → ∀ y, y ∈ x :: segs' → targets_ge v' y min').
Proof.
  apply Visit_Loop_mutind.
  - (* already visited *)
    intros n v Hpos Hok Hu Hrc. split; [done|]. intros Hz. lia.
  - (* first visit *)
    intros n v min' v2 v3 Hz Hloop IH Hc Hok Hu Hrc.
    pose proof (ok_wf v Hok) as Hw.
    apply (wf_unvisited prog univ v n Hw) in Hz.
    pose proof (ok_enter v n Hok Hz Hu) as Hok1.
    destruct (enter_small v n Hok Hz Hu) as [Hlt He].
    assert (∀ f, f ∈ callees prog n → f ∈ univ) as Hcs.
    { intros f Hf. by apply (univ_edge prog univ univ_closed n). }
    destruct (structure_loop prog univ univ_closed n _ _ _ _ _ Hloop) as (Hw2 & Hext & _);
      [apply (ok_wf _ Hok1)|done|apply u32_range|].
    assert (low_link (lookupID (enter n v).2 n) (stack v) (enter n v).2 (enter n v).1.2) as Hlow1.
    { rewrite He. simpl. rewrite lookupID_insert, decide_True by done. left. lia. }
    assert (stack (enter n v).2 = stack v ++ [n]) as Hs1 by done.
    destruct (numeric_loop n _ _ _ _ _ (stack v) [] Hloop Hok1 Hcs Hs1 Hlow1) as [Hok2 Hlow2].
    destruct (IH Hok1) with (s0 := stack v) (segs := @nil Func) as [Hrc2 Htg]; try done.
    { by intros y ?%elem_of_nil. }
    { intros z Hzn. by left. }
    rewrite He in *. simpl in *.
    destruct Hext as ([seg Hseg] & _ & Hkeep). simpl in Hseg, Hkeep.
    rewrite <- app_assoc in Hseg. simpl in Hseg.
    specialize (Htg seg Hseg).
    assert (NoDup (stack v2)) as Hnd2.
    { pose proof (wf_nodup _ _ v2 Hw2) as Hnd. by apply NoDup_app in Hnd as [? _]. }
    pose proof (close_cases prog v2 v3 n _ min' (stack v) seg Hnd2 Hseg Hc) as Hcl.
    destruct Hcl as [[Hr ->]|(Hr & Hg & Hst & Han & Hlk)].
    + split; [done|]. intros _ t Ht. rewrite Hseg in Ht.
      apply app_inv_head in Ht. by inversion Ht; subst.
    + split.
      * pose proof (ok_gen_bound v Hok) as Hgb.
        apply isRoot_small in Hr as [Hm Hh]; [|lia|pow_lia].
        intros i B r. rewrite Han. intros Hi y Hy z Hyz.
        destruct (decide (i < length (analyzed v2))%nat) as [Hlt'|Hge].
        -- rewrite lookup_app_l in Hi by done.
           destruct (Hrc2 i B r Hi y Hy z Hyz) as (j & B' & r' & Hji & Hj & HzB).
           exists j, B', r'. split; [done|]. split; [|done].
           by rewrite lookup_app_l by (apply lookup_lt_Some in Hj; lia).
        -- rewrite lookup_app_r in Hi by lia.
           destruct (i - length (analyzed v2))%nat as [|k] eqn:Hk; [|by destruct k].
           simpl in Hi. inversion Hi; subst B r. clear Hi.
           destruct (Htg y Hy z Hyz) as [Hz0 Hzm].
           apply (wf_visited _ _ v2 Hw2) in Hz0.
           apply elem_of_app in Hz0 as [Hzs|Hze].
           ++ exists i, (n :: seg), (bool_decide (min' = visitgen v + 1)).
              split; [done|]. split.
              { rewrite lookup_app_r by lia. by rewrite Hk. }
              rewrite Hseg in Hzs. apply elem_of_app in Hzs as [Hzs|Hzs]; [|done].
              exfalso. pose proof (ok_stack v Hok z Hzs) as Hzb.
              rewrite Hkeep in Hzm by (apply elem_of_app; by left).
              rewrite lookupID_insert in Hzm. case_decide; [subst z|]; lia.
           ++ apply elem_of_emitted in Hze as (j & B' & r' & Hj & HzB).
              exists j, B', r'. pose proof (lookup_lt_Some _ _ _ Hj).
              split; [lia|]. split; [|done]. by rewrite lookup_app_l by lia.
      * intros _ t Ht. exfalso. rewrite Hst in Ht.
        apply (f_equal length) in Ht. rewrite length_app in Ht. simpl in Ht. lia.
  - (* end of the loop *)
    intros x min v Hok _ s0 segs Hs Hlow Hrc Hsegs Hx. split; [done|].
    intros segs' Hs'. rewrite Hs in Hs'. apply app_inv_head in Hs'. inversion Hs'; subst segs'.
    intros y [->|Hy]%elem_of_cons; [|by apply Hsegs].
    intros z Hz. destruct (Hx z Hz) as [?%elem_of_nil|]; done.
  - (* one target, then the rest *)
    intros x f l min v m v1 min' v2 Hvis IHv Hloop IHl Hok Hl s0 segs Hs Hlow Hrc Hsegs Hx.
    pose proof (ok_wf v Hok) as Hw.
    assert (x ∈ stack v) as Hxs by (rewrite Hs; apply elem_of_app; right; by left).
    assert (x ∈ univ) as Hxu.
    { apply (wf_univ _ _ v Hw). apply elem_of_app. by left. }
    assert (∀ g, g ∈ f :: l → g ∈ univ) as Hlu.
    { intros g Hg. apply (univ_edge prog univ univ_closed x); [done|by apply Hl]. }
    assert (f ∈ univ) as Hfu by (apply Hlu; by left).
    destruct (IHv Hok Hfu Hrc) as [Hrc1 Hseg1].
    destruct (numeric_visit f v m v1 Hvis Hok Hfu) as (Hok1 & Hseen & Hnew).
    destruct (structure_visit prog univ univ_closed f v m v1 Hvis Hw Hfu)
      as (Hw1 & Hext & Hfv & Hm & _).
    pose proof (low_link_bounds x s0 segs v min Hok Hs Hlow) as Hminb.
    pose proof (ok_gen_bound v Hok) as Hgb.
    pose proof (ok_stack v Hok x Hxs) as Hxb.
    assert (∀ z, z ∈ stack v → lookupID v1 z = lookupID v z) as Hkeep.
    { by destruct Hext as (_ & _ & Hk). }
    destruct (numeric_loop x (f :: l) min v min' v2 s0 segs) as [_ Hlowc];
      [by econstructor|done|done|done|done|].
    set (min1 := if bool_decide (m < min) then m else min) in *.
    assert (min1 ≤ min ∧ min1 ≤ m) as [Hle1 Hle2] by (unfold min1; case_min Hlt; lia).
    assert (low_link (lookupID v1 x) s0 v1 min1) as Hlow1.
    { destruct (numeric_mutual) as [_ Hnl].
      destruct (Hnl x [f] min v min1 v1) with (s0 := s0) (segs := segs) as [_ Hl1];
        [econstructor; [exact Hvis|constructor]|done| |done|done|].
      { intros g ?%list_elem_of_singleton. by subst g. }
      rewrite Hkeep by done. eapply low_link_ext; [|exact Hl1].
      intros z Hz0. apply Hkeep. rewrite Hs. apply elem_of_app. by left. }
    pose proof Hext as ([seg Hseg] & _).
    assert (stack v1 = s0 ++ x :: segs ++ seg) as Hs1.
    { rewrite Hseg, Hs. by rewrite <- app_assoc. }
    destruct (IHl Hok1) with (s0 := s0) (segs := segs ++ seg) as [Hrc2 Hfin]; try done.
    + intros g Hg. apply Hl. by right.
    + intros y [Hy|Hy]%elem_of_app.
      * apply (targets_ge_kept v v1 y min); try done. by apply Hsegs.
      * destruct (decide (lookupID v f = 0)) as [Hf0|Hf0].
        -- destruct (Hnew Hf0) as [_ [[Hst _]|(t & Hst & _)]].
           ++ rewrite Hseg in Hst. rewrite <- (app_nil_r (stack v)) in Hst at 2.
              apply app_inv_head in Hst. subst seg. by apply elem_of_nil in Hy.
           ++ rewrite Hseg in Hst. apply app_inv_head in Hst. subst seg.
              intros z Hz. destruct (Hseg1 Hf0 t) with (y := y) (z := z) as [? ?]; try done.
              split; [done|lia].
        -- pose proof (wf_ids_range _ _ v Hw f).
           destruct Hseen as [_ ->]; [lia|].
           rewrite <- (app_nil_r (stack v)) in Hseg at 1.
           apply app_inv_head in Hseg. subst seg. by apply elem_of_nil in Hy.
    + intros z Hz. destruct (Hx z Hz) as [[->|Hzl]%elem_of_cons|[Hz0 Hzm]].
      * right. split; [done|].
        destruct (decide (lookupID v f = 0)) as [Hf0|Hf0].
        -- destruct (Hnew Hf0) as [_ [(_ & _ & _ & -> & _)|(t & _ & -> & _)]]; pow_lia.
        -- pose proof (wf_ids_range _ _ v Hw f).
           destruct Hseen as [-> ->]; [lia|]. lia.
      * by left.
      * right. rewrite (ids_kept v v1 z Hw Hw1 Hext Hz0). split; [done|lia].
Qed.

Lemma edges_visit n v m v' :
  Visit prog n v m v' → ok_visitor v → n ∈ univ → reports_closed v →
  reports_closed v' ∧
  (lookupID v n = 0 → ∀ t, stack v' = stack v ++ n :: t →
     ∀ y, y ∈ n :: t → targets_ge v' y m).
Proof. apply edges_mutual. Qed.

(** The three ways a call of [visit] can end. *)
Inductive visit_case (n : Func) (v : bottomUpVisitor) (m : Z) (v' : bottomUpVisitor) : Prop :=
  | case_seen :
      0 < lookupID v n → m = lookupID v n → v' = v → visit_case n v m v'
  | case_closed :
      lookupID v n = 0 → stack v' = stack v → hidden prog n = false →
      visitgen v + 1 ≤ m ≤ visitgen v + 2 → lookupID v' n = sentinel →
      (∃ a t, analyzed v' = a ++ [(n :: t, bool_decide (m = visitgen v + 1))]) →
      visit_case n v m v'
  | case_kept t :
      lookupID v n = 0 → stack v' = stack v ++ n :: t →
      lookupID v' n = visitgen v + 1 →
      hidden prog n = true ∨ m < visitgen v + 1 → 0 < m ≤ visitgen v + 2 →
      visit_case n v m v'.

Lemma visit_cases n v m v' :
  Visit prog n v m v' → ok_visitor v → n ∈ univ →
  ok_visitor v' ∧ extends v v' ∧ visit_case n v m v'.
Proof.
  intros Hvis Hok Hu. pose proof (ok_wf v Hok) as Hw.
  destruct (numeric_visit n v m v' Hvis Hok Hu) as (Hok' & Hseen & Hnew).
  destruct (structure_visit prog univ univ_closed n v m v' Hvis Hw Hu)
    as (_ & Hext & _ & Hm & _).
  split; [done|]. split; [done|].
  pose proof (wf_ids_range _ _ v Hw n) as Hr.
  destruct (decide (lookupID v n = 0)) as [Hz|Hz].
  - destruct (Hnew Hz) as [Hlow Hc].
    assert (0 < m ≤ visitgen v + 2) as Hmb.
    { destruct Hlow as [->|[->|(z & Hzs & ->)]].
      - pose proof (ok_gen_bound v Hok). lia.
      - pose proof (ok_gen_bound v Hok). lia.
      - pose proof (ok_stack v Hok z Hzs). lia. }
    destruct Hc as [(Hst & Hh & Hge & Hs & Hlast)|(t & Hst & Hid & Hor)].
    + apply case_closed; try done. lia.
    + by eapply case_kept.
  - destruct Hseen as [-> ->]; [lia|]. apply case_seen; [lia|done|done].
Qed.

(** ** Pass 4: paths in the call graph *)

(** The call graph with every hidden closure tied back to the functions
    of the universe that refer to it, by its literal or by a resolved name. *)
Definition tied (a b : Func) : Prop :=
  edge prog a b ∨ (b ∈ univ ∧ edge prog b a ∧ hidden prog a = true).

Lemma rtc_edge_tied a b : rtc (edge prog) a b → rtc tied a b.
Proof. apply rtc_subrel. intros x y Hxy. by left. Qed.

(** The functions of a report reach one another in the tied graph, and a
    report flagged recursive is headed by a function on a cycle of calls. *)
Definition reports_connected (v : bottomUpVisitor) : Prop :=
  ∀ B r, (B, r) ∈ analyzed v →
    (∀ a b, a ∈ B → b ∈ B → rtc tied a b) ∧
    (r = true → ∃ h t, B = h :: t ∧ tc (edge prog) h h).

(** [low_link] with the path that justifies the value. *)
Definition link_path (x : Func) (id : Z) (s0 : list Func) (v : bottomUpVisitor) (m : Z) : Prop :=
  m = id + 1 ∨ (m = id ∧ tc (edge prog) x x) ∨
  ∃ z, z ∈ s0 ∧ m = lookupID v z ∧ tc (edge prog) x z.

Lemma link_path_low x id s0 v m : link_path x id s0 v m → low_link id s0 v m.
Proof.
  intros [?|[[? _]|(z & ? & ? & _)]]; [by left|by right; left|].
  right; right. by exists z.
Qed.

Lemma link_path_ext x id s0 v v' m :
  (∀ z, z ∈ s0 → lookupID v' z = lookupID v z) →
  link_path x id s0 v m → link_path x id s0 v' m.
Proof.
  intros Heq [?|[?|(z & Hz & ? & ?)]]; [by left|by right; left|].
  right; right. exists z. split; [done|]. by rewrite Heq.
Qed.

Lemma paths_mutual :
  (∀ n v m v', Visit prog n v m v' →
     ok_visitor v → n ∈ univ → reports_connected v →
     (∀ u, u ∈ stack v → rtc tied u n) →
     (hidden prog n = true → ∃ a, a ∈ stack v ∧ edge prog a n) →
     reports_connected v' ∧
     (lookupID v n = 0 →
        link_path n (visitgen v + 1) (stack v) v m ∧
        ∀ t, stack v' = stack v ++ n :: t →
          ∀ w, w ∈ n :: t →
            rtc (edge prog) n w ∧ ∃ u, u ∈ stack v ∧ rtc tied w u)) ∧
  (∀ x l min v min' v', Loop prog x l min v min' v' →
     ok_visitor v → (∀ f, f ∈ l → edge prog x f) →
     ∀ s0 segs, stack v = s0 ++ x :: segs →
     reports_connected v →
     (∀ u, u ∈ stack v → rtc tied u x) →
     (∀ w, w ∈ segs → rtc (edge prog) x w) →
     link_path x (lookupID v x) s0 v min →
     reports_connected v' ∧ link_path x (lookupID v x) s0 v min' ∧
     ∀ segs', stack v' = s0 ++ x :: segs' →
       (∀ u, u ∈ stack v' → rtc tied u x) ∧ (∀ w, w ∈ segs' → rtc (edge prog) x w)).
Proof.
  apply Visit_Loop_mutind.
  - (* already visited *)
    intros n v Hpos Hok Hu Hrc Htop Hh. split; [done|]. intros Hz. lia.
  - (* first visit *)
    intros n v min' v2 v3 Hz Hloop IH Hc Hok Hu Hrc Htop Hh.
    pose proof (ok_wf v Hok) as Hw.
    apply (wf_unvisited prog univ v n Hw) in Hz.
    pose proof (ok_enter v n Hok Hz Hu) as Hok1.
    destruct (enter_small v n Hok Hz Hu) as [Hlt He].
    pose proof (ok_gen_bound v Hok) as Hgb.
    assert (∀ f, f ∈ callees prog n → f ∈ univ) as Hcs.
    { intros f Hf. by apply (univ_edge prog univ univ_closed n). }
    destruct (structure_loop prog univ univ_closed n _ _ _ _ _ Hloop) as (Hw2 & Hext & _);
      [apply (ok_wf _ Hok1)|done|apply u32_range|].
    assert (∀ z, z ∈ stack v → z ≠ n) as Hne.
    { intros z Hzs ->. pose proof (ok_stack v Hok n Hzs). lia. }
    destruct (IH Hok1) with (s0 := stack v) (segs := @nil Func)
      as (Hrc2 & Hlp & Hfin); try done.
    { intros u [Hus|Hun%list_elem_of_singleton]%elem_of_app; [by apply Htop|].
      subst u. apply rtc_refl. }
    { by intros w ?%elem_of_nil. }
    { rewrite He. simpl. rewrite lookupID_insert, decide_True by done. left. lia. }
    rewrite He in *. simpl in *.
    rewrite lookupID_insert, decide_True in Hlp by done.
    assert (link_path n (visitgen v + 1) (stack v) v min') as Hlp'.
    { eapply link_path_ext; [|exact Hlp]. intros z Hzs. simpl.
      rewrite lookupID_insert. rewrite decide_False; [done|by apply Hne]. }
    destruct Hext as ([seg Hseg] & _ & Hkeep). simpl in Hseg, Hkeep.
    rewrite <- app_assoc in Hseg. simpl in Hseg.
    destruct (Hfin seg Hseg) as [Htop2 Hdown].
    assert (NoDup (stack v2)) as Hnd2.
    { pose proof (wf_nodup _ _ v2 Hw2) as Hnd. by apply NoDup_app in Hnd as [? _]. }
    pose proof (close_cases prog v2 v3 n _ min' (stack v) seg Hnd2 Hseg Hc) as Hcl.
    assert (∀ w, w ∈ n :: seg → rtc (edge prog) n w) as Hdown'.
    { intros w [->|Hw']%elem_of_cons; [apply rtc_refl|by apply Hdown]. }
    assert (∀ w, w ∈ n :: seg → rtc tied w n) as Hup.
    { intros w Hw'. apply Htop2. rewrite Hseg. apply elem_of_app. by right. }
    destruct Hcl as [[Hr ->]|(Hr & Hg & Hst & Han & Hlk)].
    + split; [done|]. intros _. split; [done|]. intros t Ht. rewrite Hseg in Ht.
      apply app_inv_head in Ht. inversion Ht; subst t. clear Ht.
      intros w Hw'. split; [by apply Hdown'|].
      assert (∃ u, u ∈ stack v ∧ rtc tied n u) as (u & Hus & Hnu).
      { destruct (hidden prog n) eqn:Hhn.
        - destruct Hh as (a & Ha & Han'); [done|]. exists a. split; [done|].
          apply rtc_once. right. split; [|done].
          apply (wf_univ _ _ v Hw). apply elem_of_app. by left.
        - destruct Hlp' as [Hm|[[Hm _]|(z & Hzs & Hm & Hp)]].
          + assert (isRoot false (visitgen v + 1) min' = true) as Hr'; [|congruence].
            apply isRoot_small; [lia|pow_lia|]. split; [lia|done].
          + assert (isRoot false (visitgen v + 1) min' = true) as Hr'; [|congruence].
            apply isRoot_small; [lia|pow_lia|]. split; [lia|done].
          + exists z. split; [done|]. apply rtc_edge_tied. by apply tc_rtc. }
      exists u. split; [done|]. eapply rtc_trans; [by apply Hup|done].
    + split.
      * intros B r. rewrite Han. intros [HB|HB%list_elem_of_singleton]%elem_of_app.
        -- by apply Hrc2.
        -- inversion HB; subst B r. clear HB. split.
           ++ intros a b Ha Hb. eapply rtc_trans; [by apply Hup|].
              apply rtc_edge_tied. by apply Hdown'.
           ++ intros Hrec. apply bool_decide_eq_true in Hrec. exists n, seg. split; [done|].
              destruct Hlp' as [Hm|[[_ Hp]|(z & Hzs & Hm & _)]]; [lia|done|].
              pose proof (ok_stack v Hok z Hzs). lia.
      * intros _. split; [done|]. intros t Ht. exfalso. rewrite Hst in Ht.
        apply (f_equal length) in Ht. rewrite length_app in Ht. simpl in Ht. lia.
  - (* end of the loop *)
    intros x min v Hok _ s0 segs Hs Hrc Htop Hdown Hlp. split; [done|]. split; [done|].
    intros segs' Hs'. rewrite Hs in Hs'. apply app_inv_head in Hs'. inversion Hs'; subst segs'.
    done.
  - (* one target, then the rest *)
    intros x f l min v m v1 min' v2 Hvis IHv Hloop IHl Hok Hl s0 segs Hs Hrc Htop Hdown Hlp.
    pose proof (ok_wf v Hok) as Hw.
    assert (x ∈ stack v) as Hxs by (rewrite Hs; apply elem_of_app; right; by left).
    assert (x ∈ univ) as Hxu.
    { apply (wf_univ _ _ v Hw). apply elem_of_app. by left. }
    assert (edge prog x f) as Hxf by (apply Hl; by left).
    assert (f ∈ univ) as Hfu by (by apply (univ_edge prog univ univ_closed x)).
    destruct (visit_cases f v m v1 Hvis Hok Hfu) as (Hok1 & Hext & Hcase).
    pose proof (ok_wf v1 Hok1) as Hw1.
    destruct (IHv Hok Hfu Hrc) as [Hrc1 Hnewf].
    { intros u Hus. eapply rtc_r; [by apply Htop|by left]. }
    { intros _. by exists x. }
    pose proof (low_link_bounds x s0 segs v min Hok Hs (link_path_low _ _ _ _ _ Hlp)) as Hminb.
    pose proof (ok_gen_bound v Hok) as Hgb.
    pose proof (ok_stack v Hok x Hxs) as Hxb.
    assert (∀ z, z ∈ stack v → lookupID v1 z = lookupID v z) as Hkeep.
    { by destruct Hext as (_ & _ & Hk). }
    assert (∀ z, z ∈ s0 → lookupID v1 z = lookupID v z) as Hkeep0.
    { intros z Hz0. apply Hkeep. rewrite Hs. apply elem_of_app. by left. }
    set (min1 := if bool_decide (m < min) then m else min) in *.
    assert (link_path x (lookupID v x) s0 v min1) as Hlp1.
    { unfold min1. case_min Hlt; [|done].
      assert (∀ z, z ∈ stack v → m = lookupID v z → tc (edge prog) x z →
                link_path x (lookupID v x) s0 v m) as Hstk.
      { intros z Hzs Hmz Hp. pose proof (ok_sorted v Hok) as Hinc. rewrite Hs in Hinc, Hzs.
        destruct (increasing_not_above _ s0 x segs z Hinc Hzs) as [->|Hz0]; [lia| |].
        - right; by left.
        - right; right. by exists z. }
      destruct Hcase as [Hpos Hm Hv|Hz Hst Hh [Hm1 Hm2] Hsent _|t Hz Hst Hid Hor Hmb].
      - subst v1. apply (Hstk f); [|done|by apply tc_once].
        assert (lookupID v f ≠ 0) as Hf0 by lia.
        apply (wf_visited _ _ v Hw) in Hf0. apply elem_of_app in Hf0 as [|Hfe]; [done|].
        apply (wf_emitted _ _ v Hw) in Hfe. lia.
      - lia.
      - destruct (Hnewf Hz) as [[?|[[? _]|(z & Hzs & Hmz & Hp)]] _]; [lia|lia|].
        apply (Hstk z); [done|done|]. by eapply tc_l. }
    pose proof Hext as ([seg Hseg] & _).
    assert (stack v1 = s0 ++ x :: segs ++ seg) as Hs1.
    { rewrite Hseg, Hs. by rewrite <- app_assoc. }
    assert (∀ w, w ∈ seg → rtc (edge prog) f w ∧ ∃ u, u ∈ stack v ∧ rtc tied w u) as Hsegf.
    { intros w Hwseg.
      destruct Hcase as [Hpos Hm Hv|Hz Hst Hh [Hm1 Hm2] Hsent _|t Hz Hst Hid Hor Hmb].
      - subst v1. rewrite <- (app_nil_r (stack v)) in Hseg at 1.
        apply app_inv_head in Hseg. subst seg. by apply elem_of_nil in Hwseg.
      - rewrite Hseg in Hst. rewrite <- (app_nil_r (stack v)) in Hst at 2.
        apply app_inv_head in Hst. subst seg. by apply elem_of_nil in Hwseg.
      - destruct (Hnewf Hz) as [_ Hk]. apply (Hk t Hst).
        rewrite Hseg in Hst. apply app_inv_head in Hst. by subst seg. }
    destruct (IHl Hok1) with (s0 := s0) (segs := segs ++ seg) as (Hrc2 & Hlp2 & Hfin);
      try done.
    + intros g Hg. apply Hl. by right.
    + intros u. rewrite Hseg. intros [Hus|Hu]%elem_of_app; [by apply Htop|].
      destruct (Hsegf u Hu) as [_ (u' & Hu' & Hp)]. eapply rtc_trans; [done|by apply Htop].
    + intros w [Hw'|Hw']%elem_of_app; [by apply Hdown|].
      destruct (Hsegf w Hw') as [Hp _]. by eapply rtc_l.
    + rewrite Hkeep by done. by apply (link_path_ext _ _ _ v).
    + split; [done|]. split; [|done]. rewrite Hkeep in Hlp2 by done.
      apply (link_path_ext _ _ _ v1); [|done]. intros z Hz0. symmetry. by apply Hkeep0.
Qed.

Lemma paths_visit n v m v' :
  Visit prog n v m v' →
  ok_visitor v → n ∈ univ → reports_connected v →
  (∀ u, u ∈ stack v → rtc tied u n) →
  (hidden prog n = true → ∃ a, a ∈ stack v ∧ edge prog a n) →
  reports_connected v'.
Proof. intros H ? ? ? ? ?. by apply (proj1 paths_mutual n v m v'). Qed.

(** ** Visits from the loop of [visitBottomUp] *)

(** A first visit that starts on an empty stack ends with [min] equal to the
    ordinal of the function or one more; a function that is not a hidden
    closure then closes a component and leaves the stack empty. *)
Lemma root_visit fn v m v' :
  Visit prog fn v m v' → ok_visitor v → fn ∈ univ →
  stack v = [] → hidden prog fn = false → lookupID v fn = 0 →
  ok_visitor v' ∧ stack v' = [] ∧
  (m = visitgen v + 1 ∨ m = visitgen v + 2) ∧
  ∃ a t, analyzed v' = a ++ [(fn :: t, bool_decide (m = visitgen v + 1))].
Proof.
  intros Hvis Hok Hu Hs Hh Hz.
  destruct (numeric_visit fn v m v' Hvis Hok Hu) as (Hok' & _ & Hnew).
  destruct (Hnew Hz) as [Hlow Hc]. split; [done|].
  assert (m = visitgen v + 1 ∨ m = visitgen v + 2) as Hm.
  { destruct Hlow as [?|[?|(z & Hzs & _)]]; [right; lia|by left|].
    rewrite Hs in Hzs. by apply elem_of_nil in Hzs. }
  destruct Hc as [(Hst & _ & _ & _ & Hlast)|(t & _ & _ & [Hh'|Hlt])].
  - split; [by rewrite Hst|]. done.
  - congruence.
  - lia.
Qed.

Lemma list_bounded l : ∀ v v',
  VisitList prog l v v' → ok_visitor v → stack v = [] → roots_in univ l →
  reports_closed v → reports_connected v →
  ok_visitor v' ∧ stack v' = [] ∧ reports_closed v' ∧ reports_connected v'.
Proof.
  intros v v' H. induction H as [v|n rest v v' Hskip _ IH|fn rest v m v1 v' Hh Hv _ IH];
    intros Hok Hs Hr Hrc Hcon.
  - done.
  - apply IH; try done. by apply Forall_inv_tail in Hr.
  - pose proof (Forall_inv Hr) as Hfn. simpl in Hfn. apply Forall_inv_tail in Hr.
    destruct (visit_cases fn v m v1 Hv Hok Hfn) as (Hok1 & _ & Hcase).
    assert (stack v1 = []) as Hs1.
    { destruct Hcase as [_ _ ->|Hz _ _ _ _ _|t Hz _ _ _ _]; [done| |].
      - by destruct (root_visit fn v m v1 Hv Hok Hfn Hs Hh Hz) as (_ & ? & _).
      - by destruct (root_visit fn v m v1 Hv Hok Hfn Hs Hh Hz) as (_ & ? & _). }
    apply IH; try done.
    + by apply (edges_visit fn v m v1).
    + apply (paths_visit fn v m v1); try done.
      * intros u. rewrite Hs. by intros ?%elem_of_nil.
      * congruence.
Qed.


(** ** The ordinals a run issues *)

(** Every first visit of a traversal starts from a visitor whose counter has
    not wrapped around, on a function of the universe. *)
Lemma enters_mutual :
  (∀ n v k w, Enters prog n v k w →
     ok_visitor v → n ∈ univ → ok_visitor w ∧ lookupID w k = 0 ∧ k ∈ univ) ∧
  (∀ l min v k w, EntersLoop prog l min v k w →
     ok_visitor v → (∀ f, f ∈ l → f ∈ univ) → ok_visitor w ∧ lookupID w k = 0 ∧ k ∈ univ).
Proof.
  apply Enters_mutind.
  - intros n v Hz Hok Hu. split; [done|]. split; [|done].
    by apply (wf_unvisited prog univ v n (ok_wf v Hok)).
  - intros n v k w Hz _ IH Hok Hu.
    apply (wf_unvisited prog univ v n (ok_wf v Hok)) in Hz.
    apply IH; [by apply ok_enter|].
    intros f Hf. by apply (univ_edge prog univ univ_closed n).
  - intros f l min v k w _ IH Hok Hl. apply IH; [done|]. apply Hl. by left.
  - intros f l min v m v1 k w Hvis _ IH Hok Hl.
    destruct (visit_cases f v m v1 Hvis Hok) as (Hok1 & _); [apply Hl; by left|].
    apply IH; [done|]. intros g Hg. apply Hl. by right.
Qed.

Lemma enters_list l : ∀ v k w,
  EntersList prog l v k w → ok_visitor v → roots_in univ l →
  ok_visitor w ∧ lookupID w k = 0 ∧ k ∈ univ.
Proof.
  intros v k w H. induction H as [fn rest v k w Hh He|n rest v k w Hskip _ IH
                                  |fn rest v m v1 k w Hh Hv _ IH]; intros Hok Hr.
  - pose proof (Forall_inv Hr) as Hfn. simpl in Hfn.
    by apply (proj1 enters_mutual fn v k w).
  - apply IH; [done|]. by apply Forall_inv_tail in Hr.
  - pose proof (Forall_inv Hr) as Hfn. simpl in Hfn. apply Forall_inv_tail in Hr.
    destruct (visit_cases fn v m v1 Hv Hok Hfn) as (Hok1 & _). by apply IH.
Qed.


(** ** Pass 5: hidden closures and their enclosing functions *)

Section Owned.

(** A hidden closure is referred to from one function only: whatever the
    node that resolves to it (the closure literal, a name, a method
    expression or value), no two functions of the universe have it among the
    targets that [visit] descends into. *)
Definition closures_owned : Prop :=
  Forall (λ a, Forall (λ b,
    Forall (λ c, c ∈ callees prog b → hidden prog c = true → a = b) (callees prog a))
    univ) univ.

Hypothesis owned : closures_owned.

Lemma owned_unique a b c :
  a ∈ univ → b ∈ univ → edge prog a c → edge prog b c → hidden prog c = true → a = b.
Proof.
  intros Ha Hb Hac Hbc Hc. unfold closures_owned in owned.
  rewrite Forall_forall in owned. specialize (owned a Ha).
  rewrite Forall_forall in owned. specialize (owned b Hb).
  rewrite Forall_forall in owned. by apply (owned c).
Qed.

(** A hidden closure on the stack lies above a function that refers to it. *)
Definition stack_owned (v : bottomUpVisitor) : Prop :=
  ∀ c, c ∈ stack v → hidden prog c = true →
    ∃ a, a ∈ stack v ∧ edge prog a c ∧ lookupID v a < lookupID v c.

(** A report holds, with each hidden closure, a function that refers to
    it; in a report not flagged recursive every call between two
    members goes upwards in some ranking. *)
Definition reports_owned (v : bottomUpVisitor) : Prop :=
  ∀ B r, (B, r) ∈ analyzed v →
    (∀ c, c ∈ B → hidden prog c = true → ∃ a, a ∈ B ∧ edge prog a c) ∧
    (r = false → ∃ rank : Func → Z,
       ∀ y z, y ∈ B → z ∈ B → edge prog y z → rank y < rank z).

Definition seg_owned (v : bottomUpVisitor) (x : Func) (segs : list Func) : Prop :=
  ∀ c, c ∈ segs → hidden prog c = true →
    ∃ a, a ∈ x :: segs ∧ edge prog a c ∧ lookupID v a < lookupID v c.

Definition seg_solid (v : bottomUpVisitor) (segs : list Func) (min : Z) : Prop :=
  ∀ w, w ∈ segs → hidden prog w = false →
    ∃ z, z ∈ stack v ∧ hidden prog z = false ∧ min ≤ lookupID v z < lookupID v w.

Definition solid_link (id : Z) (s0 : list Func) (v : bottomUpVisitor) (m : Z) : Prop :=
  id ≤ m ∨ ∃ z, z ∈ s0 ∧ hidden prog z = false ∧ m = lookupID v z.

Record owned_visitor (v : bottomUpVisitor) : Prop := {
  ow_ok : ok_visitor v;
  ow_closed : reports_closed v;
  ow_stack : stack_owned v;
  ow_reports : reports_owned v
}.

(** With the seed value returned, everything above the root is a hidden closure. *)
Lemma solid_descent v s0 n seg :
  ok_visitor v → stack v = s0 ++ n :: seg →
  seg_solid v seg (lookupID v n + 1) →
  ∀ w, w ∈ seg → hidden prog w = true.
Proof.
  intros Hok Hs Hsolid.
  assert (∀ k : nat, ∀ w, w ∈ seg → hidden prog w = false →
            (Z.to_nat (lookupID v w) < k)%nat → False) as Hdesc.
  { induction k as [|k IH]; intros w Hw Hh Hk; [lia|].
    destruct (Hsolid w Hw Hh) as (z & Hzs & Hzh & Hz1 & Hz2).
    apply (IH z); [|done|].
    - pose proof (ok_sorted v Hok) as Hinc. rewrite Hs in Hinc, Hzs.
      apply elem_of_app in Hzs as [Hz0|[->|Hzseg]%elem_of_cons]; [|lia|done].
      pose proof (increasing_below _ s0 n seg z Hinc Hz0). lia.
    - assert (0 < lookupID v z); [|lia].
      apply (ok_stack v Hok). done. }
  intros w Hw. destruct (hidden prog w) eqn:Hh; [done|].
  exfalso. apply (Hdesc (S (Z.to_nat (lookupID v w))) w); [done|done|lia].
Qed.

Lemma owned_mutual :
  (∀ n v m v', Visit prog n v m v' →
     owned_visitor v → n ∈ univ →
     (hidden prog n = true → ∃ a, a ∈ stack v ∧ edge prog a n) →
     owned_visitor v' ∧
     (lookupID v n = 0 →
        solid_link (visitgen v + 1) (stack v) v m ∧
        ∀ t, stack v' = stack v ++ n :: t →
          seg_owned v' n t ∧ seg_solid v' (n :: t) m)) ∧
  (∀ x l min v min' v', Loop prog x l min v min' v' →
     owned_visitor v → (∀ f, f ∈ l → edge prog x f) →
     ∀ s0 segs, stack v = s0 ++ x :: segs → low_link (lookupID v x) s0 v min →
     seg_owned v x segs → seg_solid v segs min →
     solid_link (lookupID v x) s0 v min →
     owned_visitor v' ∧ solid_link (lookupID v x) s0 v min' ∧
     ∀ segs', stack v' = s0 ++ x :: segs' →
       seg_owned v' x segs' ∧ seg_solid v' segs' min').
Proof.
  apply Visit_Loop_mutind.
  - (* already visited *)
    intros n v Hpos Hov Hu Hh. split; [done|]. intros Hz. lia.
  - (* first visit *)
    intros n v min' v2 v3 Hz Hloop IH Hc Hov Hu Hh.
    pose proof (ow_ok v Hov) as Hok. pose proof (ok_wf v Hok) as Hw.
    apply (wf_unvisited prog univ v n Hw) in Hz.
    pose proof (ok_enter v n Hok Hz Hu) as Hok1.
    destruct (enter_small v n Hok Hz Hu) as [Hlt He].
    pose proof (ok_gen_bound v Hok) as Hgb.
    assert (∀ f, f ∈ callees prog n → f ∈ univ) as Hcs.
    { intros f Hf. by apply (univ_edge prog univ univ_closed n). }
    destruct (structure_loop prog univ univ_closed n _ _ _ _ _ Hloop) as (Hw2 & Hext & _);
      [apply (ok_wf _ Hok1)|done|apply u32_range|].
    assert (∀ z, z ∈ stack v → z ≠ n) as Hne.
    { intros z Hzs ->. pose proof (ok_stack v Hok n Hzs). lia. }
    assert (low_link (lookupID (enter n v).2 n) (stack v) (enter n v).2 (enter n v).1.2) as Hlow1.
    { rewrite He. simpl. rewrite lookupID_insert, decide_True by done. left. lia. }
    assert (stack (enter n v).2 = stack v ++ [n]) as Hs1 by done.
    assert (∀ z, z ∈ stack v → lookupID (enter n v).2 z = lookupID v z) as Hkeep1.
    { intros z Hzs. simpl. rewrite lookupID_insert. rewrite decide_False; [done|by apply Hne]. }
    assert (lookupID (enter n v).2 n = visitgen v + 1) as Hidn1.
    { rewrite He. simpl. by rewrite lookupID_insert, decide_True. }
    assert (reports_closed (enter n v).2) as Hrc1 by apply (ow_closed v Hov).
    assert (owned_visitor (enter n v).2) as Hov1.
    { split; [done|done| |apply (ow_reports v Hov)].
      intros c. rewrite Hs1. intros [Hcs'|Hcn%list_elem_of_singleton]%elem_of_app Hhc.
      - destruct (ow_stack v Hov c Hcs' Hhc) as (a & Ha & Hac & Hlt').
        exists a. split; [apply elem_of_app; by left|]. split; [done|].
        by rewrite !Hkeep1.
      - subst c. destruct (Hh Hhc) as (a & Ha & Han).
        exists a. split; [apply elem_of_app; by left|]. split; [done|].
        rewrite Hkeep1, Hidn1 by done. pose proof (ok_stack v Hok a Ha). lia. }
    destruct (numeric_loop n _ _ _ _ _ (stack v) [] Hloop Hok1 Hcs Hs1 Hlow1) as [Hok2 Hlow2].
    destruct (proj2 edges_mutual n _ _ _ _ _ Hloop Hok1) with (s0 := stack v) (segs := @nil Func)
      as [Hrc2 Htg]; try done.
    { by intros y ?%elem_of_nil. }
    { intros z Hzn. by left. }
    destruct (IH Hov1) with (s0 := stack v) (segs := @nil Func)
      as (Hov2 & Hsl & Hfin); try done.
    { by intros c ?%elem_of_nil. }
    { by intros w ?%elem_of_nil. }
    { left. rewrite He. simpl. rewrite lookupID_insert, decide_True by done. lia. }
    rewrite Hidn1 in Hsl, Hlow2.
    assert (solid_link (visitgen v + 1) (stack v) v min') as Hsl'.
    { destruct Hsl as [?|(z & Hzs & Hzh & Hm)]; [by left|right].
      exists z. split; [done|]. split; [done|]. by rewrite <- Hkeep1. }
    assert (low_link (visitgen v + 1) (stack v) v min') as Hlow'.
    { eapply low_link_ext; [|exact Hlow2]. intros z Hzs. symmetry. by apply Hkeep1. }
    destruct Hext as ([seg Hseg] & _ & Hkeep). rewrite Hs1 in Hseg.
    rewrite <- app_assoc in Hseg. simpl in Hseg.
    destruct (Hfin seg Hseg) as [Hso Hss]. specialize (Htg seg Hseg).
    assert (lookupID v2 n = visitgen v + 1) as Hidn.
    { rewrite Hkeep by (rewrite Hs1; apply elem_of_app; right; by left). done. }
    assert (∀ z, z ∈ stack v → lookupID v2 z = lookupID v z) as Hkeep2.
    { intros z Hzs. rewrite Hkeep by (rewrite Hs1; apply elem_of_app; by left).
      by apply Hkeep1. }
    assert (0 < min' ≤ visitgen v + 2) as Hmb.
    { destruct Hlow' as [->|[->|(z & Hzs & ->)]]; [lia|lia|].
      pose proof (ok_stack v Hok z Hzs). lia. }
    assert (NoDup (stack v2)) as Hnd2.
    { pose proof (wf_nodup _ _ v2 Hw2) as Hnd. by apply NoDup_app in Hnd as [? _]. }
    pose proof (close_cases prog v2 v3 n _ min' (stack v) seg Hnd2 Hseg Hc) as Hcl.
    rewrite He in Hcl. simpl in Hcl.
    destruct Hcl as [[Hr ->]|(Hr & Hg & Hst & Han & Hlk)].
    + split; [done|]. intros _. split; [done|]. intros t Ht. rewrite Hseg in Ht.
      apply app_inv_head in Ht. inversion Ht; subst t. clear Ht.
      split; [done|].
      intros w [->|Hwseg]%elem_of_cons Hhw; [|by apply Hss].
      destruct Hsl' as [Hge|(z & Hzs & Hzh & Hm)].
      * assert (isRoot (hidden prog n) (visitgen v + 1) min' = true) as Hr'; [|congruence].
        apply isRoot_small; [lia|pow_lia|]. split; [lia|done].
      * exists z. split; [rewrite Hseg; apply elem_of_app; by left|]. split; [done|].
        rewrite Hkeep2, Hidn by done. pose proof (ok_stack v Hok z Hzs). lia.
    + apply isRoot_small in Hr as [Hm Hhn]; [|lia|pow_lia].
      assert (∀ z, z ∈ stack v → lookupID v3 z = lookupID v z) as Hkeep3.
      { intros z Hzs. rewrite Hlk. rewrite decide_False; [by apply Hkeep2|].
        intros Hin. rewrite Hseg in Hnd2. apply NoDup_app in Hnd2 as (_ & Hd & _).
        by apply (Hd z). }
      split.
      * split.
        -- apply (ok_close v2 v3 n (visitgen v + 1) min' (stack v) seg Hok2 Hseg). right.
           split; [|done]. apply isRoot_small; [lia|pow_lia|done].
        -- (* the calls of the new report *)
           intros i B r. rewrite Han. intros Hi y Hy z Hyz.
           destruct (decide (i < length (analyzed v2))%nat) as [Hlt'|Hge].
           ++ rewrite lookup_app_l in Hi by done.
              destruct (Hrc2 i B r Hi y Hy z Hyz) as (j & B' & r' & Hji & Hj & HzB).
              exists j, B', r'. split; [done|]. split; [|done].
              by rewrite lookup_app_l by (apply lookup_lt_Some in Hj; lia).
           ++ rewrite lookup_app_r in Hi by lia.
              destruct (i - length (analyzed v2))%nat as [|k] eqn:Hk; [|by destruct k].
              simpl in Hi. inversion Hi; subst B r. clear Hi.
              destruct (Htg y Hy z Hyz) as [Hz0 Hzm].
              apply (wf_visited _ _ v2 Hw2) in Hz0.
              apply elem_of_app in Hz0 as [Hzs|Hze].
              ** exists i, (n :: seg), (bool_decide (min' = visitgen v + 1)).
                 split; [done|]. split.
                 { rewrite lookup_app_r by lia. by rewrite Hk. }
                 rewrite Hseg in Hzs. apply elem_of_app in Hzs as [Hzs|Hzs]; [|done].
                 exfalso. pose proof (ok_stack v Hok z Hzs) as Hzb.
                 rewrite Hkeep2 in Hzm by done. lia.
              ** apply elem_of_emitted in Hze as (j & B' & r' & Hj & HzB).
                 exists j, B', r'. pose proof (lookup_lt_Some _ _ _ Hj).
                 split; [lia|]. split; [|done]. by rewrite lookup_app_l by lia.
        -- intros c. rewrite Hst. intros Hcs' Hhc.
           destruct (ow_stack v Hov c Hcs' Hhc) as (a & Ha & Hac & Hlt').
           exists a. split; [done|]. split; [done|]. by rewrite !Hkeep3.
        -- intros B r. rewrite Han. intros [HB|HB%list_elem_of_singleton]%elem_of_app.
           ++ by apply (ow_reports v2 Hov2).
           ++ inversion HB; subst B r. clear HB. split.
              ** intros c [->|Hcseg]%elem_of_cons Hhc; [congruence|].
                 destruct (Hso c Hcseg Hhc) as (a & Ha & Hac & _). by exists a.
              ** intros Hrec. apply bool_decide_eq_false in Hrec.
                 assert (min' = lookupID v2 n + 1) as Hseed by lia.
                 rewrite Hseed in Hss.
                 pose proof (solid_descent v2 (stack v) n seg Hok2 Hseg Hss) as Hall.
                 exists (lookupID v2). intros y z Hy Hz' Hyz.
                 destruct (Htg y Hy z Hyz) as [_ Hzm].
                 apply elem_of_cons in Hz' as [->|Hzseg]; [lia|].
                 destruct (Hso z Hzseg (Hall z Hzseg)) as (a & Ha & Haz & Hlt').
                 assert (a = y) as ->; [|done].
                 apply (owned_unique a y z); try done.
                 --- apply (wf_univ _ _ v2 Hw2). rewrite Hseg.
                     apply elem_of_app. left. apply elem_of_app. by right.
                 --- apply (wf_univ _ _ v2 Hw2). rewrite Hseg.
                     apply elem_of_app. left. apply elem_of_app. by right.
                 --- by apply Hall.
      * intros _. split; [done|]. intros t Ht. exfalso. rewrite Hst in Ht.
        apply (f_equal length) in Ht. rewrite length_app in Ht. simpl in Ht. lia.
  - (* end of the loop *)
    intros x min v Hov _ s0 segs Hs Hlow Hso Hss Hsl. split; [done|]. split; [done|].
    intros segs' Hs'. rewrite Hs in Hs'. apply app_inv_head in Hs'. inversion Hs'; subst segs'.
    done.
  - (* one target, then the rest *)
    intros x f l min v m v1 min' v2 Hvis IHv Hloop IHl Hov Hl s0 segs Hs Hlow Hso Hss Hsl.
    pose proof (ow_ok v Hov) as Hok. pose proof (ok_wf v Hok) as Hw.
    assert (x ∈ stack v) as Hxs by (rewrite Hs; apply elem_of_app; right; by left).
    assert (x ∈ univ) as Hxu.
    { apply (wf_univ _ _ v Hw). apply elem_of_app. by left. }
    assert (edge prog x f) as Hxf by (apply Hl; by left).
    assert (f ∈ univ) as Hfu by (by apply (univ_edge prog univ univ_closed x)).
    destruct (visit_cases f v m v1 Hvis Hok Hfu) as (Hok1 & Hext & Hcase).
    pose proof (ok_wf v1 Hok1) as Hw1.
    destruct (IHv Hov Hfu) as [Hov1 Hnewf].
    { intros _. by exists x. }
    pose proof (low_link_bounds x s0 segs v min Hok Hs Hlow) as Hminb.
    pose proof (ok_gen_bound v Hok) as Hgb.
    pose proof (ok_stack v Hok x Hxs) as Hxb.
    assert (∀ z, z ∈ stack v → lookupID v1 z = lookupID v z) as Hkeep.
    { by destruct Hext as (_ & _ & Hk). }
    assert (∀ z, z ∈ s0 → lookupID v1 z = lookupID v z) as Hkeep0.
    { intros z Hz0. apply Hkeep. rewrite Hs. apply elem_of_app. by left. }
    set (min1 := if bool_decide (m < min) then m else min) in *.
    assert (min1 ≤ min ∧ min1 ≤ m) as [Hle1 Hle2] by (unfold min1; case_min Hlt; lia).
    assert (low_link (lookupID v1 x) s0 v1 min1) as Hlow1.
    { destruct (numeric_mutual) as [_ Hnl].
      destruct (Hnl x [f] min v min1 v1) with (s0 := s0) (segs := segs) as [_ Hl1];
        [econstructor; [exact Hvis|constructor]|done| |done|done|].
      { intros g ?%list_elem_of_singleton. by subst g. }
      rewrite Hkeep by done. eapply low_link_ext; [|exact Hl1]. done. }
    assert (solid_link (lookupID v x) s0 v min1) as Hsl1.
    { unfold min1. case_min Hlt; [|done].
      destruct (decide (lookupID v x ≤ m)) as [|Hbelow]; [by left|].
      assert (∀ z, z ∈ stack v → m = lookupID v z → hidden prog z = false →
                solid_link (lookupID v x) s0 v m) as Hstk.
      { intros z Hzs Hmz Hzh. pose proof (ok_sorted v Hok) as Hinc. rewrite Hs in Hinc, Hzs.
        destruct (increasing_not_above _ s0 x segs z Hinc Hzs) as [->|Hz0]; [lia|lia|].
        right. by exists z. }
      destruct Hcase as [Hpos Hm Hv|Hz Hst Hh [Hm1 Hm2] Hsent _|t Hz Hst Hid Hor Hmb].
      - subst v1.
        assert (f ∈ stack v) as Hfs.
        { assert (lookupID v f ≠ 0) as Hf0 by lia.
          apply (wf_visited _ _ v Hw) in Hf0. apply elem_of_app in Hf0 as [|Hfe]; [done|].
          apply (wf_emitted _ _ v Hw) in Hfe. lia. }
        apply (Hstk f); [done|done|].
        destruct (hidden prog f) eqn:Hhf; [|done]. exfalso.
        destruct (ow_stack v Hov f Hfs Hhf) as (a & Ha & Haf & Hlt').
        assert (a = x) as ->; [|lia].
        apply (owned_unique a x f); try done.
        apply (wf_univ _ _ v Hw). apply elem_of_app. by left.
      - lia.
      - destruct (Hnewf Hz) as [[?|(z & Hzs & Hzh & Hmz)] _]; [lia|].
        by apply (Hstk z). }
    pose proof Hext as ([seg Hseg] & _).
    assert (stack v1 = s0 ++ x :: segs ++ seg) as Hs1.
    { rewrite Hseg, Hs. by rewrite <- app_assoc. }
    assert (seg = [] ∨ ∃ t, seg = f :: t ∧ lookupID v f = 0 ∧
                            stack v1 = stack v ++ f :: t ∧ lookupID v1 f = visitgen v + 1)
      as Hsegc.
    { destruct Hcase as [Hpos Hm Hv|Hz Hst Hh [Hm1 Hm2] Hsent _|t Hz Hst Hid Hor Hmb].
      - left. subst v1. rewrite <- (app_nil_r (stack v)) in Hseg at 1.
        by apply app_inv_head in Hseg.
      - left. rewrite Hseg in Hst. rewrite <- (app_nil_r (stack v)) in Hst at 2.
        by apply app_inv_head in Hst.
      - right. exists t. rewrite Hseg in Hst. apply app_inv_head in Hst. subst seg. done. }
    destruct (IHl Hov1) with (s0 := s0) (segs := segs ++ seg) as (Hov2 & Hsl2 & Hfin);
      try done.
    + intros g Hg. apply Hl. by right.
    + (* hidden closures of the segments *)
      intros c [Hc|Hc]%elem_of_app Hhc.
      * destruct (Hso c Hc Hhc) as (a & Ha & Hac & Hlt').
        exists a. split; [|split; [done|]].
        -- apply elem_of_cons in Ha as [->|Ha]; [by left|right].
           apply elem_of_app. by left.
        -- rewrite !Hkeep; [done| |].
           ++ rewrite Hs. apply elem_of_app. right. right. done.
           ++ rewrite Hs. apply elem_of_app. right. done.
      * destruct Hsegc as [->|(t & -> & Hz & Hst & Hid)]; [by apply elem_of_nil in Hc|].
        destruct (Hnewf Hz) as [_ Hk]. destruct (Hk t Hst) as [Hsof _].
        apply elem_of_cons in Hc as [->|Hct].
        -- exists x. split; [by left|]. split; [done|].
           rewrite Hkeep, Hid by done. lia.
        -- destruct (Hsof c Hct Hhc) as (a & Ha & Hac & Hlt').
           exists a. split; [|done]. right. apply elem_of_app. by right.
    + (* functions of the segments that are not hidden closures *)
      intros w [Hw'|Hw']%elem_of_app Hhw.
      * destruct (Hss w Hw' Hhw) as (z & Hzs & Hzh & Hz1 & Hz2).
        exists z. split; [rewrite Hseg; apply elem_of_app; by left|]. split; [done|].
        rewrite !Hkeep; [lia|rewrite Hs; apply elem_of_app; right; by right|done].
      * destruct Hsegc as [->|(t & -> & Hz & Hst & Hid)]; [by apply elem_of_nil in Hw'|].
        destruct (Hnewf Hz) as [_ Hk]. destruct (Hk t Hst) as [_ Hssf].
        destruct (Hssf w Hw' Hhw) as (z & Hzs & Hzh & Hz1 & Hz2).
        exists z. split; [done|]. split; [done|]. lia.
    + rewrite Hkeep by done.
      destruct Hsl1 as [?|(z & Hz0 & Hzh & Hm')]; [by left|right].
      exists z. split; [done|]. split; [done|]. by rewrite Hkeep0.
    + split; [done|]. split; [|done]. rewrite Hkeep in Hsl2 by done.
      destruct Hsl2 as [?|(z & Hz0 & Hzh & Hm')]; [by left|right].
      exists z. split; [done|]. split; [done|]. by rewrite <- Hkeep0.
Qed.

Lemma list_owned l : ∀ v v',
  VisitList prog l v v' → owned_visitor v → stack v = [] → roots_in univ l →
  owned_visitor v'.
Proof.
  intros v v' H. induction H as [v|n rest v v' Hskip _ IH|fn rest v m v1 v' Hh Hv _ IH];
    intros Hov Hs Hr.
  - done.
  - apply IH; try done. by apply Forall_inv_tail in Hr.
  - pose proof (Forall_inv Hr) as Hfn. simpl in Hfn. apply Forall_inv_tail in Hr.
    pose proof (ow_ok v Hov) as Hok.
    destruct (visit_cases fn v m v1 Hv Hok Hfn) as (Hok1 & _ & Hcase).
    assert (stack v1 = []) as Hs1.
    { destruct Hcase as [_ _ ->|Hz _ _ _ _ _|t Hz _ _ _ _]; [done| |].
      - by destruct (root_visit fn v m v1 Hv Hok Hfn Hs Hh Hz) as (_ & ? & _).
      - by destruct (root_visit fn v m v1 Hv Hok Hfn Hs Hh Hz) as (_ & ? & _). }
    apply IH; try done.
    apply (proj1 owned_mutual fn v m v1 Hv Hov Hfn). congruence.
Qed.


End Owned.

End Bounded.

(** ** Main results *)

Lemma scanStack_index n s : ∀ k ids i ids',
  scanStack n s k ids = (Some i, ids') → s !! i = Some n.
Proof.
  induction k as [|k IH]; intros ids i ids' H; simpl in H; [discriminate|].
  destruct (s !! k) as [x|] eqn:Hx; [|discriminate].
  destruct (decide (x = n)) as [->|Hne].
  - inversion H; subst. done.
  - eauto.
Qed.

(** The functions of different reports are different. *)
Lemma NoDup_concat_index (L : list (list Func)) : ∀ i j l l' x,
  NoDup (concat L) → L !! i = Some l → L !! j = Some l' → x ∈ l → x ∈ l' → i = j.
Proof.
  induction L as [|l0 L IH]; intros i j l l' x Hnd Hi Hj Hx Hx'; [done|].
  simpl in Hnd. apply NoDup_app in Hnd as (_ & Hd & Hnd).
  assert (∀ k l1, L !! k = Some l1 → x ∈ l1 → x ∈ concat L) as Hin.
  { intros k l1 Hk Hxl. apply list_elem_of_In, in_concat. exists l1.
    rewrite <- !list_elem_of_In. split; [|done]. by eapply list_elem_of_lookup_2. }
  destruct i as [|i], j as [|j]; simpl in *.
  - done.
  - inversion Hi; subst l0. exfalso. apply (Hd x Hx). by eapply Hin.
  - inversion Hj; subst l0. exfalso. apply (Hd x Hx'). by eapply Hin.
  - f_equal. by eapply IH.
Qed.

Lemma report_unique v B r B' r' x :
  NoDup (emitted v) → (B, r) ∈ analyzed v → (B', r') ∈ analyzed v →
  x ∈ B → x ∈ B' → (B, r) = (B', r').
Proof.
  intros Hnd [i Hi]%list_elem_of_lookup [j Hj]%list_elem_of_lookup Hx Hx'.
  assert (i = j) as ->; [|congruence].
  apply (NoDup_concat_index (analyzed v).*1 i j B B' x); try done.
  - by rewrite list_lookup_fmap, Hi.
  - by rewrite list_lookup_fmap, Hj.
Qed.

Section Run.

Variable prog : Program.
Variable univ : list Func.
Variable list : list Node.
Variable fuel : nat.
Hypothesis univ_closed : closed_universe prog univ.
Hypothesis list_in : roots_in univ list.
Hypothesis enough : (length univ < fuel)%nat.

(** With fuel beyond the size of the universe the run ends, and what the
    structural passes say holds of the visitor it leaves. *)
Lemma run_structure :
  ∃ v, visitBottomUp prog fuel list = Done v ∧
    wf_visitor prog univ v ∧ stack_held prog v ∧ reports_held prog v ∧ explored prog v ∧
    (∀ r, root prog list r → r ∈ emitted v ++ stack v) ∧
    (∀ u, u ∈ emitted v ++ stack v → ∃ r, root prog list r ∧ rtc (edge prog) r u).
Proof.
  pose proof (wf_newVisitor prog univ) as Hw0.
  destruct (visitList_terminates prog univ univ_closed fuel list newVisitor Hw0 list_in)
    as [v Hv].
  { pose proof (remaining_le univ newVisitor). lia. }
  exists v. split; [done|].
  apply visitList_sound in Hv.
  destruct (list_structure prog univ univ_closed list newVisitor v Hv Hw0 list_in)
    as (Hw & _ & Hsh & Hrh & He & Hvis & Hreach).
  { by intros c ?%elem_of_nil. }
  { by intros B r ?%elem_of_nil. }
  { by intros y ?%elem_of_nil. }
  do 4 (split; [done|]). split.
  - intros r Hr. apply Hvis in Hr. apply (wf_visited _ _ v Hw) in Hr.
    apply elem_of_app. apply elem_of_app in Hr. tauto.
  - intros u Hu.
    assert (lookupID v u ≠ 0) as Hu'.
    { apply (wf_visited _ _ v Hw). apply elem_of_app. apply elem_of_app in Hu. tauto. }
    destruct (Hreach u Hu') as [Hz|?]; [|done].
    exfalso. apply Hz. unfold lookupID. simpl. by rewrite lookup_empty.
Qed.

End Run.

(** What [visitBottomUp] reports on the programs above. *)
Example demo_reports :
  calls_of (visitBottomUp demo 6 demo_list)
  = Some [([5%positive], false); ([2%positive; 3%positive], true);
          ([1%positive; 4%positive], true)].
Proof. vm_compute. reflexivity. Qed.

Example mutual_recursion :
  calls_of (visitBottomUp
    (funcs [(1%positive, mkFunc false [call 2%positive]);
            (2%positive, mkFunc false [call 1%positive])])
    5 [DclFunc 1%positive; DclFunc 2%positive])
  = Some [([1%positive; 2%positive], true)].
Proof. vm_compute. reflexivity. Qed.

Lemma demo_closed : closed_universe demo demo_univ.
Proof. unfold closed_universe. apply (bool_decide_unpack _). vm_compute. exact I. Defined.

Lemma demo_roots : roots_in demo_univ demo_list.
Proof. unfold roots_in. apply (bool_decide_unpack _). vm_compute. exact I. Defined.


(** C7. A call of [visit] on a function whose recorded ordinal is not zero
    returns that ordinal at once and leaves the visitor as it is. Lines 74-79
    push the function they number on the stack, and closing a component only
    moves functions from the stack into a report, so the functions entered
    so far are those on the stack or in a report. On every finite call graph,
    whatever its cycles, [visitBottomUp] returns; lines 74-79 run for a
    function only while it is neither on the stack nor in a report, and the
    reports together with the stack hold no function twice: no function is
    entered twice. *)
Theorem visit_once_and_terminates prog univ list fuel :
  closed_universe prog univ → roots_in univ list → (length univ < fuel)%nat →
  (∀ k n v, 0 < lookupID v n → visit prog (S k) n v = Done (lookupID v n, v)) ∧
  (∀ n v, emitted (enter n v).2 ++ stack (enter n v).2 = (emitted v ++ stack v) ++ [n]) ∧
  (∀ h n id m v v', closeComponent h n id m v = Done v' →
     emitted v' ++ stack v' ≡ₚ emitted v ++ stack v) ∧
  ∃ v, visitBottomUp prog fuel list = Done v ∧ NoDup (emitted v ++ stack v) ∧
    ∀ k w, EntersList prog list newVisitor k w →
      lookupID w k = 0 ∧ k ∉ emitted w ++ stack w.
Proof.
  intros Hc Hr Hf. split; [|split; [|split]].
  - intros k n v Hpos. simpl. by rewrite bool_decide_eq_true_2.
  - intros n v. unfold emitted. simpl. by rewrite app_assoc.
  - intros h n id m v v' Hcl. unfold closeComponent in Hcl.
    destruct (isRoot h id m); [|by inversion Hcl].
    destruct (scanStack n (stack v) (length (stack v)) (nodeID v)) as [[i|] ids];
      [|discriminate].
    inversion Hcl; subst v'. unfold emitted. simpl.
    rewrite emitted_app. simpl. rewrite app_nil_r, <- app_assoc.
    apply Permutation_app_head.
    rewrite <- (take_drop i (stack v)) at 3. apply Permutation_app_comm.
  - destruct (run_structure prog univ list fuel Hc Hr Hf) as (v & Hv & Hw & _).
    exists v. split; [done|]. split.
    + pose proof (wf_nodup _ _ v Hw) as Hnd.
      by rewrite (Permutation_app_comm (emitted v) (stack v)).
    + intros k w He.
      destruct (entered_list prog univ Hc list newVisitor k w He) as (Hw' & Hz & _);
        [apply wf_newVisitor|done|].
      split; [done|]. intros Hin.
      apply (wf_visited _ _ w Hw' k); [|done].
      apply elem_of_app. apply elem_of_app in Hin. tauto.
Qed.

Lemma visit_once_and_terminates_witness :
  (∀ k n v, 0 < lookupID v n → visit demo (S k) n v = Done (lookupID v n, v)) ∧
  (∀ n v, emitted (enter n v).2 ++ stack (enter n v).2 = (emitted v ++ stack v) ++ [n]) ∧
  (∀ h n id m v v', closeComponent h n id m v = Done v' →
     emitted v' ++ stack v' ≡ₚ emitted v ++ stack v) ∧
  ∃ v, visitBottomUp demo 6 demo_list = Done v ∧ NoDup (emitted v ++ stack v) ∧
    ∀ k w, EntersList demo demo_list newVisitor k w →
      lookupID w k = 0 ∧ k ∉ emitted w ++ stack w.
Proof.
  apply (visit_once_and_terminates demo demo_univ demo_list 6 demo_closed demo_roots).
  vm_compute. lia.
Defined.

(** C10. Whenever [visit] on [n] calls [analyze], the list it passes is [n]
    followed by what stood above [n] on the stack, in stack order, and [n] is
    not a hidden closure; so every list passed during a run is non-empty and
    starts with a function that is not a hidden closure. *)
Theorem reports_start_with_root prog univ list fuel :
  closed_universe prog univ → roots_in univ list → (length univ < fuel)%nat →
  (∀ h n id m v v', closeComponent h n id m v = Done v' →
     v' = v ∨
     (h = false ∧ ∃ s0 t, stack v = s0 ++ n :: t ∧ stack v' = s0 ∧
        analyzed v' = analyzed v ++ [(n :: t, bool_decide (m = id))])) ∧
  ∃ v, visitBottomUp prog fuel list = Done v ∧
    ∀ B r, (B, r) ∈ analyzed v → ∃ h t, B = h :: t ∧ hidden prog h = false.
Proof.
  intros Hc Hr Hf. split.
  - intros h n id m v v' Hcl. unfold closeComponent in Hcl.
    destruct (isRoot h id m) eqn:Hroot; [|left; congruence]. right.
    unfold isRoot in Hroot. apply andb_true_iff in Hroot as [_ Hh].
    apply negb_true_iff in Hh. split; [done|].
    destruct (scanStack n (stack v) (length (stack v)) (nodeID v)) as [[i|] ids] eqn:Hscan;
      [|discriminate].
    inversion Hcl; subst v'. simpl. clear Hcl.
    pose proof (scanStack_index n (stack v) _ _ _ _ Hscan) as Hi.
    exists (take i (stack v)), (drop (S i) (stack v)).
    rewrite <- (drop_S _ _ _ Hi). by rewrite take_drop.
  - destruct (run_structure prog univ list fuel Hc Hr Hf) as (v & Hv & Hw & _).
    exists v. split; [done|]. apply (wf_heads _ _ v Hw).
Qed.

Lemma reports_start_with_root_witness :
  (∀ h n id m v v', closeComponent h n id m v = Done v' →
     v' = v ∨
     (h = false ∧ ∃ s0 t, stack v = s0 ++ n :: t ∧ stack v' = s0 ∧
        analyzed v' = analyzed v ++ [(n :: t, bool_decide (m = id))])) ∧
  ∃ v, visitBottomUp demo 6 demo_list = Done v ∧
    ∀ B r, (B, r) ∈ analyzed v → ∃ h t, B = h :: t ∧ hidden demo h = false.
Proof.
  apply (reports_start_with_root demo demo_univ demo_list 6 demo_closed demo_roots).
  vm_compute. lia.
Defined.


(** Where hidden closures are referred to from one function only, a function
    of the universe that refers to a hidden closure is reported together
    with the closure. *)
Lemma closure_with_holder prog univ v a c :
  closures_owned prog univ →
  wf_visitor prog univ v → stack_held prog v → reports_held prog v → explored prog v →
  a ∈ univ → edge prog a c → hidden prog c = true →
  ∀ B r, (B, r) ∈ analyzed v → (a ∈ B ↔ c ∈ B).
Proof.
  intros Hown Hw Hsh Hrh He Ha Hac Hhc B r HB.
  assert (NoDup (emitted v)) as Hnd.
  { pose proof (wf_nodup _ _ v Hw) as Hnd. by apply NoDup_app in Hnd as (_ & _ & ?). }
  assert (∀ B' r', (B', r') ∈ analyzed v → c ∈ B' → a ∈ B') as Hback.
  { intros B' r' HB' Hc. destruct (Hrh B' r' HB' c Hc Hhc) as (a' & Ha' & Ha'c).
    assert (a' = a) as ->; [|done].
    apply (owned_unique prog univ Hown a' a c); try done.
    apply (wf_univ _ _ v Hw). apply elem_of_app. right.
    apply elem_of_emitted. apply list_elem_of_lookup in HB' as [j Hj]. by exists j, B', r'. }
  split; [|by apply (Hback B r)].
  intros HaB.
  assert (a ∈ emitted v) as Hae.
  { apply elem_of_emitted. apply list_elem_of_lookup in HB as [j Hj]. by exists j, B, r. }
  pose proof (He a Hae c Hac) as Hcv. apply (wf_visited _ _ v Hw) in Hcv.
  apply elem_of_app in Hcv as [Hcs|Hce].
  - exfalso. destruct (Hsh c Hcs Hhc) as (a' & Ha' & Ha'c).
    assert (a' = a) as ->.
    { apply (owned_unique prog univ Hown a' a c); try done.
      apply (wf_univ _ _ v Hw). apply elem_of_app. by left. }
    pose proof (wf_nodup _ _ v Hw) as Hnd'. apply NoDup_app in Hnd' as (_ & Hd & _).
    by apply (Hd a).
  - apply elem_of_emitted in Hce as (j & B' & r' & Hj & HcB').
    assert ((B', r') ∈ analyzed v) as HB' by (by eapply list_elem_of_lookup_2).
    pose proof (Hback B' r' HB' HcB') as HaB'.
    pose proof (report_unique v B r B' r' a Hnd HB HB' HaB HaB') as Heq.
    by inversion Heq; subst.
Qed.


Lemma shared_closure_closed : closed_universe shared_closure shared_closure_univ.
Proof. unfold closed_universe. apply (bool_decide_unpack _). vm_compute. exact I. Defined.

(** What [visitBottomUp] reports on [shared_closure], for three lists of
    declarations. *)
Example shared_closure_reports :
  calls_of (visitBottomUp shared_closure 4 [DclFunc 1%positive])
    = Some [([1%positive; 2%positive; 3%positive], false)] ∧
  calls_of (visitBottomUp shared_closure 4 [DclFunc 1%positive; DclFunc 3%positive])
    = Some [([1%positive; 2%positive; 3%positive], false)] ∧
  calls_of (visitBottomUp shared_closure 4 [DclFunc 3%positive; DclFunc 1%positive])
    = Some [([3%positive; 2%positive], true); ([1%positive], false)].
Proof. vm_compute. done. Qed.

(** [shared_closure] is outside the programs in which every hidden closure
    is referred to from one function only; and with function 3 listed first
    its lists are not the components of the tied graph, in which functions
    1 and 3 reach each other through the closure. *)
Example shared_closure_tied :
  ¬ closures_owned shared_closure shared_closure_univ ∧
  rtc (tied shared_closure shared_closure_univ) 1%positive 3%positive ∧
  rtc (tied shared_closure shared_closure_univ) 3%positive 1%positive.
Proof.
  assert (edge shared_closure 1%positive 2%positive) as H12.
  { unfold edge. apply (bool_decide_unpack _). vm_compute. exact I. }
  assert (edge shared_closure 2%positive 3%positive) as H23.
  { unfold edge. apply (bool_decide_unpack _). vm_compute. exact I. }
  assert (edge shared_closure 3%positive 2%positive) as H32.
  { unfold edge. apply (bool_decide_unpack _). vm_compute. exact I. }
  split; [|split].
  - unfold closures_owned. apply (bool_decide_unpack _). vm_compute. exact I.
  - apply (rtc_l _ _ 2%positive); [by left|]. apply rtc_once. by left.
  - apply (rtc_l _ _ 2%positive); [by left|]. apply rtc_once. right.
    split; [|split; [exact H12|vm_compute; reflexivity]].
    apply (bool_decide_unpack _). vm_compute. exact I.
Qed.



Lemma demo_owned : closures_owned demo demo_univ.
Proof. unfold closures_owned. apply (bool_decide_unpack _). vm_compute. exact I. Defined.


Lemma visitList_app prog fuel l1 : ∀ l2 v,
  visitList prog fuel (l1 ++ l2) v =
  match visitList prog fuel l1 v with
  | Done v1 => visitList prog fuel l2 v1
  | Panic => Panic
  | OutOfFuel => OutOfFuel
  end.
Proof.
  induction l1 as [|n l1 IH]; intros l2 v; simpl; [done|].
  destruct n; try apply IH.
  destruct (IsHiddenClosure (prog fn)); [apply IH|].
  destruct (visit prog fuel fn v) as [[m v1]| |]; [apply IH|done|done].
Qed.

Section RunBounded.

Variable prog : Program.
Variable univ : list Func.
Variable list : list Node.
Variable fuel : nat.
Hypothesis univ_closed : closed_universe prog univ.
Hypothesis list_in : roots_in univ list.
Hypothesis univ_small : Z.of_nat (length univ) < 2 ^ 31.
Hypothesis enough : (length univ < fuel)%nat.

Lemma ok_newVisitor : ok_visitor prog univ newVisitor.
Proof.
  split; simpl.
  - apply wf_newVisitor.
  - done.
  - by intros n ?%elem_of_nil.
  - apply increasing_nil.
Qed.

(** Every part of a run leaves the stack empty. *)
Lemma run_prefix pre post :
  list = pre ++ post →
  ∃ v, visitList prog fuel pre newVisitor = Done v ∧
    ok_visitor prog univ v ∧ stack v = [] ∧
    reports_closed prog v ∧ reports_connected prog univ v.
Proof.
  intros Hl.
  assert (roots_in univ pre) as Hpre.
  { unfold roots_in in *. rewrite Hl in list_in. by apply Forall_app in list_in as [? _]. }
  pose proof (wf_newVisitor prog univ) as Hw0.
  destruct (visitList_terminates prog univ univ_closed fuel pre newVisitor Hw0 Hpre)
    as [v Hv].
  { pose proof (remaining_le univ newVisitor). lia. }
  exists v. split; [done|].
  apply visitList_sound in Hv.
  apply (list_bounded prog univ univ_closed univ_small pre newVisitor v Hv ok_newVisitor);
    try done.
  by intros B r ?%elem_of_nil.
Qed.

Lemma run_bounded :
  ∃ v, visitBottomUp prog fuel list = Done v ∧
    ok_visitor prog univ v ∧ stack v = [] ∧
    reports_closed prog v ∧ reports_connected prog univ v.
Proof. apply (run_prefix list []). by rewrite app_nil_r. Qed.

Lemma run_owned :
  closures_owned prog univ →
  ∃ v, visitBottomUp prog fuel list = Done v ∧ owned_visitor prog univ v.
Proof.
  intros Hown. destruct run_bounded as (v & Hv & _). exists v. split; [done|].
  apply visitList_sound in Hv.
  apply (list_owned prog univ univ_closed univ_small Hown list newVisitor v Hv); try done.
  split.
  - apply ok_newVisitor.
  - by intros i B r ?.
  - by intros c ?%elem_of_nil.
  - by intros B r ?%elem_of_nil.
Qed.

End RunBounded.

Lemma demo_small : Z.of_nat (length demo_univ) < 2 ^ 31.
Proof. vm_compute. reflexivity. Defined.

Lemma demo_fuel : (length demo_univ < 6)%nat.
Proof. vm_compute. lia. Defined.

(** [f] is a member of exactly one of the lists passed to [analyze]. *)
Definition reported_once (v : bottomUpVisitor) (f : Func) : Prop :=
  ∃ i B r, analyzed v !! i = Some (B, r) ∧ f ∈ B ∧
    ∀ j B' r', analyzed v !! j = Some (B', r') → f ∈ B' → j = i.

Lemma reported_once_intro v f :
  NoDup (emitted v) → f ∈ emitted v → reported_once v f.
Proof.
  intros Hnd (i & B & r & Hi & Hf)%elem_of_emitted.
  exists i, B, r. split; [done|]. split; [done|].
  intros j B' r' Hj Hf'.
  apply (NoDup_concat_index (analyzed v).*1 j i B' B f); try done.
  - by rewrite list_lookup_fmap, Hj.
  - by rewrite list_lookup_fmap, Hi.
Qed.

(** C1, as amended. With fewer than [2^31] function declarations, every
    function that the roots of the list (its declarations that are not hidden
    closures) reach through calls and closure literals is a member of exactly
    one of the lists passed to [analyze] by the time [visitBottomUp] returns,
    and no function occurs twice in those lists. *)
Theorem reachable_reported_once prog univ list fuel :
  closed_universe prog univ → roots_in univ list →
  Z.of_nat (length univ) < 2 ^ 31 → (length univ < fuel)%nat →
  ∃ v, visitBottomUp prog fuel list = Done v ∧ NoDup (emitted v) ∧
    ∀ r f, root prog list r → rtc (edge prog) r f → reported_once v f.
Proof.
  intros Hc Hr Hs Hf.
  destruct (run_structure prog univ list fuel Hc Hr Hf)
    as (v & Hv & Hw & _ & _ & He & Hroots & _).
  destruct (run_bounded prog univ list fuel Hc Hr Hs Hf) as (v' & Hv' & _ & Hst & _).
  rewrite Hv in Hv'. inversion Hv'; subst v'. clear Hv'.
  exists v. split; [done|].
  assert (NoDup (emitted v)) as Hnd.
  { pose proof (wf_nodup _ _ v Hw) as Hnd. by apply NoDup_app in Hnd as (_ & _ & ?). }
  split; [done|].
  intros r f Hroot Hpath. apply reported_once_intro; [done|].
  assert (r ∈ emitted v) as Hre.
  { apply Hroots in Hroot. rewrite Hst, app_nil_r in Hroot. done. }
  clear Hroot. induction Hpath as [r|r g f Hrg _ IH]; [done|].
  apply IH. pose proof (He r Hre g Hrg) as Hg.
  apply (wf_visited _ _ v Hw) in Hg. by rewrite Hst in Hg.
Qed.

Lemma reachable_reported_once_witness :
  ∃ v, visitBottomUp demo 6 demo_list = Done v ∧ NoDup (emitted v) ∧
    ∀ r f, root demo demo_list r → rtc (edge demo) r f → reported_once v f.
Proof.
  exact (reachable_reported_once demo demo_univ demo_list 6
           demo_closed demo_roots demo_small demo_fuel).
Defined.

(** C2, as amended. With fewer than [2^31] function declarations the calls
    of [analyze] come bottom-up: for every edge of the call graph, closure
    literals included, whose ends lie in two different lists, the list of the
    target is passed strictly before the list of the source. *)
Theorem callees_reported_first prog univ list fuel :
  closed_universe prog univ → roots_in univ list →
  Z.of_nat (length univ) < 2 ^ 31 → (length univ < fuel)%nat →
  ∃ v, visitBottomUp prog fuel list = Done v ∧
    ∀ i j Bi ri Bj rj a b,
      analyzed v !! i = Some (Bi, ri) → analyzed v !! j = Some (Bj, rj) →
      a ∈ Bi → b ∈ Bj → edge prog a b → i ≠ j → (j < i)%nat.
Proof.
  intros Hc Hr Hs Hf.
  destruct (run_bounded prog univ list fuel Hc Hr Hs Hf) as (v & Hv & Hok & _ & Hrc & _).
  exists v. split; [done|].
  intros i j Bi ri Bj rj a b Hi Hj Ha Hb Hab Hne.
  destruct (Hrc i Bi ri Hi a Ha b Hab) as (k & B' & r' & Hki & Hk & Hb').
  assert (k = j) as ->; [|lia].
  pose proof (wf_nodup _ _ v (ok_wf _ _ v Hok)) as Hnd.
  apply NoDup_app in Hnd as (_ & _ & Hnd).
  apply (NoDup_concat_index (analyzed v).*1 k j B' Bj b); try done.
  - by rewrite list_lookup_fmap, Hk.
  - by rewrite list_lookup_fmap, Hj.
Qed.

Lemma callees_reported_first_witness :
  ∃ v, visitBottomUp demo 6 demo_list = Done v ∧
    ∀ i j Bi ri Bj rj a b,
      analyzed v !! i = Some (Bi, ri) → analyzed v !! j = Some (Bj, rj) →
      a ∈ Bi → b ∈ Bj → edge demo a b → i ≠ j → (j < i)%nat.
Proof.
  exact (callees_reported_first demo demo_univ demo_list 6
           demo_closed demo_roots demo_small demo_fuel).
Defined.

(** C9, as amended. With fewer than [2^31] function declarations: when the
    loop of [visitBottomUp] reaches a declaration that is not a hidden closure
    the stack is empty; if the function is unvisited, its visit returns
    [min] equal to its ordinal [id] or to [id + 1], passes to [analyze] a
    list that starts with the function, and leaves the stack empty again; and
    the stack is empty when [visitBottomUp] returns. *)
Theorem top_level_visits_close prog univ list fuel :
  closed_universe prog univ → roots_in univ list →
  Z.of_nat (length univ) < 2 ^ 31 → (length univ < fuel)%nat →
  (∀ pre fn post, list = pre ++ DclFunc fn :: post → hidden prog fn = false →
     ∃ v, visitList prog fuel pre newVisitor = Done v ∧ stack v = [] ∧
       (lookupID v fn = 0 →
          ∃ m v', visit prog fuel fn v = Done (m, v') ∧
            (m = (enter fn v).1.1 ∨ m = (enter fn v).1.1 + 1) ∧
            stack v' = [] ∧
            ∃ a t, analyzed v' = a ++ [(fn :: t, bool_decide (m = (enter fn v).1.1))])) ∧
  ∃ v, visitBottomUp prog fuel list = Done v ∧ stack v = [].
Proof.
  intros Hc Hr Hs Hf. split.
  - intros pre fn post Hl Hh.
    destruct (run_prefix prog univ list fuel Hc Hr Hs Hf pre _ Hl)
      as (v & Hv & Hok & Hst & _).
    exists v. split; [done|]. split; [done|]. intros Hz.
    assert (fn ∈ univ) as Hfn.
    { apply (roots_in_lookup univ list); [done|]. rewrite Hl.
      apply elem_of_app. right. by left. }
    destruct (visit_terminates prog univ Hc fuel fn v (ok_wf _ _ v Hok) Hfn)
      as (m & v' & Hvis).
    { pose proof (remaining_le univ v). lia. }
    exists m, v'. split; [done|].
    destruct (enter_small prog univ Hs v fn Hok Hz Hfn) as [_ He]. rewrite He. simpl.
    apply visit_sound in Hvis.
    destruct (root_visit prog univ Hc Hs fn v m v' Hvis Hok Hfn Hst Hh Hz)
      as (_ & Hst' & Hm & Hlast).
    split; [lia|]. done.
  - destruct (run_bounded prog univ list fuel Hc Hr Hs Hf) as (v & Hv & _ & Hst & _).
    by exists v.
Qed.

Lemma top_level_visits_close_witness :
  (∀ pre fn post, demo_list = pre ++ DclFunc fn :: post → hidden demo fn = false →
     ∃ v, visitList demo 6 pre newVisitor = Done v ∧ stack v = [] ∧
       (lookupID v fn = 0 →
          ∃ m v', visit demo 6 fn v = Done (m, v') ∧
            (m = (enter fn v).1.1 ∨ m = (enter fn v).1.1 + 1) ∧
            stack v' = [] ∧
            ∃ a t, analyzed v' = a ++ [(fn :: t, bool_decide (m = (enter fn v).1.1))])) ∧
  ∃ v, visitBottomUp demo 6 demo_list = Done v ∧ stack v = [].
Proof.
  exact (top_level_visits_close demo demo_univ demo_list 6
           demo_closed demo_roots demo_small demo_fuel).
Defined.

(** ** Components and the recursive flag *)

(** A call between two members of a list. *)
Definition calls_within (prog : Program) (B : list Func) (a b : Func) : Prop :=
  a ∈ B ∧ b ∈ B ∧ edge prog a b.

(** The members of [B] contain a cycle of calls. *)
Definition has_cycle (prog : Program) (B : list Func) : Prop :=
  ∃ a, tc (calls_within prog B) a a.

Lemma tc_last {A} (R : relation A) a b : tc R a b → ∃ y, R y b.
Proof. induction 1 as [a b H|a c b _ _ IH]; [by exists a|done]. Qed.

Section Components.

Variable prog : Program.
Variable univ : list Func.
Variable v : bottomUpVisitor.
Hypothesis univ_closed : closed_universe prog univ.
Hypothesis v_wf : wf_visitor prog univ v.
Hypothesis v_closed : reports_closed prog v.

Lemma v_nodup : NoDup (emitted v).
Proof. pose proof (wf_nodup _ _ v v_wf) as Hnd. by apply NoDup_app in Hnd as (_ & _ & ?). Qed.

Lemma same_index i j B r B' r' x :
  analyzed v !! i = Some (B, r) → analyzed v !! j = Some (B', r') →
  x ∈ B → x ∈ B' → i = j.
Proof.
  intros Hi Hj Hx Hx'.
  apply (NoDup_concat_index (analyzed v).*1 i j B B' x); try done.
  - apply v_nodup.
  - by rewrite list_lookup_fmap, Hi.
  - by rewrite list_lookup_fmap, Hj.
Qed.

(** A path of calls that starts in a report ends in that report or in an
    earlier one; if it ends in the same report it never left it. *)
Lemma path_within a b :
  tc (edge prog) a b →
  ∀ i B r, analyzed v !! i = Some (B, r) → a ∈ B →
    ∃ j B' r', (j ≤ i)%nat ∧ analyzed v !! j = Some (B', r') ∧ b ∈ B' ∧
      (j = i → tc (calls_within prog B) a b).
Proof.
  induction 1 as [a b Hab|a c b Hac _ IH]; intros i B r Hi Ha.
  - destruct (v_closed i B r Hi a Ha b Hab) as (j & B' & r' & Hji & Hj & Hb).
    exists j, B', r'. do 3 (split; [done|]). intros ->.
    assert (B' = B) as -> by congruence. by apply tc_once.
  - destruct (v_closed i B r Hi a Ha c Hac) as (k & Bk & rk & Hki & Hk & Hc).
    destruct (IH k Bk rk Hk Hc) as (j & B' & r' & Hjk & Hj & Hb & Hin).
    exists j, B', r'. split; [lia|]. do 2 (split; [done|]). intros ->.
    assert (k = i) as -> by lia.
    assert (Bk = B) as -> by congruence.
    eapply tc_l; [|by apply Hin]. done.
Qed.

End Components.

Section Tied.

Variable prog : Program.
Variable univ : list Func.
Hypothesis univ_closed : closed_universe prog univ.
Hypothesis owned : closures_owned prog univ.

Lemma flag_iff_cycle v B r :
  owned_visitor prog univ v → reports_connected prog univ v →
  (B, r) ∈ analyzed v → (r = true ↔ has_cycle prog B).
Proof.
  intros Hov Hcon HB.
  pose proof (ow_ok _ _ v Hov) as Hok. pose proof (ok_wf _ _ v Hok) as Hw.
  split.
  - intros Hr. destruct (Hcon B r HB) as [_ Hcyc].
    destruct (Hcyc Hr) as (h & t & -> & Hp).
    pose proof HB as [i Hi]%list_elem_of_lookup.
    destruct (path_within prog v (ow_closed _ _ v Hov) h h Hp i _ r Hi)
      as (j & B' & r' & Hji & Hj & Hh & Hin); [by left|].
    exists h. apply Hin.
    apply (same_index prog univ v Hw j i B' r' (h :: t) r h); try done. by left.
  - intros [a Hcyc]. destruct r; [done|]. exfalso.
    destruct (ow_reports _ _ v Hov B false HB) as [_ Hrank].
    destruct (Hrank eq_refl) as [rank Hup].
    assert (∀ x y, tc (calls_within prog B) x y → rank x < rank y) as Hlt.
    { induction 1 as [x y (Hx & Hy & Hxy)|x y z (Hx & Hy & Hxy) _ IH].
      - by apply Hup.
      - pose proof (Hup x y Hx Hy Hxy). lia. }
    pose proof (Hlt a a Hcyc). lia.
Qed.

(** A path of the tied graph that starts in a report ends in that report or
    in an earlier one. *)
Lemma tied_down v a b :
  owned_visitor prog univ v → stack_held prog v → reports_held prog v → explored prog v →
  rtc (tied prog univ) a b →
  ∀ i B r, analyzed v !! i = Some (B, r) → a ∈ B →
    ∃ j B' r', (j ≤ i)%nat ∧ analyzed v !! j = Some (B', r') ∧ b ∈ B'.
Proof.
  intros Hov Hsh Hrh He Hp.
  pose proof (ow_ok _ _ v Hov) as Hok. pose proof (ok_wf _ _ v Hok) as Hw.
  induction Hp as [a|a c b Hac _ IH]; intros i B r Hi Ha.
  - by exists i, B, r.
  - assert (∃ k Bk rk, (k ≤ i)%nat ∧ analyzed v !! k = Some (Bk, rk) ∧ c ∈ Bk)
      as (k & Bk & rk & Hki & Hk & Hc).
    { destruct Hac as [Hac|(Hcu & Hca & Hha)].
      - by apply (ow_closed _ _ v Hov i B r Hi a Ha c Hac).
      - exists i, B, r. do 2 (split; [done|]).
        apply (closure_with_holder prog univ v c a owned Hw Hsh Hrh He Hcu Hca Hha B r);
          [by eapply list_elem_of_lookup_2|done]. }
    destruct (IH k Bk rk Hk Hc) as (j & B' & r' & Hjk & Hj & Hb).
    exists j, B', r'. split; [lia|done].
Qed.

(** A report is a strongly connected component of the tied graph. *)
Lemma component_iff v B r a b :
  owned_visitor prog univ v → reports_connected prog univ v →
  stack_held prog v → reports_held prog v → explored prog v →
  (B, r) ∈ analyzed v → a ∈ B →
  (b ∈ B ↔ rtc (tied prog univ) a b ∧ rtc (tied prog univ) b a).
Proof.
  intros Hov Hcon Hsh Hrh He HB Ha.
  pose proof (ow_ok _ _ v Hov) as Hok. pose proof (ok_wf _ _ v Hok) as Hw.
  split.
  - intros Hb. destruct (Hcon B r HB) as [Hreach _]. split; by apply Hreach.
  - intros [Hab Hba]. pose proof HB as [i Hi]%list_elem_of_lookup.
    destruct (tied_down v a b Hov Hsh Hrh He Hab i B r Hi Ha) as (j & B' & r' & Hji & Hj & Hb).
    destruct (tied_down v b a Hov Hsh Hrh He Hba j B' r' Hj Hb) as (k & Bk & rk & Hkj & Hk & Ha').
    assert (k = i) as -> by (by apply (same_index prog univ v Hw k i Bk rk B r a)).
    assert (j = i) as -> by lia.
    assert (B' = B) as -> by congruence. done.
Qed.

(** Without hidden closures the tied graph is the call graph. *)
Lemma tied_plain a b :
  (∀ u, u ∈ univ → hidden prog u = false) → a ∈ univ →
  rtc (tied prog univ) a b → rtc (edge prog) a b.
Proof.
  intros Hplain Ha Hp. induction Hp as [a|a c b Hac _ IH]; [apply rtc_refl|].
  destruct Hac as [Hac|(_ & _ & Hh)].
  - eapply rtc_l; [done|]. apply IH. by apply (univ_edge prog univ univ_closed a).
  - rewrite (Hplain a Ha) in Hh. discriminate.
Qed.


End Tied.

Section RunComponents.

Variable prog : Program.
Variable univ : list Func.
Variable list : list Node.
Variable fuel : nat.
Hypothesis univ_closed : closed_universe prog univ.
Hypothesis list_in : roots_in univ list.
Hypothesis owned : closures_owned prog univ.
Hypothesis univ_small : Z.of_nat (length univ) < 2 ^ 31.
Hypothesis enough : (length univ < fuel)%nat.

(** Everything the passes establish, of the one visitor a run leaves. *)
Lemma run_all :
  ∃ v, visitBottomUp prog fuel list = Done v ∧
    owned_visitor prog univ v ∧ stack v = [] ∧ reports_connected prog univ v ∧
    stack_held prog v ∧ reports_held prog v ∧ explored prog v ∧
    (∀ r, root prog list r → r ∈ emitted v) ∧
    (∀ u, u ∈ emitted v → ∃ r, root prog list r ∧ rtc (edge prog) r u).
Proof.
  destruct (run_structure prog univ list fuel univ_closed list_in enough)
    as (v & Hv & Hw & Hsh & Hrh & He & Hroots & Hreach).
  destruct (run_bounded prog univ list fuel univ_closed list_in univ_small enough)
    as (v1 & Hv1 & _ & Hst & _ & Hcon).
  destruct (run_owned prog univ list fuel univ_closed list_in univ_small enough owned)
    as (v2 & Hv2 & Hov).
  rewrite Hv in Hv1, Hv2. inversion Hv1; subst v1. inversion Hv2; subst v2.
  exists v. do 7 (split; [done|]). rewrite Hst, app_nil_r in Hroots, Hreach. done.
Qed.

End RunComponents.

(** C3, as amended. With fewer than [2^31] function declarations, and every
    hidden closure referred to from one function only: the flag passed with
    a list is [min == id] of the function that closes the component, and it
    is true exactly when the members of the list contain a cycle of calls.
    In particular a hidden closure that calls the function that refers to
    it, as the function holding its literal does, makes the flag of that
    function's list true, and a list made of a function and hidden closures,
    none of which calls the function, is passed with the flag false. *)
Theorem recursive_iff_cycle prog univ list fuel :
  closed_universe prog univ → roots_in univ list → closures_owned prog univ →
  Z.of_nat (length univ) < 2 ^ 31 → (length univ < fuel)%nat →
  (∀ h n id m v v', closeComponent h n id m v = Done v' →
     v' = v ∨ ∃ B, analyzed v' = analyzed v ++ [(B, bool_decide (m = id))]) ∧
  ∃ v, visitBottomUp prog fuel list = Done v ∧
    (∀ B r, (B, r) ∈ analyzed v → (r = true ↔ has_cycle prog B)) ∧
    (∀ B r f c, (B, r) ∈ analyzed v → f ∈ B →
       edge prog f c → hidden prog c = true → edge prog c f → r = true) ∧
    (∀ h t r, (h :: t, r) ∈ analyzed v →
       (∀ c, c ∈ t → hidden prog c = true) →
       (∀ y, y ∈ h :: t → ¬ edge prog y h) → r = false).
Proof.
  intros Hc Hr Hown Hs Hf. split.
  - intros h n id m v v' Hcl. unfold closeComponent in Hcl.
    destruct (isRoot h id m); [|left; congruence]. right.
    destruct (scanStack n (stack v) (length (stack v)) (nodeID v)) as [[i|] ids];
      [|discriminate].
    inversion Hcl; subst v'. simpl. by eexists.
  - destruct (run_all prog univ list fuel Hc Hr Hown Hs Hf)
      as (v & Hv & Hov & Hst & Hcon & Hsh & Hrh & He & _).
    pose proof (ow_ok _ _ v Hov) as Hok. pose proof (ok_wf _ _ v Hok) as Hw.
    exists v. split; [done|]. split; [|split].
    + intros B r HB. by apply (flag_iff_cycle prog univ v B r).
    + intros B r f c HB Hf' Hfc Hhc Hcf.
      apply (flag_iff_cycle prog univ v B r Hov Hcon HB).
      assert (f ∈ univ) as Hfu.
      { apply (wf_univ _ _ v Hw). apply elem_of_app. right. apply elem_of_emitted.
        apply list_elem_of_lookup in HB as [i Hi]. by exists i, B, r. }
      assert (c ∈ B) as Hc'.
      { by apply (closure_with_holder prog univ v f c Hown Hw Hsh Hrh He Hfu Hfc Hhc B r). }
      exists f. eapply tc_l; [|apply tc_once]; done.
    + intros h t r HB Hall Hno. destruct r; [|done]. exfalso.
      destruct (Hcon _ _ HB) as [_ Hcyc].
      destruct (Hcyc eq_refl) as (h' & t' & Heq & Hp). inversion Heq; subst h' t'.
      pose proof HB as [i Hi]%list_elem_of_lookup.
      destruct (path_within prog v (ow_closed _ _ v Hov) h h Hp i _ true Hi)
        as (j & B' & r' & Hji & Hj & Hh & Hin); [by left|].
      assert (j = i) as Hji'.
      { apply (same_index prog univ v Hw j i B' r' (h :: t) true h); try done. by left. }
      destruct (tc_last _ _ _ (Hin Hji')) as (y & Hy & _ & Hyh).
      by apply (Hno y).
Qed.

Lemma recursive_iff_cycle_witness :
  (∀ h n id m v v', closeComponent h n id m v = Done v' →
     v' = v ∨ ∃ B, analyzed v' = analyzed v ++ [(B, bool_decide (m = id))]) ∧
  ∃ v, visitBottomUp demo 6 demo_list = Done v ∧
    (∀ B r, (B, r) ∈ analyzed v → (r = true ↔ has_cycle demo B)) ∧
    (∀ B r f c, (B, r) ∈ analyzed v → f ∈ B →
       edge demo f c → hidden demo c = true → edge demo c f → r = true) ∧
    (∀ h t r, (h :: t, r) ∈ analyzed v →
       (∀ c, c ∈ t → hidden demo c = true) →
       (∀ y, y ∈ h :: t → ¬ edge demo y h) → r = false).
Proof.
  exact (recursive_iff_cycle demo demo_univ demo_list 6
           demo_closed demo_roots demo_owned demo_small demo_fuel).
Defined.

(** C5, as amended. With fewer than [2^31] function declarations, and every
    hidden closure referred to from one function only, every list passed to
    [analyze] is exactly a strongly connected component of the call graph in
    which each hidden closure is tied back to the function that refers to
    it; for a program without hidden closures that is a strongly connected
    component of the call graph itself. *)
Theorem reports_are_components prog univ list fuel :
  closed_universe prog univ → roots_in univ list → closures_owned prog univ →
  Z.of_nat (length univ) < 2 ^ 31 → (length univ < fuel)%nat →
  ∃ v, visitBottomUp prog fuel list = Done v ∧
    (∀ B r a b, (B, r) ∈ analyzed v → a ∈ B →
       (b ∈ B ↔ rtc (tied prog univ) a b ∧ rtc (tied prog univ) b a)) ∧
    ((∀ u, u ∈ univ → hidden prog u = false) →
     ∀ B r a b, (B, r) ∈ analyzed v → a ∈ B →
       (b ∈ B ↔ rtc (edge prog) a b ∧ rtc (edge prog) b a)).
Proof.
  intros Hc Hr Hown Hs Hf.
  destruct (run_all prog univ list fuel Hc Hr Hown Hs Hf)
    as (v & Hv & Hov & Hst & Hcon & Hsh & Hrh & He & _).
  pose proof (ow_ok _ _ v Hov) as Hok. pose proof (ok_wf _ _ v Hok) as Hw.
  exists v. split; [done|]. split.
  - intros B r a b HB Ha. by apply (component_iff prog univ Hown v B r a b).
  - intros Hplain B r a b HB Ha.
    rewrite (component_iff prog univ Hown v B r a b Hov Hcon Hsh Hrh He HB Ha).
    assert (∀ x, x ∈ B → x ∈ univ) as HBu.
    { intros x Hx. apply (wf_univ _ _ v Hw). apply elem_of_app. right.
      apply elem_of_emitted. apply list_elem_of_lookup in HB as [i Hi]. by exists i, B, r. }
    split.
    + intros [Hab Hba].
      assert (b ∈ B) as Hb.
      { by apply (component_iff prog univ Hown v B r a b Hov Hcon Hsh Hrh He HB Ha). }
      split; apply (tied_plain prog univ Hc); auto.
    + intros [Hab Hba]. split; by apply rtc_edge_tied.
Qed.

Lemma reports_are_components_witness :
  (∃ v, visitBottomUp demo 6 demo_list = Done v ∧
    (∀ B r a b, (B, r) ∈ analyzed v → a ∈ B →
       (b ∈ B ↔ rtc (tied demo demo_univ) a b ∧ rtc (tied demo demo_univ) b a)) ∧
    ((∀ u, u ∈ demo_univ → hidden demo u = false) →
     ∀ B r a b, (B, r) ∈ analyzed v → a ∈ B →
       (b ∈ B ↔ rtc (edge demo) a b ∧ rtc (edge demo) b a))) ∧
  (∃ v, visitBottomUp plain 6 plain_list = Done v ∧
    (∀ B r a b, (B, r) ∈ analyzed v → a ∈ B →
       (b ∈ B ↔ rtc (tied plain plain_univ) a b ∧ rtc (tied plain plain_univ) b a)) ∧
    ((∀ u, u ∈ plain_univ → hidden plain u = false) →
     ∀ B r a b, (B, r) ∈ analyzed v → a ∈ B →
       (b ∈ B ↔ rtc (edge plain) a b ∧ rtc (edge plain) b a))).
Proof.
  split.
  { exact (reports_are_components demo demo_univ demo_list 6
             demo_closed demo_roots demo_owned demo_small demo_fuel). }
  apply (reports_are_components plain plain_univ plain_list 6).
  - unfold closed_universe. apply (bool_decide_unpack _). vm_compute. exact I.
  - unfold roots_in. apply (bool_decide_unpack _). vm_compute. exact I.
  - unfold closures_owned. apply (bool_decide_unpack _). vm_compute. exact I.
  - vm_compute. reflexivity.
  - vm_compute. lia.
Defined.

(** ** Two runs over one call graph *)

(** Two programs show the traversal the same call graph on [univ]: the same
    functions are hidden closures, and each function has the same targets,
    possibly enumerated in another order. *)
Definition same_graph (prog1 prog2 : Program) (univ : list Func) : Prop :=
  Forall (λ f, hidden prog1 f = hidden prog2 f ∧ callees prog1 f ≡ₚ callees prog2 f) univ.

(** What a run establishes of the visitor it leaves. *)
Definition settled (prog : Program) (univ : list Func) (list : list Node)
    (v : bottomUpVisitor) : Prop :=
  owned_visitor prog univ v ∧ stack v = [] ∧ reports_connected prog univ v ∧
  stack_held prog v ∧ reports_held prog v ∧ explored prog v ∧
  (∀ r, root prog list r → r ∈ emitted v) ∧
  (∀ u, u ∈ emitted v → ∃ r, root prog list r ∧ rtc (edge prog) r u).

Lemma same_graph_sym prog1 prog2 univ : same_graph prog1 prog2 univ → same_graph prog2 prog1 univ.
Proof.
  unfold same_graph. rewrite !Forall_forall. intros H f Hf.
  destruct (H f Hf) as [Hh Hp]. split; [done|by symmetry].
Qed.

Lemma NoDup_concat_elem (L : list (list Func)) l : NoDup (concat L) → l ∈ L → NoDup l.
Proof.
  induction L as [|l0 L IH]; intros Hnd Hl; [by apply elem_of_nil in Hl|].
  simpl in Hnd. apply NoDup_app in Hnd as (Hl0 & _ & HL).
  apply elem_of_cons in Hl as [->|Hl]; [done|by apply IH].
Qed.

Section SameGraph.

Variable prog1 prog2 : Program.
Variable univ : list Func.
Hypothesis univ_closed : closed_universe prog1 univ.
Hypothesis same : same_graph prog1 prog2 univ.

Lemma sg_hidden u : u ∈ univ → hidden prog1 u = hidden prog2 u.
Proof.
  intros Hu. unfold same_graph in same. rewrite Forall_forall in same.
  by destruct (same u Hu).
Qed.

Lemma sg_edge a b : a ∈ univ → edge prog1 a b ↔ edge prog2 a b.
Proof.
  intros Ha. unfold same_graph in same. rewrite Forall_forall in same.
  destruct (same a Ha) as [_ Hp]. unfold edge. by rewrite Hp.
Qed.

Lemma sg_closed : closed_universe prog2 univ.
Proof.
  unfold closed_universe. rewrite Forall_forall. intros a Ha.
  rewrite Forall_forall. intros b Hb.
  apply (univ_edge prog1 univ univ_closed a); [done|]. by apply sg_edge.
Qed.

Lemma sg_owned : closures_owned prog1 univ → closures_owned prog2 univ.
Proof.
  intros Hown. unfold closures_owned. rewrite Forall_forall. intros a Ha.
  rewrite Forall_forall. intros b Hb. rewrite Forall_forall. intros c Hac Hbc Hhc.
  assert (c ∈ univ) as Hcu.
  { apply (univ_edge prog1 univ univ_closed a); [done|]. by apply sg_edge. }
  apply (owned_unique prog1 univ Hown a b c); try done.
  - by apply sg_edge.
  - by apply sg_edge.
  - by rewrite sg_hidden.
Qed.

Lemma sg_path a b : a ∈ univ → rtc (edge prog1) a b → rtc (edge prog2) a b.
Proof.
  intros Ha Hp. induction Hp as [a|a c b Hac _ IH]; [apply rtc_refl|].
  eapply rtc_l; [by apply sg_edge|]. apply IH.
  by apply (univ_edge prog1 univ univ_closed a).
Qed.

Lemma sg_tied a b : a ∈ univ → rtc (tied prog1 univ) a b → rtc (tied prog2 univ) a b.
Proof.
  intros Ha Hp. induction Hp as [a|a c b Hac _ IH]; [apply rtc_refl|].
  destruct Hac as [Hac|(Hcu & Hca & Hh)].
  - eapply rtc_l; [left; by apply sg_edge|]. apply IH.
    by apply (univ_edge prog1 univ univ_closed a).
  - eapply rtc_l; [|by apply IH]. right. split; [done|].
    split; [by apply sg_edge|by rewrite <- sg_hidden].
Qed.

Lemma sg_cycle B B' :
  (∀ x, x ∈ B → x ∈ univ) → (∀ x, x ∈ B → x ∈ B') →
  has_cycle prog1 B → has_cycle prog2 B'.
Proof.
  intros HBu Hsub [a Hcyc]. exists a.
  assert (∀ x y, tc (calls_within prog1 B) x y → tc (calls_within prog2 B') x y) as Hmono.
  { induction 1 as [x y (Hx & Hy & Hxy)|x y z (Hx & Hy & Hxy) _ IH].
    - apply tc_once. split; [auto|]. split; [auto|]. apply sg_edge; auto.
    - eapply tc_l; [|exact IH]. split; [auto|]. split; [auto|]. apply sg_edge; auto. }
  by apply Hmono.
Qed.

Lemma sg_root list1 list2 r :
  roots_in univ list1 → list1 ≡ₚ list2 → root prog1 list1 r → root prog2 list2 r.
Proof.
  intros Hin Hperm [Hr Hh]. split; [by rewrite <- Hperm|].
  rewrite <- sg_hidden; [done|]. by apply (roots_in_lookup univ list1).
Qed.

End SameGraph.

(** Once the stack is empty, what the reported functions reach is reported. *)
Lemma emitted_closed prog univ v a b :
  wf_visitor prog univ v → explored prog v → stack v = [] →
  rtc (edge prog) a b → a ∈ emitted v → b ∈ emitted v.
Proof.
  intros Hw He Hst Hp. induction Hp as [a|a c b Hac _ IH]; [done|].
  intros Ha. apply IH. pose proof (He a Ha c Hac) as Hc.
  apply (wf_visited _ _ v Hw) in Hc. by rewrite Hst in Hc.
Qed.

(** Every report of a run over a call graph is, up to the order of its
    members and with the same flag, a report of any other run over it. *)
Lemma reports_transfer prog1 prog2 univ list1 list2 v1 v2 :
  closed_universe prog1 univ → closures_owned prog1 univ →
  same_graph prog1 prog2 univ → roots_in univ list1 → list1 ≡ₚ list2 →
  settled prog1 univ list1 v1 → settled prog2 univ list2 v2 →
  ∀ B r, (B, r) ∈ analyzed v1 → ∃ B', (B', r) ∈ analyzed v2 ∧ B ≡ₚ B'.
Proof.
  intros Hc Hown Hsame Hin Hperm
    (Hov1 & Hst1 & Hcon1 & Hsh1 & Hrh1 & He1 & Hroots1 & Hreach1)
    (Hov2 & Hst2 & Hcon2 & Hsh2 & Hrh2 & He2 & Hroots2 & Hreach2) B r HB.
  pose proof (ow_ok _ _ v1 Hov1) as Hok1. pose proof (ok_wf _ _ v1 Hok1) as Hw1.
  pose proof (ow_ok _ _ v2 Hov2) as Hok2. pose proof (ok_wf _ _ v2 Hok2) as Hw2.
  pose proof (sg_closed prog1 prog2 univ Hc Hsame) as Hc2.
  pose proof (sg_owned prog1 prog2 univ Hc Hsame Hown) as Hown2.
  pose proof (same_graph_sym _ _ _ Hsame) as Hsame'.
  assert (∀ x, x ∈ B → x ∈ univ) as HBu.
  { intros x Hx. apply (wf_univ _ _ v1 Hw1). apply elem_of_app. right.
    apply elem_of_emitted. apply list_elem_of_lookup in HB as [i Hi]. by exists i, B, r. }
  destruct (wf_heads _ _ v1 Hw1 B r HB) as (h & t & -> & _).
  assert (h ∈ emitted v1) as Hh1.
  { apply elem_of_emitted. apply list_elem_of_lookup in HB as [i Hi].
    exists i, (h :: t), r. split; [done|by left]. }
  destruct (Hreach1 h Hh1) as (r0 & Hroot & Hpath).
  assert (r0 ∈ univ) as Hr0 by (destruct Hroot; by apply (roots_in_lookup univ list1)).
  assert (h ∈ emitted v2) as Hh2.
  { apply (sg_root prog1 prog2 univ Hsame list1 list2 r0 Hin Hperm) in Hroot.
    apply Hroots2 in Hroot. apply (sg_path prog1 prog2 univ Hc Hsame) in Hpath; [|done].
    by apply (emitted_closed prog2 univ v2 r0 h). }
  apply elem_of_emitted in Hh2 as (j & B' & r' & Hj & HhB').
  assert ((B', r') ∈ analyzed v2) as HB' by (by eapply list_elem_of_lookup_2).
  assert (∀ x, x ∈ B' → x ∈ univ) as HB'u.
  { intros x Hx. apply (wf_univ _ _ v2 Hw2). apply elem_of_app. right.
    apply elem_of_emitted. by exists j, B', r'. }
  assert (h ∈ univ) as Hhu by (apply HBu; by left).
  assert (∀ b, b ∈ h :: t ↔ b ∈ B') as Hmem.
  { intros b.
    rewrite (component_iff prog1 univ Hown v1 (h :: t) r h b Hov1 Hcon1 Hsh1 Hrh1 He1 HB)
      by (by left).
    rewrite (component_iff prog2 univ Hown2 v2 B' r' h b Hov2 Hcon2 Hsh2 Hrh2 He2 HB' HhB').
    split; intros [Hhb Hbh].
    - assert (b ∈ univ) as Hbu.
      { apply HBu.
        by apply (component_iff prog1 univ Hown v1 (h :: t) r h b Hov1 Hcon1 Hsh1 Hrh1 He1 HB);
          [by left|]. }
      split; by apply (sg_tied prog1 prog2 univ Hc Hsame).
    - assert (b ∈ univ) as Hbu.
      { apply HB'u.
        by apply (component_iff prog2 univ Hown2 v2 B' r' h b Hov2 Hcon2 Hsh2 Hrh2 He2 HB'). }
      split; by apply (sg_tied prog2 prog1 univ Hc2 Hsame'). }
  assert (r = r') as <-.
  { pose proof (flag_iff_cycle prog1 univ v1 (h :: t) r Hov1 Hcon1 HB) as H1.
    pose proof (flag_iff_cycle prog2 univ v2 B' r' Hov2 Hcon2 HB') as H2.
    assert (has_cycle prog1 (h :: t) ↔ has_cycle prog2 B') as Hcyc.
    { split.
      - apply (sg_cycle prog1 prog2 univ Hsame); [done|]. intros x. by apply Hmem.
      - apply (sg_cycle prog2 prog1 univ Hsame'); [done|]. intros x. by apply Hmem. }
    destruct r, r'; try done.
    - symmetry. apply H2, Hcyc, H1. done.
    - apply H1, Hcyc, H2. done. }
  exists B'. split; [done|].
  apply NoDup_Permutation; [| |done].
  - apply (NoDup_concat_elem (analyzed v1).*1); [apply (v_nodup prog1 univ v1 Hw1)|].
    apply list_elem_of_fmap. by exists (h :: t, r).
  - apply (NoDup_concat_elem (analyzed v2).*1); [apply (v_nodup prog2 univ v2 Hw2)|].
    apply list_elem_of_fmap. by exists (B', r).
Qed.

(** C8, as amended. With fewer than [2^31] function declarations, and every
    hidden closure referred to from one function only: two runs,
    each from a fresh visitor, over the same call graph pass the same
    components to [analyze], with the same members and the same flag,
    whatever the order of the list of declarations and the order in which
    the targets of each function are enumerated. *)
Theorem partition_independent_of_order prog1 prog2 univ list1 list2 fuel1 fuel2 :
  closed_universe prog1 univ → roots_in univ list1 → closures_owned prog1 univ →
  same_graph prog1 prog2 univ → list1 ≡ₚ list2 →
  Z.of_nat (length univ) < 2 ^ 31 →
  (length univ < fuel1)%nat → (length univ < fuel2)%nat →
  ∃ v1 v2,
    visitBottomUp prog1 fuel1 list1 = Done v1 ∧
    visitBottomUp prog2 fuel2 list2 = Done v2 ∧
    (∀ B r, (B, r) ∈ analyzed v1 → ∃ B', (B', r) ∈ analyzed v2 ∧ B ≡ₚ B') ∧
    (∀ B r, (B, r) ∈ analyzed v2 → ∃ B', (B', r) ∈ analyzed v1 ∧ B ≡ₚ B').
Proof.
  intros Hc Hin Hown Hsame Hperm Hs Hf1 Hf2.
  pose proof (sg_closed prog1 prog2 univ Hc Hsame) as Hc2.
  pose proof (sg_owned prog1 prog2 univ Hc Hsame Hown) as Hown2.
  assert (roots_in univ list2) as Hin2 by (unfold roots_in; by rewrite <- Hperm).
  destruct (run_all prog1 univ list1 fuel1 Hc Hin Hown Hs Hf1) as (v1 & Hv1 & Hset1).
  destruct (run_all prog2 univ list2 fuel2 Hc2 Hin2 Hown2 Hs Hf2) as (v2 & Hv2 & Hset2).
  exists v1, v2. do 2 (split; [done|]). split.
  - by apply (reports_transfer prog1 prog2 univ list1 list2 v1 v2).
  - apply (reports_transfer prog2 prog1 univ list2 list1 v2 v1); try done.
    by apply same_graph_sym.
Qed.

Lemma partition_independent_of_order_witness :
  ∃ v1 v2,
    visitBottomUp demo 6 demo_list = Done v1 ∧
    visitBottomUp demo_reordered 7 demo_list_reordered = Done v2 ∧
    (∀ B r, (B, r) ∈ analyzed v1 → ∃ B', (B', r) ∈ analyzed v2 ∧ B ≡ₚ B') ∧
    (∀ B r, (B, r) ∈ analyzed v2 → ∃ B', (B', r) ∈ analyzed v1 ∧ B ≡ₚ B').
Proof.
  apply (partition_independent_of_order demo demo_reordered demo_univ
           demo_list demo_list_reordered 6 7 demo_closed demo_roots demo_owned).
  - unfold same_graph. apply (bool_decide_unpack _). vm_compute. exact I.
  - apply (bool_decide_unpack _). vm_compute. exact I.
  - exact demo_small.
  - exact demo_fuel.
  - vm_compute. lia.
Defined.

(** C6, as amended. A visit that returns the sentinel never lowers [min].
    With fewer than [2^31] function declarations, every ordinal the counter
    issues during a run, the [id] and the seed of [min] of each function at
    its first visit, is positive and strictly below the sentinel
    [^uint32(0)]. *)
Theorem ordinals_below_sentinel prog univ list fuel :
  closed_universe prog univ → roots_in univ list →
  Z.of_nat (length univ) < 2 ^ 31 → (length univ < fuel)%nat →
  (∀ min, 0 ≤ min < 2 ^ 32 →
     (if bool_decide (sentinel < min) then sentinel else min) = min) ∧
  ∃ v, visitBottomUp prog fuel list = Done v ∧
    ∀ k w, EntersList prog list newVisitor k w →
      0 < (enter k w).1.1 < sentinel ∧ 0 < (enter k w).1.2 < sentinel.
Proof.
  intros Hc Hr Hs Hf. split.
  - intros min Hmin. rewrite bool_decide_eq_false_2; [done|]. pow_lia.
  - destruct (run_bounded prog univ list fuel Hc Hr Hs Hf) as (v & Hv & _).
    exists v. split; [done|]. intros k w He.
    destruct (enters_list prog univ Hc Hs list newVisitor k w He) as (Hok & Hz & Hk);
      [apply ok_newVisitor|done|].
    destruct (enter_small prog univ Hs w k Hok Hz Hk) as [Hlt Heq].
    rewrite Heq. simpl. pose proof (ok_gen_bound prog univ Hs w Hok). lia.
Qed.

Lemma ordinals_below_sentinel_witness :
  (∀ min, 0 ≤ min < 2 ^ 32 →
     (if bool_decide (sentinel < min) then sentinel else min) = min) ∧
  ∃ v, visitBottomUp demo 6 demo_list = Done v ∧
    ∀ k w, EntersList demo demo_list newVisitor k w →
      0 < (enter k w).1.1 < sentinel ∧ 0 < (enter k w).1.2 < sentinel.
Proof.
  exact (ordinals_below_sentinel demo demo_univ demo_list 6
           demo_closed demo_roots demo_small demo_fuel).
Defined.

(** ** Runs that exhaust the counter

    After [2^31 - 1] first visits the counter stands at [2^32 - 2]: the next
    function receives the ordinal [2^32 - 1], which is the sentinel, and the
    seed [0] for [min]. The runs below get there through a long list of
    functions that call nothing. *)

(** [k] consecutive functions from [start] on. *)
Fixpoint pos_range (start : positive) (k : nat) : list Func :=
  match k with
  | O => []
  | S k' => start :: pos_range (Pos.succ start) k'
  end.

(** The visitor after the top-level visit of an unvisited function that is
    not a hidden closure and whose body holds no call. *)
Definition leaf_done (n : Func) (v : bottomUpVisitor) : bottomUpVisitor :=
  {| visitgen := u32 (u32 (visitgen v + 1) + 1);
     nodeID := <[n := sentinel]> (nodeID v);
     stack := stack v;
     analyzed := analyzed v ++ [([n], false)] |}.

Definition leaves (l : list Func) (v : bottomUpVisitor) : bottomUpVisitor :=
  foldl (λ v n, leaf_done n v) v l.

Lemma pos_range_bounds k : ∀ start p,
  p ∈ pos_range start k → Z.pos start ≤ Z.pos p < Z.pos start + Z.of_nat k.
Proof.
  induction k as [|k IH]; intros start p Hp; [by apply elem_of_nil in Hp|].
  simpl in Hp. apply elem_of_cons in Hp as [->|Hp]; [lia|].
  apply IH in Hp. lia.
Qed.

Lemma pos_range_NoDup k : ∀ start, NoDup (pos_range start k).
Proof.
  induction k as [|k IH]; intros start; simpl; constructor; [|apply IH].
  intros Hin. apply pos_range_bounds in Hin. lia.
Qed.

Lemma visit_leaf prog f n v :
  Body (prog n) = [] → IsHiddenClosure (prog n) = false → lookupID v n = 0 →
  visit prog (S f) n v = Done (u32 (u32 (visitgen v + 1) + 1), leaf_done n v).
Proof.
  intros Hb Hh Hz. simpl. rewrite bool_decide_eq_false_2 by lia.
  rewrite Hb, Hh. simpl. unfold closeComponent, isRoot. simpl.
  rewrite (bool_decide_eq_true_2 (u32 (u32 (visitgen v + 1) + 1) = u32 (u32 (visitgen v + 1) + 1)))
    by done.
  rewrite orb_true_r. simpl.
  destruct (scanStack_found n (stack v) [] [] (<[n:=u32 (visitgen v + 1)]> (nodeID v)))
    as (ids' & Hscan & Hlk); [by intros ?%elem_of_nil|].
  simpl in Hscan. rewrite length_app. simpl length.
  replace (length (stack v) + 1 + 0)%nat with (length (stack v) + 1)%nat in Hscan by lia.
  rewrite Hscan.
  assert (ids' = <[n:=u32 (visitgen v + 1)]> (nodeID v)) as ->.
  { apply map_eq. intros u. rewrite Hlk. rewrite decide_False; [done|].
    by intros ?%elem_of_nil. }
  rewrite insert_insert_eq. rewrite take_app_length, drop_app_length.
  rewrite bool_decide_eq_false_2; [done|].
  pose proof (u32_range (visitgen v + 1)). u32_lia.
Qed.

Lemma lookupID_leaf_done n v u : u ≠ n → lookupID (leaf_done n v) u = lookupID v u.
Proof. intros Hne. unfold lookupID. simpl. by rewrite lookup_insert_ne. Qed.

Lemma visitList_leaves prog f l : ∀ rest v,
  (∀ n, n ∈ l → Body (prog n) = [] ∧ IsHiddenClosure (prog n) = false) →
  NoDup l → (∀ n, n ∈ l → lookupID v n = 0) →
  visitList prog (S f) (map DclFunc l ++ rest) v = visitList prog (S f) rest (leaves l v).
Proof.
  induction l as [|n l IH]; intros rest v Hleaf Hnd Hz; [done|].
  apply NoDup_cons in Hnd as [Hnl Hnd].
  destruct (Hleaf n) as [Hb Hh]; [by left|].
  cbn [map app visitList]. rewrite Hh.
  rewrite (visit_leaf prog f n v Hb Hh) by (apply Hz; by left).
  cbn [leaves foldl]. apply IH; [|done|].
  - intros m Hm. apply Hleaf. by right.
  - intros m Hm. rewrite lookupID_leaf_done; [apply Hz; by right|].
    intros ->. done.
Qed.

Lemma leaves_cons n l v : leaves (n :: l) v = leaves l (leaf_done n v).
Proof. reflexivity. Qed.

Lemma leaves_stack l : ∀ v, stack (leaves l v) = stack v.
Proof. induction l as [|n l IH]; intros v; [done|]. by rewrite leaves_cons, IH. Qed.

Lemma leaves_analyzed l : ∀ v,
  analyzed (leaves l v) = analyzed v ++ map (λ n, ([n], false)) l.
Proof.
  induction l as [|n l IH]; intros v; [by rewrite app_nil_r|].
  rewrite leaves_cons, IH. simpl. by rewrite <- app_assoc.
Qed.

Lemma u32_add_l a b : u32 (u32 a + b) = u32 (a + b).
Proof. unfold u32. by rewrite Z.add_mod_idemp_l by lia. Qed.

Lemma leaves_visitgen l : ∀ v,
  0 ≤ visitgen v < 2 ^ 32 →
  visitgen (leaves l v) = u32 (visitgen v + 2 * Z.of_nat (length l)).
Proof.
  induction l as [|n l IH]; intros v Hv.
  - simpl. rewrite Z.add_0_r. by rewrite u32_small.
  - rewrite leaves_cons, IH by (simpl; apply u32_range).
    simpl visitgen. cbn [length]. rewrite u32_add_l.
    rewrite <- Z.add_assoc. rewrite u32_add_l. f_equal. lia.
Qed.

Lemma leaves_lookup l : ∀ v u,
  nodeID (leaves l v) !! u = if decide (u ∈ l) then Some sentinel else nodeID v !! u.
Proof.
  induction l as [|n l IH]; intros v u.
  - destruct (decide (u ∈ [])) as [H|H]; [by apply elem_of_nil in H|done].
  - rewrite leaves_cons, IH. simpl nodeID.
    destruct (decide (u ∈ l)) as [Hu|Hu].
    + rewrite decide_True; [done|by right].
    + destruct (decide (u = n)) as [->|Hne].
      * rewrite lookup_insert_eq. rewrite decide_True; [done|by left].
      * rewrite lookup_insert_ne by done. rewrite decide_False; [done|].
        by intros [?|?]%elem_of_cons.
Qed.

(** The list of declarations of such a run: [k] functions that call
    nothing, then the function [X]. *)
Definition leaves_then (k : nat) (X : Func) : list Node :=
  map DclFunc (pos_range 1 k) ++ [DclFunc X].

(** The visitor after the [k] functions that call nothing. *)
Lemma leaves_run prog f k rest :
  (∀ n, n ∈ pos_range 1 k → Body (prog n) = [] ∧ IsHiddenClosure (prog n) = false) →
  visitList prog (S f) (map DclFunc (pos_range 1 k) ++ rest) newVisitor
  = visitList prog (S f) rest (leaves (pos_range 1 k) newVisitor).
Proof.
  intros Hleaf. apply visitList_leaves; [done|apply pos_range_NoDup|].
  intros n _. unfold lookupID. simpl. by rewrite lookup_empty.
Qed.

(** A function that calls itself, among functions that call nothing. *)
Definition loop_at (X : Func) : Program :=
  fun f => if decide (f = X) then mkFunc false [call X] else mkFunc false [].

Lemma visit_first prog f n v :
  lookupID v n = 0 →
  visit prog (S f) n v =
  match visitNodes (visit prog f) (Body (prog n)) (enter n v).1.2 (enter n v).2 with
  | Done (min', v2) =>
      match closeComponent (IsHiddenClosure (prog n)) n (enter n v).1.1 min' v2 with
      | Done v3 => Done (min', v3)
      | Panic => Panic
      | OutOfFuel => OutOfFuel
      end
  | Panic => Panic
  | OutOfFuel => OutOfFuel
  end.
Proof. intros Hz. simpl. by rewrite bool_decide_eq_false_2 by lia. Qed.

Lemma visit_again prog f n v :
  0 < lookupID v n → visit prog (S f) n v = Done (lookupID v n, v).
Proof. intros Hpos. simpl. by rewrite bool_decide_eq_true_2. Qed.

(** The ordinals after a component was popped: those above its root are
    marked one by one. *)
Definition mark (t : list Func) (ids : gmap Func Z) : gmap Func Z :=
  foldr (λ x m, <[x := sentinel]> m) ids t.

Lemma mark_lookup t ids u :
  mark t ids !! u = if decide (u ∈ t) then Some sentinel else ids !! u.
Proof.
  induction t as [|x t IH].
  - destruct (decide (u ∈ [])) as [H|H]; [by apply elem_of_nil in H|done].
  - simpl. destruct (decide (u = x)) as [->|Hne].
    + rewrite lookup_insert_eq. rewrite decide_True; [done|by left].
    + rewrite lookup_insert_ne by done. rewrite IH.
      destruct (decide (u ∈ t)) as [Hu|Hu].
      * rewrite decide_True; [done|by right].
      * rewrite decide_False; [done|]. by intros [?|?]%elem_of_cons.
Qed.

Lemma closeComponent_pop h n id m v s0 t :
  stack v = s0 ++ n :: t → n ∉ t → isRoot h id m = true →
  closeComponent h n id m v
  = Done {| visitgen := visitgen v;
            nodeID := <[n := sentinel]> (mark t (nodeID v));
            stack := s0;
            analyzed := analyzed v ++ [(n :: t, bool_decide (m = id))] |}.
Proof.
  intros Hs Hn Hroot. unfold closeComponent. rewrite Hroot.
  destruct (scanStack_found n s0 t [] (nodeID v) Hn) as (ids' & Hscan & Hlk).
  rewrite app_nil_r in Hscan.
  replace (length (stack v)) with (length s0 + 1 + length t)%nat
    by (rewrite Hs, length_app; simpl; lia).
  rewrite Hs, Hscan. rewrite take_app_length, drop_app_length.
  assert (ids' = mark t (nodeID v)) as ->; [|done].
  apply map_eq. intros u. by rewrite Hlk, mark_lookup.
Qed.

Lemma closeComponent_keep h n id m v :
  isRoot h id m = false → closeComponent h n id m v = Done v.
Proof. intros Hroot. unfold closeComponent. by rewrite Hroot. Qed.

Lemma loop_at_self X : loop_at X X = mkFunc false [call X].
Proof. unfold loop_at. by rewrite decide_True. Qed.

Lemma loop_at_other X n : n ≠ X → loop_at X n = mkFunc false [].
Proof. intros Hne. unfold loop_at. by rewrite decide_False. Qed.

(** The top-level visit of a function [X] that calls itself. *)
Lemma visit_loop X f g (M : gmap Func Z) A :
  M !! X = None → 0 < u32 (g + 1) →
  let id := u32 (g + 1) in
  let min0 := u32 (id + 1) in
  let m := if bool_decide (id < min0) then id else min0 in
  isRoot false id m = true →
  visit (loop_at X) (S (S f)) X {| visitgen := g; nodeID := M; stack := []; analyzed := A |}
  = Done (m, {| visitgen := min0;
                nodeID := <[X := sentinel]> (<[X := id]> M);
                stack := [];
                analyzed := A ++ [([X], bool_decide (m = id))] |}).
Proof.
  intros HM Hid id min0 m Hroot.
  set (v0 := {| visitgen := g; nodeID := M; stack := []; analyzed := A |}).
  set (v1 := {| visitgen := min0; nodeID := <[X := id]> M; stack := [X]; analyzed := A |}).
  assert (enter X v0 = (id, min0, v1)) as He by reflexivity.
  assert (lookupID v1 X = id) as Hv1.
  { unfold lookupID, v1. cbn [nodeID]. by rewrite lookup_insert_eq. }
  rewrite visit_first by (unfold lookupID, v0; cbn [nodeID]; by rewrite HM).
  rewrite He, loop_at_self. cbn [fst snd Body IsHiddenClosure visitNodes].
  change (callee (call X)) with (Some X). cbv beta iota.
  rewrite (visit_again (loop_at X) f X v1) by (rewrite Hv1; exact Hid).
  rewrite Hv1. change (if bool_decide (id < min0) then id else min0) with m.
  rewrite (closeComponent_pop false X id m v1 [] []); [done|done| |done].
  by intros ?%elem_of_nil.
Qed.

Lemma pos_range_length k : ∀ start, length (pos_range start k) = k.
Proof. induction k as [|k IH]; intros start; simpl; [done|]. by rewrite IH. Qed.

Lemma visitor_eta v :
  v = {| visitgen := visitgen v; nodeID := nodeID v; stack := stack v; analyzed := analyzed v |}.
Proof. by destruct v. Qed.

(** The visitor after [k] functions that call nothing, from a fresh one. *)
Lemma leaves_fresh k X :
  1 + Z.of_nat k ≤ Z.pos X →
  leaves (pos_range 1 k) newVisitor
  = {| visitgen := u32 (2 * Z.of_nat k);
       nodeID := nodeID (leaves (pos_range 1 k) newVisitor);
       stack := [];
       analyzed := map (λ n, ([n], false)) (pos_range 1 k) |}
  ∧ nodeID (leaves (pos_range 1 k) newVisitor) !! X = None.
Proof.
  intros HX. split.
  - rewrite (visitor_eta (leaves _ _)) at 1.
    rewrite leaves_visitgen by (simpl; pow_lia).
    rewrite leaves_stack, leaves_analyzed, pos_range_length. done.
  - rewrite leaves_lookup. rewrite decide_False; [apply lookup_empty|].
    intros Hin%pos_range_bounds. lia.
Qed.

(** A run of [2^31] first visits whose last function calls itself: it
    receives the sentinel as its ordinal, and is reported as not recursive. *)
Lemma loop_after_leaves k :
  Z.of_nat k = 2147483647 →
  ∃ v, visitBottomUp (loop_at 2147483648%positive) 2 (leaves_then k 2147483648%positive) = Done v ∧
    stack v = [] ∧
    analyzed v = map (λ n, ([n], false)) (pos_range 1 k) ++ [([2147483648%positive], false)].
Proof.
  intros Hk. unfold visitBottomUp, leaves_then.
  rewrite leaves_run.
  2:{ intros n Hn%pos_range_bounds. rewrite loop_at_other; [done|]. intros ->. lia. }
  destruct (leaves_fresh k 2147483648%positive) as [-> HX]; [lia|].
  rewrite Hk. change (u32 (2 * 2147483647)) with 4294967294.
  cbn [visitList]. rewrite loop_at_self. cbn [IsHiddenClosure].
  rewrite (visit_loop 2147483648%positive 0 4294967294 _ _ HX);
    [|vm_compute; reflexivity|vm_compute; reflexivity].
  eexists. split; [reflexivity|]. split; [reflexivity|].
  cbn [analyzed]. f_equal.
Qed.

(** A function [F] that holds the literal of a hidden closure [C] that
    calls nothing, among functions that call nothing. *)
Definition closure_at (F C : Func) : Program :=
  fun f => if decide (f = F) then mkFunc false [ClosureExpr C]
           else if decide (f = C) then mkFunc true []
           else mkFunc false [].

(** Two functions [X] and [Y] that call each other, among functions that
    call nothing. *)
Definition pair_at (X Y : Func) : Program :=
  fun f => if decide (f = X) then mkFunc false [call Y]
           else if decide (f = Y) then mkFunc false [call X]
           else mkFunc false [].

Lemma closure_at_F F C : closure_at F C F = mkFunc false [ClosureExpr C].
Proof. unfold closure_at. by rewrite decide_True. Qed.

Lemma closure_at_C F C : F ≠ C → closure_at F C C = mkFunc true [].
Proof. intros Hne. unfold closure_at. rewrite decide_False by done. by rewrite decide_True. Qed.

Lemma closure_at_other F C n : n ≠ F → n ≠ C → closure_at F C n = mkFunc false [].
Proof. intros H1 H2. unfold closure_at. by rewrite !decide_False. Qed.

Lemma pair_at_X X Y : pair_at X Y X = mkFunc false [call Y].
Proof. unfold pair_at. by rewrite decide_True. Qed.

Lemma pair_at_Y X Y : X ≠ Y → pair_at X Y Y = mkFunc false [call X].
Proof. intros Hne. unfold pair_at. rewrite decide_False by done. by rewrite decide_True. Qed.

Lemma pair_at_other X Y n : n ≠ X → n ≠ Y → pair_at X Y n = mkFunc false [].
Proof. intros H1 H2. unfold pair_at. by rewrite !decide_False. Qed.

Lemma isRoot_hidden id m : isRoot true id m = false.
Proof. unfold isRoot. simpl. apply andb_false_r. Qed.

(** The top-level visit of a function that holds one hidden closure, when
    the function does not close a component. *)
Lemma visit_closure F C f g (M : gmap Func Z) A :
  F ≠ C → M !! F = None → M !! C = None →
  let idF := u32 (g + 1) in
  let minF := u32 (idF + 1) in
  let idC := u32 (minF + 1) in
  let minC := u32 (idC + 1) in
  let m := if bool_decide (minC < minF) then minC else minF in
  isRoot false idF m = false →
  visit (closure_at F C) (S (S f)) F {| visitgen := g; nodeID := M; stack := []; analyzed := A |}
  = Done (m, {| visitgen := minC;
                nodeID := <[C := idC]> (<[F := idF]> M);
                stack := [F; C];
                analyzed := A |}).
Proof.
  intros Hne HF HC idF minF idC minC m Hroot.
  set (v0 := {| visitgen := g; nodeID := M; stack := []; analyzed := A |}).
  set (v1 := {| visitgen := minF; nodeID := <[F := idF]> M; stack := [F]; analyzed := A |}).
  set (v2 := {| visitgen := minC; nodeID := <[C := idC]> (<[F := idF]> M);
                stack := [F; C]; analyzed := A |}).
  assert (enter F v0 = (idF, minF, v1)) as He0 by reflexivity.
  assert (enter C v1 = (idC, minC, v2)) as He1 by reflexivity.
  assert (lookupID v1 C = 0) as Hv1.
  { unfold lookupID, v1. cbn [nodeID]. rewrite lookup_insert_ne by done. by rewrite HC. }
  assert (visit (closure_at F C) (S f) C v1 = Done (minC, v2)) as HvC.
  { rewrite visit_first by done. rewrite He1, closure_at_C by done.
    cbn [fst snd Body IsHiddenClosure visitNodes].
    by rewrite closeComponent_keep by apply isRoot_hidden. }
  rewrite visit_first by (unfold lookupID, v0; cbn [nodeID]; by rewrite HF).
  rewrite He0, closure_at_F. cbn [fst snd Body IsHiddenClosure visitNodes].
  change (callee (ClosureExpr C)) with (Some C). cbv beta iota.
  rewrite HvC. change (if bool_decide (minC < minF) then minC else minF) with m.
  by rewrite closeComponent_keep.
Qed.

(** The top-level visit of one of two functions that call each other, when
    each of them closes a component. *)
Lemma visit_pair X Y f g (M : gmap Func Z) A :
  X ≠ Y → M !! X = None → M !! Y = None →
  let idX := u32 (g + 1) in
  let minX := u32 (idX + 1) in
  let idY := u32 (minX + 1) in
  let minY := u32 (idY + 1) in
  let mY := if bool_decide (idX < minY) then idX else minY in
  let mX := if bool_decide (mY < minX) then mY else minX in
  0 < idX → isRoot false idY mY = true → isRoot false idX mX = true →
  visit (pair_at X Y) (S (S (S f))) X
    {| visitgen := g; nodeID := M; stack := []; analyzed := A |}
  = Done (mX, {| visitgen := minY;
                 nodeID := <[X := sentinel]> (<[Y := sentinel]> (<[Y := idY]> (<[X := idX]> M)));
                 stack := [];
                 analyzed := A ++ [([Y], bool_decide (mY = idY));
                                   ([X], bool_decide (mX = idX))] |}).
Proof.
  intros Hne HX HY idX minX idY minY mY mX Hpos HrY HrX.
  set (v0 := {| visitgen := g; nodeID := M; stack := []; analyzed := A |}).
  set (v1 := {| visitgen := minX; nodeID := <[X := idX]> M; stack := [X]; analyzed := A |}).
  set (v2 := {| visitgen := minY; nodeID := <[Y := idY]> (<[X := idX]> M);
                stack := [X; Y]; analyzed := A |}).
  set (v3 := {| visitgen := minY; nodeID := <[Y := sentinel]> (<[Y := idY]> (<[X := idX]> M));
                stack := [X]; analyzed := A ++ [([Y], bool_decide (mY = idY))] |}).
  assert (enter X v0 = (idX, minX, v1)) as He0 by reflexivity.
  assert (enter Y v1 = (idY, minY, v2)) as He1 by reflexivity.
  assert (lookupID v1 Y = 0) as Hv1.
  { unfold lookupID, v1. cbn [nodeID]. rewrite lookup_insert_ne by done. by rewrite HY. }
  assert (lookupID v2 X = idX) as Hv2.
  { unfold lookupID, v2. cbn [nodeID]. rewrite lookup_insert_ne by done.
    by rewrite lookup_insert_eq. }
  assert (visit (pair_at X Y) (S (S f)) Y v1 = Done (mY, v3)) as HvY.
  { rewrite visit_first by done. rewrite He1, pair_at_Y by done.
    cbn [fst snd Body IsHiddenClosure visitNodes].
    change (callee (call X)) with (Some X). cbv beta iota.
    rewrite (visit_again (pair_at X Y) f X v2) by (rewrite Hv2; exact Hpos).
    rewrite Hv2. change (if bool_decide (idX < minY) then idX else minY) with mY.
    rewrite (closeComponent_pop false Y idY mY v2 [X] []); [done|done| |done].
    by intros ?%elem_of_nil. }
  rewrite visit_first by (unfold lookupID, v0; cbn [nodeID]; by rewrite HX).
  rewrite He0, pair_at_X. cbn [fst snd Body IsHiddenClosure visitNodes].
  change (callee (call Y)) with (Some Y). cbv beta iota.
  rewrite HvY. change (if bool_decide (mY < minX) then mY else minX) with mX.
  rewrite (closeComponent_pop false X idX mX v3 [] []); [|done| |done].
  - unfold v3. cbn [visitgen nodeID analyzed mark foldr]. by rewrite <- app_assoc.
  - by intros ?%elem_of_nil.
Qed.

Lemma emitted_singletons (l : list Func) (A : list (list Func * bool)) :
  concat (A ++ map (λ n, ([n], false)) l).*1 = concat A.*1 ++ l.
Proof.
  rewrite fmap_app, concat_app. f_equal.
  induction l as [|n l IH]; [done|]. cbn. by rewrite IH.
Qed.

(** A run of [2^31] first visits whose last two are a function and the
    hidden closure it holds: the closure receives the sentinel as its ordinal
    and the seed [0], which becomes the [min] of the function; nothing is
    reported for either, and both stay on the stack. *)
Lemma closure_after_leaves k :
  Z.of_nat k = 2147483646 →
  ∃ w m v,
    visitList (closure_at 2147483647%positive 2147483648%positive) 2
      (map DclFunc (pos_range 1 k)) newVisitor = Done w ∧
    stack w = [] ∧ analyzed w = map (λ n, ([n], false)) (pos_range 1 k) ∧
    lookupID w 2147483647%positive = 0 ∧
    hidden (closure_at 2147483647%positive 2147483648%positive) 2147483647%positive = false ∧
    (enter 2147483647%positive w).1.1 = 4294967293 ∧
    visit (closure_at 2147483647%positive 2147483648%positive) 2 2147483647%positive w
      = Done (m, v) ∧
    m = 0 ∧ stack v = [2147483647%positive; 2147483648%positive] ∧
    analyzed v = map (λ n, ([n], false)) (pos_range 1 k) ∧
    visitBottomUp (closure_at 2147483647%positive 2147483648%positive) 2
      (leaves_then k 2147483647%positive) = Done v.
Proof.
  intros Hk.
  assert (∀ n, n ∈ pos_range 1 k →
            Body (closure_at 2147483647%positive 2147483648%positive n) = [] ∧
            IsHiddenClosure (closure_at 2147483647%positive 2147483648%positive n) = false)
    as Hleaf.
  { intros n Hn%pos_range_bounds. rewrite closure_at_other; [done| |]; intros ->; lia. }
  destruct (leaves_fresh k 2147483647%positive) as [Hw HF]; [lia|].
  destruct (leaves_fresh k 2147483648%positive) as [_ HC]; [lia|].
  rewrite Hk in Hw. change (u32 (2 * 2147483646)) with 4294967292 in Hw.
  pose proof (visit_closure 2147483647%positive 2147483648%positive 0 4294967292
                (nodeID (leaves (pos_range 1 k) newVisitor))
                (map (λ n, ([n], false)) (pos_range 1 k))) as Hvis.
  cbv zeta in Hvis. rewrite <- Hw in Hvis.
  specialize (Hvis ltac:(done) HF HC ltac:(vm_compute; reflexivity)).
  eexists (leaves (pos_range 1 k) newVisitor), _, _.
  split.
  { rewrite <- (app_nil_r (map DclFunc (pos_range 1 k))). by rewrite leaves_run. }
  split; [by rewrite Hw|].
  split; [by rewrite Hw|].
  split; [exact (f_equal (default 0) HF)|].
  split; [unfold hidden; by rewrite closure_at_F|].
  split; [rewrite Hw; vm_compute; reflexivity|].
  split; [exact Hvis|].
  split; [vm_compute; reflexivity|].
  split; [reflexivity|]. split; [reflexivity|].
  unfold visitBottomUp, leaves_then. rewrite leaves_run by done.
  cbn [visitList]. rewrite closure_at_F. cbn [IsHiddenClosure]. by rewrite Hvis.
Qed.

(** A run of [2^31 + 1] first visits whose last two functions call each
    other: the first of them receives the sentinel as its ordinal, so the
    second takes it for reported and closes a component of its own. *)
Lemma pair_after_leaves k :
  Z.of_nat k = 2147483647 →
  ∃ v,
    visitBottomUp (pair_at 2147483648%positive 2147483649%positive) 3
      (leaves_then k 2147483648%positive) = Done v ∧
    analyzed v = map (λ n, ([n], false)) (pos_range 1 k) ++
                 [([2147483649%positive], false); ([2147483648%positive], false)].
Proof.
  intros Hk.
  assert (∀ n, n ∈ pos_range 1 k →
            Body (pair_at 2147483648%positive 2147483649%positive n) = [] ∧
            IsHiddenClosure (pair_at 2147483648%positive 2147483649%positive n) = false)
    as Hleaf.
  { intros n Hn%pos_range_bounds. rewrite pair_at_other; [done| |]; intros ->; lia. }
  destruct (leaves_fresh k 2147483648%positive) as [Hw HX]; [lia|].
  destruct (leaves_fresh k 2147483649%positive) as [_ HY]; [lia|].
  rewrite Hk in Hw. change (u32 (2 * 2147483647)) with 4294967294 in Hw.
  pose proof (visit_pair 2147483648%positive 2147483649%positive 0 4294967294
                (nodeID (leaves (pos_range 1 k) newVisitor))
                (map (λ n, ([n], false)) (pos_range 1 k))) as Hvis.
  cbv zeta in Hvis. rewrite <- Hw in Hvis.
  specialize (Hvis ltac:(done) HX HY ltac:(vm_compute; reflexivity)
                ltac:(vm_compute; reflexivity) ltac:(vm_compute; reflexivity)).
  eexists. split.
  - unfold visitBottomUp, leaves_then. rewrite leaves_run by done.
    cbn [visitList]. rewrite pair_at_X. cbn [IsHiddenClosure]. rewrite Hvis. reflexivity.
  - cbn [analyzed]. f_equal.
Qed.

(** The self-calling function first, then [2^31 - 1] functions that call
    nothing: visited with the ordinal 1, the function is reported as
    recursive. *)
Lemma loop_before_leaves k :
  Z.of_nat k = 2147483647 →
  ∃ v,
    visitBottomUp (loop_at 2147483648%positive) 2
      (DclFunc 2147483648%positive :: map DclFunc (pos_range 1 k)) = Done v ∧
    analyzed v = [([2147483648%positive], true)] ++ map (λ n, ([n], false)) (pos_range 1 k).
Proof.
  intros Hk. unfold visitBottomUp. cbn [visitList]. rewrite loop_at_self.
  cbn [IsHiddenClosure]. unfold newVisitor.
  rewrite (visit_loop 2147483648%positive 0 0 ∅ []);
    [|apply lookup_empty|vm_compute; reflexivity|vm_compute; reflexivity].
  rewrite <- (app_nil_r (map DclFunc (pos_range 1 k))).
  rewrite visitList_leaves.
  - eexists. split; [reflexivity|]. rewrite leaves_analyzed. cbn [analyzed]. f_equal.
  - intros n Hn%pos_range_bounds. rewrite loop_at_other; [done|]. intros ->. lia.
  - apply pos_range_NoDup.
  - intros n Hn%pos_range_bounds. unfold lookupID. cbn [nodeID].
    rewrite !lookup_insert_ne by (intros <-; lia). by rewrite lookup_empty.
Qed.


Lemma EntersList_app prog pre post v w k w' :
  VisitList prog pre v w → EntersList prog post w k w' →
  EntersList prog (pre ++ post) v k w'.
Proof.
  intros Hpre Hpost.
  induction Hpre as [v|n rest v v' Hskip _ IH|fn rest v m v1 v' Hh Hv _ IH]; simpl.
  - done.
  - apply EntersList_skip; [done|]. by apply IH.
  - eapply EntersList_next; [done|exact Hv|]. by apply IH.
Qed.

Lemma closure_unreported k :
  Z.of_nat k = 2147483646 →
  ∃ v,
    visitBottomUp (closure_at 2147483647%positive 2147483648%positive) 2
      (leaves_then k 2147483647%positive) = Done v ∧
    root (closure_at 2147483647%positive 2147483648%positive)
      (leaves_then k 2147483647%positive) 2147483647%positive ∧
    edge (closure_at 2147483647%positive 2147483648%positive)
      2147483647%positive 2147483648%positive ∧
    (2147483647%positive ∉ emitted v) ∧ (2147483648%positive ∉ emitted v).
Proof.
  intros Hk.
  destruct (closure_after_leaves k Hk) as (w & m & v & _ & _ & _ & _ & _ & _ & _ & _ & _ & Ha & Hrun).
  exists v. split; [exact Hrun|].
  assert (emitted v = pos_range 1 k) as He.
  { unfold emitted. rewrite Ha.
    apply (emitted_singletons (pos_range 1 k) []). }
  split; [|split; [|split]].
  - split.
    + unfold leaves_then. apply elem_of_app. right. apply list_elem_of_singleton. reflexivity.
    + unfold hidden. by rewrite closure_at_F.
  - unfold edge, callees. rewrite closure_at_F. cbn. apply list_elem_of_singleton. reflexivity.
  - rewrite He. intros Hin%pos_range_bounds. lia.
  - rewrite He. intros Hin%pos_range_bounds. lia.
Qed.

Lemma pair_out_of_order k :
  Z.of_nat k = 2147483647 →
  ∃ v i j,
    visitBottomUp (pair_at 2147483648%positive 2147483649%positive) 3
      (leaves_then k 2147483648%positive) = Done v ∧
    analyzed v !! i = Some ([2147483649%positive], false) ∧
    analyzed v !! j = Some ([2147483648%positive], false) ∧
    edge (pair_at 2147483648%positive 2147483649%positive)
      2147483649%positive 2147483648%positive ∧
    (i < j)%nat.
Proof.
  intros Hk.
  destruct (pair_after_leaves k Hk) as (v & Hrun & Ha).
  exists v, k, (S k). split; [exact Hrun|].
  assert (length (map (λ n : Func, ([n], false)) (pos_range 1 k)) = k) as Hlen.
  { by rewrite length_map, pos_range_length. }
  split; [|split; [|split]].
  - rewrite Ha. by apply list_lookup_middle.
  - rewrite Ha.
    rewrite (assoc_L (++) _ [([2147483649%positive], false)] [([2147483648%positive], false)]).
    apply list_lookup_middle. rewrite length_app, length_map, pos_range_length. simpl. lia.
  - unfold edge, callees. rewrite pair_at_Y by done. cbn.
    apply list_elem_of_singleton. reflexivity.
  - lia.
Qed.

Lemma loop_cycle X : has_cycle (loop_at X) [X].
Proof.
  exists X. apply tc_once. split; [|split].
  - apply list_elem_of_singleton. reflexivity.
  - apply list_elem_of_singleton. reflexivity.
  - unfold edge, callees. rewrite loop_at_self. cbn. apply list_elem_of_singleton. reflexivity.
Qed.

Lemma loop_not_flagged k :
  Z.of_nat k = 2147483647 →
  ∃ v,
    visitBottomUp (loop_at 2147483648%positive) 2 (leaves_then k 2147483648%positive) = Done v ∧
    ([2147483648%positive], false) ∈ analyzed v ∧
    has_cycle (loop_at 2147483648%positive) [2147483648%positive].
Proof.
  intros Hk.
  destruct (loop_after_leaves k Hk) as (v & Hrun & _ & Ha).
  exists v. split; [exact Hrun|]. split; [|apply loop_cycle].
  rewrite Ha. apply elem_of_app. right. apply list_elem_of_singleton. reflexivity.
Qed.

Lemma sentinel_issued k :
  Z.of_nat k = 2147483647 →
  ∃ w,
    EntersList (loop_at 2147483648%positive) (leaves_then k 2147483648%positive)
      newVisitor 2147483648%positive w ∧
    (enter 2147483648%positive w).1.1 = sentinel.
Proof.
  intros Hk.
  assert (∀ n, n ∈ pos_range 1 k →
            Body (loop_at 2147483648%positive n) = [] ∧
            IsHiddenClosure (loop_at 2147483648%positive n) = false) as Hleaf.
  { intros n Hn%pos_range_bounds. rewrite loop_at_other; [done|]. intros ->. lia. }
  destruct (leaves_fresh k 2147483648%positive) as [Hw HX]; [lia|].
  rewrite Hk in Hw. change (u32 (2 * 2147483647)) with 4294967294 in Hw.
  exists (leaves (pos_range 1 k) newVisitor). split.
  - unfold leaves_then. apply (EntersList_app _ _ _ _ (leaves (pos_range 1 k) newVisitor)).
    + apply (visitList_sound _ 1).
      rewrite <- (app_nil_r (map DclFunc (pos_range 1 k))). by rewrite leaves_run.
    + apply EntersList_here.
      * unfold hidden. by rewrite loop_at_self.
      * apply Enters_here.
        replace (lookupID (leaves (pos_range 1 k) newVisitor) 2147483648%positive) with 0;
          [lia|].
        symmetry. exact (f_equal (default 0) HX).
  - rewrite Hw. vm_compute. reflexivity.
Qed.

Lemma loop_flag_depends_on_order k :
  Z.of_nat k = 2147483647 →
  ∃ v1 v2,
    visitBottomUp (loop_at 2147483648%positive) 2
      (DclFunc 2147483648%positive :: map DclFunc (pos_range 1 k)) = Done v1 ∧
    visitBottomUp (loop_at 2147483648%positive) 2
      (leaves_then k 2147483648%positive) = Done v2 ∧
    DclFunc 2147483648%positive :: map DclFunc (pos_range 1 k)
      ≡ₚ leaves_then k 2147483648%positive ∧
    ([2147483648%positive], true) ∈ analyzed v1 ∧
    ∀ B r, (B, r) ∈ analyzed v2 → r = false.
Proof.
  intros Hk.
  destruct (loop_before_leaves k Hk) as (v1 & Hrun1 & Ha1).
  destruct (loop_after_leaves k Hk) as (v2 & Hrun2 & _ & Ha2).
  exists v1, v2. split; [exact Hrun1|]. split; [exact Hrun2|].
  split; [apply Permutation_cons_append|]. split.
  - rewrite Ha1. apply elem_of_app. left. apply list_elem_of_singleton. reflexivity.
  - intros B r. rewrite Ha2. intros [Hin|Hin]%elem_of_app.
    + apply list_elem_of_fmap in Hin as (n & Heq & _). by inversion Heq.
    + apply list_elem_of_singleton in Hin. by inversion Hin.
Qed.

(** ** The claims at the end of the counter's range

    The runs below visit [2^31] functions or one more. Their lists start
    with [2^31 - 2] or [2^31 - 1] declarations of functions that call
    nothing, numbered from 1. *)

(** C1 fails as stated. On [2^31 - 2] functions that call nothing followed
    by a function that holds a hidden closure, the closure takes the
    sentinel for its ordinal and seeds [min] with [0]; the function, a root
    of the list, ends with [min = 0], which is neither its [id] nor
    [id + 1], and [visitBottomUp] returns with neither the function nor the
    closure in any list passed to [analyze]. *)
Lemma reachable_not_reported :
  ∃ v,
    visitBottomUp (closure_at 2147483647%positive 2147483648%positive) 2
      (leaves_then (Z.to_nat 2147483646) 2147483647%positive) = Done v ∧
    root (closure_at 2147483647%positive 2147483648%positive)
      (leaves_then (Z.to_nat 2147483646) 2147483647%positive) 2147483647%positive ∧
    edge (closure_at 2147483647%positive 2147483648%positive)
      2147483647%positive 2147483648%positive ∧
    (2147483647%positive ∉ emitted v) ∧ (2147483648%positive ∉ emitted v).
Proof.
  exact (closure_unreported (Z.to_nat 2147483646) (Z2Nat.id 2147483646 ltac:(lia))).
Qed.

(** C2 fails as stated. On [2^31 - 1] functions that call nothing followed
    by two functions that call each other, the first of the two takes the
    sentinel for its ordinal, the second reads it as the ordinal of a
    reported function and closes a list of its own, and that list is passed
    to [analyze] before the list of the function it calls. *)
Lemma caller_reported_first :
  ∃ v i j,
    visitBottomUp (pair_at 2147483648%positive 2147483649%positive) 3
      (leaves_then (Z.to_nat 2147483647) 2147483648%positive) = Done v ∧
    analyzed v !! i = Some ([2147483649%positive], false) ∧
    analyzed v !! j = Some ([2147483648%positive], false) ∧
    edge (pair_at 2147483648%positive 2147483649%positive)
      2147483649%positive 2147483648%positive ∧
    (i < j)%nat.
Proof.
  exact (pair_out_of_order (Z.to_nat 2147483647) (Z2Nat.id 2147483647 ltac:(lia))).
Qed.

(** C3 fails as stated, in two ways. In [shared_closure] the hidden closure
    2 and function 3 call each other; from the root 1, which holds the
    literal of the closure, all three are passed to [analyze] in one list
    with the flag false, although the list contains the cycle 2, 3, 2: the
    closure cannot close a component, function 3 returns the ordinal of the
    closure, and [min] of function 1 is never lowered to its [id]. And on
    [2^31 - 1] functions that call nothing followed by a function that calls
    itself, the function takes the sentinel for its ordinal and [0] for the
    seed of [min]; the memoized visit of itself returns the sentinel, [min]
    stays [0 = id + 1], and the list made of the function alone is passed
    with the flag false although it contains a cycle. *)
Lemma cycle_reported_not_recursive :
  (calls_of (visitBottomUp shared_closure 4 [DclFunc 1%positive])
     = Some [([1%positive; 2%positive; 3%positive], false)] ∧
   has_cycle shared_closure [1%positive; 2%positive; 3%positive]) ∧
  ∃ v,
    visitBottomUp (loop_at 2147483648%positive) 2
      (leaves_then (Z.to_nat 2147483647) 2147483648%positive) = Done v ∧
    ([2147483648%positive], false) ∈ analyzed v ∧
    has_cycle (loop_at 2147483648%positive) [2147483648%positive].
Proof.
  split; [split|].
  - vm_compute. reflexivity.
  - exists 2%positive. apply (tc_l _ _ 3%positive); [|apply tc_once].
    + unfold calls_within, edge. apply (bool_decide_unpack _). vm_compute. exact I.
    + unfold calls_within, edge. apply (bool_decide_unpack _). vm_compute. exact I.
  - exact (loop_not_flagged (Z.to_nat 2147483647) (Z2Nat.id 2147483647 ltac:(lia))).
Qed.

(** C5 fails as stated. A function that holds a hidden closure which calls
    nothing is passed to [analyze] in one list with the closure, although
    the closure does not reach the function in the call graph. *)
Lemma closure_joins_holder :
  calls_of (visitBottomUp holder 3 [DclFunc 1%positive])
    = Some [([1%positive; 2%positive], false)] ∧
  edge holder 1%positive 2%positive ∧
  ¬ rtc (edge holder) 2%positive 1%positive.
Proof.
  split; [vm_compute; reflexivity|]. split.
  - unfold edge. change (callees holder 1%positive) with [2%positive].
    apply list_elem_of_singleton. reflexivity.
  - intros H. inversion H as [|? y ? He _]; subst.
    unfold edge in He. change (callees holder 2%positive) with (@nil Func) in He.
    by apply elem_of_nil in He.
Qed.

(** C6 fails as stated. After [2^31 - 1] first visits the counter stands at
    [2^32 - 2], and the next function visited for the first time is given
    the sentinel itself as its ordinal. *)
Lemma sentinel_is_issued :
  ∃ w,
    EntersList (loop_at 2147483648%positive)
      (leaves_then (Z.to_nat 2147483647) 2147483648%positive)
      newVisitor 2147483648%positive w ∧
    (enter 2147483648%positive w).1.1 = sentinel.
Proof.
  exact (sentinel_issued (Z.to_nat 2147483647) (Z2Nat.id 2147483647 ltac:(lia))).
Qed.

(** C8 fails as stated, in two ways. On [shared_closure], whose hidden
    closure 2 is referred to from functions 1 and 3, the list of
    declarations 1, 3 yields the one list 1, 2, 3 with the flag false, and
    the list 3, 1 yields the list 3, 2 with the flag true and then the list
    1 with the flag false. And the same [2^31] declarations, a function
    that calls itself and [2^31 - 1] functions that call nothing, in two
    orders: with the recursive function first its list is passed with the
    flag true, with the recursive function last every list is passed with
    the flag false. *)
Lemma flag_depends_on_order :
  (calls_of (visitBottomUp shared_closure 4 [DclFunc 1%positive; DclFunc 3%positive])
     = Some [([1%positive; 2%positive; 3%positive], false)] ∧
   calls_of (visitBottomUp shared_closure 4 [DclFunc 3%positive; DclFunc 1%positive])
     = Some [([3%positive; 2%positive], true); ([1%positive], false)] ∧
   [DclFunc 1%positive; DclFunc 3%positive] ≡ₚ [DclFunc 3%positive; DclFunc 1%positive]) ∧
  ∃ v1 v2,
    visitBottomUp (loop_at 2147483648%positive) 2
      (DclFunc 2147483648%positive :: map DclFunc (pos_range 1 (Z.to_nat 2147483647)))
      = Done v1 ∧
    visitBottomUp (loop_at 2147483648%positive) 2
      (leaves_then (Z.to_nat 2147483647) 2147483648%positive) = Done v2 ∧
    DclFunc 2147483648%positive :: map DclFunc (pos_range 1 (Z.to_nat 2147483647))
      ≡ₚ leaves_then (Z.to_nat 2147483647) 2147483648%positive ∧
    ([2147483648%positive], true) ∈ analyzed v1 ∧
    ∀ B r, (B, r) ∈ analyzed v2 → r = false.
Proof.
  split; [split; [|split]|].
  - vm_compute. reflexivity.
  - vm_compute. reflexivity.
  - apply perm_swap.
  - exact (loop_flag_depends_on_order (Z.to_nat 2147483647)
             (Z2Nat.id 2147483647 ltac:(lia))).
Qed.

(** C9 fails as stated. On [2^31 - 2] functions that call nothing followed
    by a function that holds a hidden closure, the loop of [visitBottomUp]
    reaches the function with the stack empty and the function unvisited;
    its visit returns [min = 0] while its ordinal is [2^32 - 3], passes
    nothing to [analyze], and leaves the function and its closure on the
    stack, where they still are when [visitBottomUp] returns. *)
Lemma top_level_visit_keeps_stack :
  ∃ w m v,
    visitList (closure_at 2147483647%positive 2147483648%positive) 2
      (map DclFunc (pos_range 1 (Z.to_nat 2147483646))) newVisitor = Done w ∧
    stack w = [] ∧
    analyzed w = map (λ n, ([n], false)) (pos_range 1 (Z.to_nat 2147483646)) ∧
    lookupID w 2147483647%positive = 0 ∧
    hidden (closure_at 2147483647%positive 2147483648%positive) 2147483647%positive = false ∧
    (enter 2147483647%positive w).1.1 = 4294967293 ∧
    visit (closure_at 2147483647%positive 2147483648%positive) 2 2147483647%positive w
      = Done (m, v) ∧
    m = 0 ∧ stack v = [2147483647%positive; 2147483648%positive] ∧
    analyzed v = map (λ n, ([n], false)) (pos_range 1 (Z.to_nat 2147483646)) ∧
    visitBottomUp (closure_at 2147483647%positive 2147483648%positive) 2
      (leaves_then (Z.to_nat 2147483646) 2147483647%positive) = Done v.
Proof.
  exact (closure_after_leaves (Z.to_nat 2147483646) (Z2Nat.id 2147483646 ltac:(lia))).
Qed.

(** ** Further properties of the traversal *)

(** The loop of [visitNodes] over the targets a body resolves to. *)
Fixpoint visitTargets (vis : Func → bottomUpVisitor → outcome (Z * bottomUpVisitor))
    (targets : list Func) (min : Z) (v : bottomUpVisitor) : outcome (Z * bottomUpVisitor) :=
  match targets with
  | [] => Done (min, v)
  | fn :: rest =>
      match vis fn v with
      | Done (m, v') => visitTargets vis rest (if bool_decide (m < min) then m else min) v'
      | Panic => Panic
      | OutOfFuel => OutOfFuel
      end
  end.

(** A function that calls itself, with nodes in its body and in the other
    bodies that resolve to no function: a node of another operation, a name
    of a local variable, a method expression without a name, a declaration,
    and a method value whose name is not an ONAME. *)
Definition loop_with_noise : Program :=
  fun f => if decide (f = 1%positive)
           then mkFunc false [OtherNode; call 1%positive;
                              NameNode (mkName ONAME PAUTO (Some 1%positive));
                              MethExpr None]
           else mkFunc false [DclFunc 1%positive;
                              DotMeth (Some (mkName ONONAME PFUNC (Some 1%positive)))].

Lemma visitNodes_targets vis body : ∀ min v,
  visitNodes vis body min v = visitTargets vis (omap callee body) min v.
Proof.
  induction body as [|nd body IH]; intros min v; [done|].
  simpl. destruct (callee nd) as [f|]; [|apply IH].
  simpl. destruct (vis f v) as [[m v']| |]; [apply IH|done|done].
Qed.

Lemma visitTargets_ext vis1 vis2 targets :
  (∀ f v, vis1 f v = vis2 f v) →
  ∀ min v, visitTargets vis1 targets min v = visitTargets vis2 targets min v.
Proof.
  intros Hext. induction targets as [|f l IH]; intros min v; [done|].
  simpl. rewrite Hext. destruct (vis2 f v) as [[m v']| |]; [apply IH|done|done].
Qed.

Lemma visit_targets_only prog1 prog2 :
  (∀ f, hidden prog1 f = hidden prog2 f ∧ callees prog1 f = callees prog2 f) →
  ∀ fuel n v, visit prog1 fuel n v = visit prog2 fuel n v.
Proof.
  intros Hsame. induction fuel as [|fuel IH]; intros n v; [done|].
  simpl. destruct (Hsame n) as [Hh Hc]. unfold hidden in Hh. unfold callees in Hc.
  rewrite !visitNodes_targets, Hc, Hh.
  by rewrite (visitTargets_ext (visit prog1 fuel) (visit prog2 fuel) _ IH).
Qed.

(** X1. The traversal reads a body only through the functions its nodes
    resolve to (lines 81-120): two programs whose functions have the same
    hidden-closure flag and the same sequence of resolved targets are
    traversed alike, whatever other nodes their bodies hold. *)
Theorem run_reads_targets_only prog1 prog2 fuel list :
  (∀ f, hidden prog1 f = hidden prog2 f ∧ callees prog1 f = callees prog2 f) →
  visitBottomUp prog1 fuel list = visitBottomUp prog2 fuel list.
Proof.
  intros Hsame. unfold visitBottomUp. generalize newVisitor.
  induction list as [|nd rest IH]; intros v; [done|].
  simpl. destruct nd; try apply IH.
  destruct (Hsame fn) as [Hh _]. unfold hidden in Hh. rewrite Hh.
  destruct (IsHiddenClosure (prog2 fn)); [apply IH|].
  rewrite (visit_targets_only prog1 prog2 Hsame).
  destruct (visit prog2 fuel fn v) as [[m v']| |]; [apply IH|done|done].
Qed.

Lemma run_reads_targets_only_witness :
  visitBottomUp (loop_at 1%positive) 3 [DclFunc 1%positive; DclFunc 2%positive]
  = visitBottomUp loop_with_noise 3 [DclFunc 1%positive; DclFunc 2%positive].
Proof.
  apply (run_reads_targets_only (loop_at 1%positive) loop_with_noise).
  intros f. unfold hidden, callees, loop_at, loop_with_noise.
  destruct (decide (f = 1%positive)); split; reflexivity.
Defined.

(** After each declaration of the list the targets of every function on
    the stack or in a report have been visited. *)
Lemma list_explored prog univ (Hc : closed_universe prog univ) l : ∀ v v',
  VisitList prog l v v' → wf_visitor prog univ v → roots_in univ l →
  explored prog v → seg_explored prog v (stack v) →
  explored prog v' ∧ seg_explored prog v' (stack v').
Proof.
  intros v v' H. induction H as [v|n rest v v' Hskip _ IH|fn rest v m v1 v' Hh Hv _ IH];
    intros Hw Hr He Hs.
  - done.
  - apply IH; try done. by apply Forall_inv_tail in Hr.
  - pose proof (Forall_inv Hr) as Hfn. simpl in Hfn. apply Forall_inv_tail in Hr.
    destruct (structure_visit prog univ Hc fn v m v1 Hv Hw Hfn) as (Hw1 & Hext & _ & _ & Hst).
    destruct (proj1 (explored_mutual prog univ Hc) fn v m v1 Hv Hw Hfn He) as (He1 & Hseg).
    apply IH; try done.
    pose proof (seg_explored_extends prog univ v v1 (stack v) Hw Hw1 Hext Hs) as Hold.
    destruct Hst as [->|[t Ht]]; [done|].
    rewrite Ht. intros y [Hy|Hy]%elem_of_app z Hz; [by apply (Hold y)|].
    by apply (Hseg t Ht y).
Qed.

(** What a finished part of the list has visited is closed under calls, and
    holds the roots of that part. *)
Lemma prefix_visited prog univ (Hc : closed_universe prog univ) fuel pre w :
  roots_in univ pre → visitList prog fuel pre newVisitor = Done w →
  wf_visitor prog univ w ∧
  ∀ r f, root prog pre r → rtc (edge prog) r f → lookupID w f ≠ 0.
Proof.
  intros Hr Hrun. apply visitList_sound in Hrun.
  pose proof (wf_newVisitor prog univ) as Hw0.
  destruct (list_structure prog univ Hc pre newVisitor w Hrun Hw0 Hr)
    as (Hw & _ & _ & _ & _ & Hroots & _).
  { by intros c ?%elem_of_nil. }
  { by intros B r ?%elem_of_nil. }
  { by intros y ?%elem_of_nil. }
  destruct (list_explored prog univ Hc pre newVisitor w Hrun Hw0 Hr) as [He Hs].
  { by intros y ?%elem_of_nil. }
  { by intros y ?%elem_of_nil. }
  split; [done|]. intros r f Hroot Hp. apply Hroots in Hroot.
  induction Hp as [r|r y f Hry _ IH]; [done|].
  apply IH. apply (wf_visited _ _ w Hw) in Hroot.
  apply elem_of_app in Hroot as [Hin|Hin].
  - by apply (Hs r Hin y Hry).
  - by apply (He r Hin y Hry).
Qed.

Lemma visitList_no_fuel prog l : ∀ v w r,
  visitList prog 0 l v = Done w → root prog l r → False.
Proof.
  induction l as [|n rest IH]; intros v w r Hrun [Hin Hh].
  - by apply elem_of_nil in Hin.
  - apply elem_of_cons in Hin as [Heq|Hin].
    + subst n. simpl in Hrun. unfold hidden in Hh. by rewrite Hh in Hrun.
    + simpl in Hrun. destruct n; try (by apply (IH v w r Hrun)).
      destruct (IsHiddenClosure (prog fn)); [|done].
      by apply (IH v w r Hrun).
Qed.

(** X2. The loop of [visitBottomUp] (lines 58-65) passes over an entry of
    the list that is not a function declaration or that declares a hidden
    closure, and a declaration that an earlier root of the list reaches,
    a repeated declaration among them, is not visited again (lines 69-72):
    the run is the same without the entry. *)
Theorem listed_entry_skipped prog univ pre n post fuel :
  closed_universe prog univ → roots_in univ (pre ++ n :: post) →
  (∀ f, n = DclFunc f → hidden prog f = true) ∨
  (∃ f r, n = DclFunc f ∧ root prog pre r ∧ rtc (edge prog) r f) →
  visitBottomUp prog fuel (pre ++ n :: post) = visitBottomUp prog fuel (pre ++ post).
Proof.
  intros Hc Hr Hcase. unfold visitBottomUp. rewrite !visitList_app.
  destruct (visitList prog fuel pre newVisitor) as [w| |] eqn:Hpre; [|done|done].
  assert (∀ f, n = DclFunc f → hidden prog f = true → 
            visitList prog fuel (n :: post) w = visitList prog fuel post w) as Hhid.
  { intros f -> Hh. simpl. unfold hidden in Hh. by rewrite Hh. }
  destruct Hcase as [Hskip|(f & r & -> & Hroot & Hp)].
  - destruct n; try done. apply (Hhid fn eq_refl). by apply Hskip.
  - destruct (hidden prog f) eqn:Hh; [by apply (Hhid f eq_refl)|].
    assert (roots_in univ pre) as Hrp.
    { unfold roots_in in *. by apply Forall_app in Hr as [? _]. }
    destruct (prefix_visited prog univ Hc fuel pre w Hrp Hpre) as [Hw Hvis].
    specialize (Hvis r f Hroot Hp).
    destruct fuel as [|k]; [by destruct (visitList_no_fuel prog pre newVisitor w r Hpre Hroot)|].
    cbn [visitList]. unfold hidden in Hh. rewrite Hh.
    cbn [visit]. rewrite bool_decide_eq_true_2; [done|].
    pose proof (wf_ids_range _ _ w Hw f). lia.
Qed.

Lemma listed_entry_skipped_witness :
  visitBottomUp demo 6
    ([DclFunc 1%positive; OtherNode] ++ DclFunc 3%positive :: [DclFunc 5%positive])
  = visitBottomUp demo 6 ([DclFunc 1%positive; OtherNode] ++ [DclFunc 5%positive]).
Proof.
  apply (listed_entry_skipped demo demo_univ).
  - exact demo_closed.
  - unfold roots_in. apply (bool_decide_unpack _). vm_compute. exact I.
  - right. exists 3%positive, 1%positive. split; [reflexivity|]. split.
    + split; [by left|vm_compute; reflexivity].
    + apply (rtc_l _ _ 2%positive).
      * unfold edge. apply (bool_decide_unpack _). vm_compute. exact I.
      * apply rtc_once. unfold edge. apply (bool_decide_unpack _). vm_compute. exact I.
Defined.

Lemma scanStack_none n s : ∀ k ids,
  (k ≤ length s)%nat → ((scanStack n s k ids).1 = None ↔ n ∉ take k s).
Proof.
  induction k as [|k IH]; intros ids Hk.
  - simpl. rewrite take_0. split; [intros _; apply not_elem_of_nil|done].
  - destruct (lookup_lt_is_Some_2 s k) as [x Hx]; [lia|].
    simpl. rewrite Hx, (take_S_r s k x Hx), not_elem_of_app.
    destruct (decide (x = n)) as [->|Hne].
    + simpl. split; [done|]. intros [_ Hn]. exfalso. apply Hn. by left.
    + rewrite IH by lia. split; [|tauto]. intros Hn. split; [done|].
      intros Hin%list_elem_of_singleton. by subst.
Qed.

(** Line 144 slices the stack at a negative index exactly when the test of
    line 122 passes for a function that is not on the stack. *)
Lemma closeComponent_panics h n id m v :
  closeComponent h n id m v = Panic ↔ isRoot h id m = true ∧ n ∉ stack v.
Proof.
  unfold closeComponent.
  pose proof (scanStack_none n (stack v) (length (stack v)) (nodeID v) (le_n _)) as Hscan.
  rewrite firstn_all in Hscan.
  destruct (isRoot h id m); [|split; [done|by intros [? _]]].
  destruct (scanStack n (stack v) (length (stack v)) (nodeID v)) as [[i|] ids]; simpl in Hscan.
  - split; [done|]. intros [_ Hn]. apply Hscan in Hn. done.
  - split; [|done]. intros _. split; [done|]. by apply Hscan.
Qed.

Lemma visitNodes_never_panics prog univ (Hc : closed_universe prog univ) fuel :
  (∀ n v, wf_visitor prog univ v → n ∈ univ → visit prog fuel n v ≠ Panic) →
  ∀ body min v,
    wf_visitor prog univ v → (∀ f, f ∈ omap callee body → f ∈ univ) →
    visitNodes (visit prog fuel) body min v ≠ Panic.
Proof.
  intros IH body. induction body as [|nd body IHb]; intros min v Hw Hin; [done|].
  simpl. simpl in Hin. destruct (callee nd) as [f|]; [|by apply IHb].
  assert (f ∈ univ) as Hf by (apply Hin; by left).
  destruct (visit prog fuel f v) as [[m v1]| |] eqn:Hv; [| |done].
  - apply visit_sound in Hv.
    destruct (structure_visit prog univ Hc f v m v1 Hv Hw Hf) as (Hw1 & _).
    apply IHb; [done|]. intros g Hg. apply Hin. by right.
  - by destruct (IH f v Hw Hf).
Qed.

Lemma visit_never_panics prog univ (Hc : closed_universe prog univ) fuel : ∀ n v,
  wf_visitor prog univ v → n ∈ univ → visit prog fuel n v ≠ Panic.
Proof.
  induction fuel as [|fuel IH]; intros n v Hw Hu; [done|].
  destruct (decide (0 < lookupID v n)) as [Hseen|Hseen].
  { simpl. by rewrite bool_decide_eq_true_2. }
  apply (wf_unvisited prog univ v n Hw) in Hseen. rewrite (visit_first prog fuel n v Hseen).
  pose proof (wf_enter prog univ v n Hw Hseen Hu) as Hw1.
  assert (∀ f, f ∈ callees prog n → f ∈ univ) as Hin.
  { intros f Hf. by apply (univ_edge prog univ Hc n). }
  destruct (visitNodes (visit prog fuel) (Body (prog n)) (enter n v).1.2 (enter n v).2)
    as [[min' v2]| |] eqn:Hl; [| |done].
  - apply (visitNodes_Loop prog n) in Hl; [|apply visit_sound].
    destruct (structure_loop prog univ Hc n _ _ _ _ _ Hl Hw1 Hin) as (_ & Hext & _).
    { simpl. apply u32_range. }
    destruct Hext as [[seg Hseg] _]. simpl in Hseg.
    destruct (closeComponent (IsHiddenClosure (prog n)) n (enter n v).1.1 min' v2)
      as [v3| |] eqn:Hcl; [done| |done].
    apply closeComponent_panics in Hcl as [_ Hn]. exfalso. apply Hn.
    rewrite Hseg. apply elem_of_app. left. apply elem_of_app. right. by left.
  - by destruct (visitNodes_never_panics prog univ Hc fuel IH (Body (prog n))
                   (enter n v).1.2 (enter n v).2 Hw1 Hin).
Qed.

(** X3. The slice of line 144 is in bounds. [closeComponent] panics exactly
    when the test of line 122 passes for a function that is not on the
    stack; in a traversal the function is always found on the stack, so
    [visitBottomUp] never panics, at whatever depth the recursion is cut. *)
Theorem stack_slice_in_bounds prog univ list fuel :
  closed_universe prog univ → roots_in univ list →
  (∀ h n id m v, closeComponent h n id m v = Panic ↔ isRoot h id m = true ∧ n ∉ stack v) ∧
  visitBottomUp prog fuel list ≠ Panic.
Proof.
  intros Hc Hr. split; [apply closeComponent_panics|].
  unfold visitBottomUp. pose proof (wf_newVisitor prog univ) as Hw. revert Hw.
  generalize newVisitor. induction list as [|nd rest IH]; intros v Hw; [done|].
  pose proof (Forall_inv Hr) as Hn. apply Forall_inv_tail in Hr.
  simpl. destruct nd; try (by apply IH).
  destruct (IsHiddenClosure (prog fn)); [by apply IH|].
  simpl in Hn. destruct (visit prog fuel fn v) as [[m v1]| |] eqn:Hv; [| |done].
  - apply visit_sound in Hv.
    destruct (structure_visit prog univ Hc fn v m v1 Hv Hw Hn) as (Hw1 & _).
    by apply IH.
  - by destruct (visit_never_panics prog univ Hc fuel fn v Hw Hn).
Qed.

Lemma stack_slice_in_bounds_witness :
  (∀ h n id m v, closeComponent h n id m v = Panic ↔ isRoot h id m = true ∧ n ∉ stack v) ∧
  visitBottomUp demo 2 demo_list ≠ Panic.
Proof. exact (stack_slice_in_bounds demo demo_univ demo_list 2 demo_closed demo_roots). Defined.

(** X4. The visitor when [visitBottomUp] returns, for fewer than [2^31]
    function declarations: the counter has advanced by two for each
    function passed to [analyze] (lines 74-78), and the map of ordinals
    holds the sentinel for the functions passed to [analyze] and nothing for
    any other function (lines 141-143). *)
Theorem visitor_at_return prog univ list fuel :
  closed_universe prog univ → roots_in univ list →
  Z.of_nat (length univ) < 2 ^ 31 → (length univ < fuel)%nat →
  ∃ v, visitBottomUp prog fuel list = Done v ∧
    visitgen v = 2 * Z.of_nat (length (emitted v)) ∧
    ∀ n, lookupID v n = if decide (n ∈ emitted v) then sentinel else 0.
Proof.
  intros Hc Hr Hs Hf.
  destruct (run_bounded prog univ list fuel Hc Hr Hs Hf) as (v & Hv & Hok & Hst & _).
  pose proof (ok_wf _ _ v Hok) as Hw.
  exists v. split; [done|]. split.
  - rewrite (ok_gen _ _ v Hok), Hst. done.
  - intros n. destruct (decide (n ∈ emitted v)) as [Hin|Hout].
    + by apply (wf_emitted _ _ v Hw).
    + destruct (decide (lookupID v n = 0)) as [Hz|Hnz]; [done|].
      apply (wf_visited _ _ v Hw) in Hnz. rewrite Hst in Hnz. done.
Qed.

Lemma visitor_at_return_witness :
  ∃ v, visitBottomUp demo 6 demo_list = Done v ∧
    visitgen v = 2 * Z.of_nat (length (emitted v)) ∧
    ∀ n, lookupID v n = if decide (n ∈ emitted v) then sentinel else 0.
Proof.
  exact (visitor_at_return demo demo_univ demo_list 6
           demo_closed demo_roots demo_small demo_fuel).
Defined.

(** X5. The traversal touches nothing that the roots of the list do not
    reach: when [visitBottomUp] returns, every function with an ordinal in
    the map, and so every function on the stack or passed to [analyze], is
    reached from a listed declaration that is not a hidden closure through
    the targets that [visit] resolves (lines 58-65 and 81-120). *)
Theorem only_reachable_visited prog univ list fuel :
  closed_universe prog univ → roots_in univ list → (length univ < fuel)%nat →
  ∃ v, visitBottomUp prog fuel list = Done v ∧
    ∀ n, lookupID v n ≠ 0 ∨ n ∈ stack v ∨ n ∈ emitted v →
      ∃ r, root prog list r ∧ rtc (edge prog) r n.
Proof.
  intros Hc Hr Hf.
  destruct (run_structure prog univ list fuel Hc Hr Hf) as (v & Hv & Hw & _ & _ & _ & _ & Hreach).
  exists v. split; [done|]. intros n Hn. apply Hreach.
  apply elem_of_app.
  destruct Hn as [Hn|[Hn|Hn]]; [|by right|by left].
  apply (wf_visited _ _ v Hw) in Hn. apply elem_of_app in Hn. tauto.
Qed.

Lemma only_reachable_visited_witness :
  ∃ v, visitBottomUp demo 6 demo_list = Done v ∧
    ∀ n, lookupID v n ≠ 0 ∨ n ∈ stack v ∨ n ∈ emitted v →
      ∃ r, root demo demo_list r ∧ rtc (edge demo) r n.
Proof.
  apply (only_reachable_visited demo demo_univ demo_list 6 demo_closed demo_roots).
  vm_compute. lia.
Defined.

(** X6. What the comment of [visitBottomUp] promises (lines 43-46), for
    fewer than [2^31] function declarations: every function on a list
    passed to [analyze] only refers to functions of that list or of a list
    passed in an earlier call. *)
Theorem lists_closed_under_calls prog univ list fuel :
  closed_universe prog univ → roots_in univ list →
  Z.of_nat (length univ) < 2 ^ 31 → (length univ < fuel)%nat →
  ∃ v, visitBottomUp prog fuel list = Done v ∧
    ∀ i B r y z, analyzed v !! i = Some (B, r) → y ∈ B → edge prog y z →
      ∃ j B' r', (j ≤ i)%nat ∧ analyzed v !! j = Some (B', r') ∧ z ∈ B'.
Proof.
  intros Hc Hr Hs Hf.
  destruct (run_bounded prog univ list fuel Hc Hr Hs Hf) as (v & Hv & _ & _ & Hcl & _).
  exists v. split; [done|]. intros i B r y z Hi Hy Hyz. by apply (Hcl i B r Hi y Hy z).
Qed.

Lemma lists_closed_under_calls_witness :
  ∃ v, visitBottomUp demo 6 demo_list = Done v ∧
    ∀ i B r y z, analyzed v !! i = Some (B, r) → y ∈ B → edge demo y z →
      ∃ j B' r', (j ≤ i)%nat ∧ analyzed v !! j = Some (B', r') ∧ z ∈ B'.
Proof.
  exact (lists_closed_under_calls demo demo_univ demo_list 6
           demo_closed demo_roots demo_small demo_fuel).
Defined.

(** X7. Declarations added at the end of the list do not change what was
    passed to [analyze] for the declarations before them: the calls of
    [analyze] of a run over a list start with the calls of the run over any
    initial part of the list (lines 58-65; a visit only appends to the
    calls made so far). *)
Theorem earlier_calls_kept prog univ pre post fuel :
  closed_universe prog univ → roots_in univ (pre ++ post) → (length univ < fuel)%nat →
  ∃ w v news,
    visitBottomUp prog fuel pre = Done w ∧
    visitBottomUp prog fuel (pre ++ post) = Done v ∧
    analyzed v = analyzed w ++ news.
Proof.
  intros Hc Hr Hf.
  destruct (run_structure prog univ (pre ++ post) fuel Hc Hr Hf) as (v & Hv & _).
  unfold visitBottomUp in *. rewrite visitList_app in Hv.
  destruct (visitList prog fuel pre newVisitor) as [w| |] eqn:Hpre; [|done|done].
  unfold roots_in in Hr. apply Forall_app in Hr as [Hrpre Hrpost].
  destruct (prefix_visited prog univ Hc fuel pre w Hrpre Hpre) as [Hw _].
  pose proof (visitList_sound prog fuel post w v Hv) as Hrel.
  destruct (structure_list prog univ Hc post w v Hrel Hw Hrpost) as (_ & _ & [news Hnews] & _).
  exists w, v, news. rewrite visitList_app, Hpre. done.
Qed.

Lemma earlier_calls_kept_witness :
  ∃ w v news,
    visitBottomUp demo 6 [DclFunc 5%positive; DclFunc 2%positive] = Done w ∧
    visitBottomUp demo 6
      ([DclFunc 5%positive; DclFunc 2%positive] ++ [OtherNode; DclFunc 1%positive]) = Done v ∧
    analyzed v = analyzed w ++ news.
Proof.
  apply (earlier_calls_kept demo demo_univ).
  - exact demo_closed.
  - unfold roots_in. apply (bool_decide_unpack _). vm_compute. exact I.
  - vm_compute. lia.
Defined.

Lemma rtc_edge_univ prog univ (Hc : closed_universe prog univ) a b :
  a ∈ univ → rtc (edge prog) a b → b ∈ univ.
Proof.
  intros Ha Hp. induction Hp as [a|a c b Hac _ IH]; [done|].
  apply IH. by apply (univ_edge prog univ Hc a).
Qed.

(** Where hidden closures are referred to from one function only, a path of
    the tied graph that starts at a function that is not a hidden closure
    can be replaced by a path of calls. *)
Lemma tied_calls prog univ (Hc : closed_universe prog univ) a b :
  closures_owned prog univ → a ∈ univ → hidden prog a = false →
  rtc (tied prog univ) a b → rtc (edge prog) a b.
Proof.
  intros Hown Ha Hh Hp.
  pose (tie := λ x u : Func, u ∈ univ ∧ edge prog u x ∧ hidden prog x = true).
  assert (∃ u, u ∈ univ ∧ rtc tie a u ∧ rtc (edge prog) u b) as (u & _ & Hau & Hub).
  { apply rtc_nsteps in Hp as [k Hp]. revert b Hp.
    induction k as [|k IH]; intros b Hp.
    - inversion Hp; subst. eexists. split; [exact Ha|]. split; apply rtc_refl.
    - apply nsteps_inv_r in Hp as (z & Hz & Hzb).
      destruct (IH z Hz) as (u & Hu & Hau & Huz).
      destruct Hzb as [Hzb|(Hbu & Hbz & Hhz)].
      + exists u. split; [done|]. split; [done|]. by eapply rtc_r.
      + apply rtc_inv_r in Huz as [->|(w & Huw & Hwz)].
        * exists b. split; [done|]. split; [|apply rtc_refl].
          eapply rtc_r; [exact Hau|]. by split.
        * assert (w ∈ univ) as Hw by (by apply (rtc_edge_univ prog univ Hc u)).
          assert (w = b) as -> by (by apply (owned_unique prog univ Hown w b z)).
          exists u. by split. }
  apply rtc_inv in Hau as [->|(z & (_ & _ & Hha) & _)]; [done|congruence].
Qed.

Lemma reported_in_universe prog univ v B r x :
  wf_visitor prog univ v → (B, r) ∈ analyzed v → x ∈ B → x ∈ univ.
Proof.
  intros Hw HB Hx. apply (wf_univ _ _ v Hw). apply elem_of_app. right.
  apply elem_of_emitted. apply list_elem_of_lookup in HB as [i Hi]. by exists i, B, r.
Qed.

Lemma report_NoDup v B r : NoDup (emitted v) → (B, r) ∈ analyzed v → NoDup B.
Proof.
  intros Hnd HB. apply list_elem_of_split in HB as (l1 & l2 & Heq).
  unfold emitted in Hnd. rewrite Heq in Hnd.
  rewrite fmap_app, concat_app in Hnd. apply NoDup_app in Hnd as (_ & _ & Hnd).
  simpl in Hnd. by apply NoDup_app in Hnd as (? & _).
Qed.

(** X8. The functions of a list that are not hidden closures, for fewer
    than [2^31] function declarations and every hidden closure referred to
    from one function only: they are exactly the functions that reach one
    another through calls, a strongly connected component of the call graph
    among the functions that are not hidden closures; and, as the comment
    of [visitBottomUp] says (line 51), a list passed with [recursive] false
    consists of a single function and hidden closures. *)
Theorem functions_of_a_list prog univ list fuel :
  closed_universe prog univ → roots_in univ list → closures_owned prog univ →
  Z.of_nat (length univ) < 2 ^ 31 → (length univ < fuel)%nat →
  ∃ v, visitBottomUp prog fuel list = Done v ∧
    (∀ B r a b, (B, r) ∈ analyzed v → a ∈ B →
       hidden prog a = false → hidden prog b = false →
       (b ∈ B ↔ rtc (edge prog) a b ∧ rtc (edge prog) b a)) ∧
    (∀ B, (B, false) ∈ analyzed v →
       ∃ h t, B = h :: t ∧ hidden prog h = false ∧ ∀ c, c ∈ t → hidden prog c = true).
Proof.
  intros Hc Hr Hown Hs Hf.
  destruct (run_all prog univ list fuel Hc Hr Hown Hs Hf)
    as (v & Hv & Hov & Hst & Hcon & Hsh & Hrh & He & _).
  pose proof (ow_ok _ _ v Hov) as Hok. pose proof (ok_wf _ _ v Hok) as Hw.
  assert (∀ B r a b, (B, r) ∈ analyzed v → a ∈ B →
            hidden prog a = false → hidden prog b = false →
            (b ∈ B ↔ rtc (edge prog) a b ∧ rtc (edge prog) b a)) as Hcomp.
  { intros B r a b HB Ha Hha Hhb.
    rewrite (component_iff prog univ Hown v B r a b Hov Hcon Hsh Hrh He HB Ha).
    pose proof (reported_in_universe prog univ v B r a Hw HB Ha) as Hau.
    split.
    - intros [Hab Hba].
      assert (b ∈ B) as Hb.
      { by apply (component_iff prog univ Hown v B r a b Hov Hcon Hsh Hrh He HB Ha). }
      pose proof (reported_in_universe prog univ v B r b Hw HB Hb) as Hbu.
      split; by apply (tied_calls prog univ Hc).
    - intros [Hab Hba]. split; by apply rtc_edge_tied. }
  exists v. split; [done|]. split; [exact Hcomp|].
  intros B HB. destruct (wf_heads _ _ v Hw B false HB) as (h & t & -> & Hh).
  exists h, t. split; [done|]. split; [done|].
  intros c Hct. destruct (hidden prog c) eqn:Hhc; [done|]. exfalso.
  assert (NoDup (h :: t)) as Hnd.
  { apply (report_NoDup v _ false); [|done]. apply (v_nodup prog univ v Hw). }
  apply NoDup_cons in Hnd as [Hht _].
  destruct (proj1 (Hcomp (h :: t) false h c HB ltac:(by left) Hh Hhc)) as [Hhc' Hch];
    [by right|].
  assert (tc (edge prog) h h) as Hcyc.
  { apply rtc_tc in Hhc' as [->|Htc]; [done|]. by eapply tc_rtc_r. }
  pose proof HB as [i Hi]%list_elem_of_lookup.
  destruct (path_within prog v (ow_closed _ _ v Hov) h h Hcyc i _ false Hi)
    as (j & B' & r' & Hji & Hj & Hhin & Hin); [by left|].
  assert (j = i) as Hji'.
  { apply (same_index prog univ v Hw j i B' r' (h :: t) false h); try done. by left. }
  assert (false = true); [|done].
  apply (flag_iff_cycle prog univ v (h :: t) false Hov Hcon HB).
  exists h. by apply Hin.
Qed.

Lemma functions_of_a_list_witness :
  ∃ v, visitBottomUp demo 6 demo_list = Done v ∧
    (∀ B r a b, (B, r) ∈ analyzed v → a ∈ B →
       hidden demo a = false → hidden demo b = false →
       (b ∈ B ↔ rtc (edge demo) a b ∧ rtc (edge demo) b a)) ∧
    (∀ B, (B, false) ∈ analyzed v →
       ∃ h t, B = h :: t ∧ hidden demo h = false ∧ ∀ c, c ∈ t → hidden demo c = true).
Proof.
  exact (functions_of_a_list demo demo_univ demo_list 6
           demo_closed demo_roots demo_owned demo_small demo_fuel).
Defined.
